(** * gnark front-end: constraint-system builder and gadget library

    A shallow embedding of the Go packages [frontend] (the R1CS builder
    API: Add, Sub, Mul, Constant, Select, ToBinary, IsZero, AssertIsBoolean)
    and [twistededwards] (the Edwards-curve parameter registry).

    Go values are embedded as follows.
    - [big.Int] is [Z]; slices are lists; an index outside a slice panics.
    - A method on [*ConstraintSystem] is a computation in the monad [M],
      which threads the constraint system and may panic.
    - An [interface{}] operand is the tagged value [operand]: either a
      [variable] or a constant already converted to a big integer.
    - A [Variable] is a Go struct passed by value: a callee that assigns to
      a field of its parameter changes its own copy only. *)

From Stdlib Require Import ZArith List Bool String Ascii Lia Permutation.
From Stdlib Require Import Sorted Znumtheory Zmod DecimalString.
Import ListNotations.
Local Open Scope Z_scope.

(** ** Package [ecc]: curve identities *)

Module ecc.

(** The identities of gnark-crypto.  [ID] is a [uint16] in Go; every value
    that is not one of the named constants is [Unsupported n]. *)
Inductive ID : Type :=
| UNKNOWN
| BN254
| BLS12_377
| BLS12_381
| BLS24_315
| BW6_761
| BW6_633
| Unsupported (n : nat).

Definition eqb (a b : ID) : bool :=
  match a, b with
  | UNKNOWN, UNKNOWN => true
  | BN254, BN254 => true
  | BLS12_377, BLS12_377 => true
  | BLS12_381, BLS12_381 => true
  | BLS24_315, BLS24_315 => true
  | BW6_761, BW6_761 => true
  | BW6_633, BW6_633 => true
  | Unsupported n, Unsupported m => Nat.eqb n m
  | _, _ => false
  end.

(** The six identities both packages register. *)
Definition supported (i : ID) : bool :=
  match i with
  | BN254 | BLS12_381 | BLS12_377 | BW6_761 | BLS24_315 | BW6_633 => true
  | _ => false
  end.

End ecc.

(** ** Package [twistededwards] *)

Module twistededwards.

(** What [GetEdwardsCurve()] of a gnark-crypto curve package returns, each
    field element already read as the integer [FromInterface] gives. *)
Record CurveParams : Type := mkCurveParams {
  cpA : Z; cpD : Z; cpCofactor : Z; cpOrder : Z; cpBaseX : Z; cpBaseY : Z
}.

(** [EdCurve] stores the info on the chosen edwards curve. *)
Record EdCurve : Type := mkEdCurve {
  A : Z; D : Z; Cofactor : Z; Order : Z; BaseX : Z; BaseY : Z; Modulus : Z;
  ID : ecc.ID
}.

(** The zero value [EdCurve{}]. *)
Definition emptyEdCurve : EdCurve := mkEdCurve 0 0 0 0 0 0 0 ecc.UNKNOWN.

(** A Go [map[ecc.ID]V]: an association list, the newest binding first. *)
Definition idmap (V : Type) : Type := list (ecc.ID * V).

Definition mapInsert {V} (k : ecc.ID) (v : V) (m : idmap V) : idmap V :=
  (k, v) :: filter (fun kv => negb (ecc.eqb (fst kv) k)) m.

Fixpoint mapLookup {V} (k : ecc.ID) (m : idmap V) : option V :=
  match m with
  | [] => None
  | (k', v) :: m' => if ecc.eqb k' k then Some v else mapLookup k m'
  end.

Section Registry.

(** The curve tables and scalar-field moduli of gnark-crypto, one per
    curve package ([edbn254.GetEdwardsCurve], [frbn254.Modulus], ...). *)
Variable GetEdwardsCurve : ecc.ID -> CurveParams.
Variable frModulus : ecc.ID -> Z.

(** The six constructors [newEdBN254], [newEdBLS381], ... differ only in
    the package they read and the identity they store. *)
Definition newEd (i : ecc.ID) (_ : unit) : EdCurve :=
  let edcurve := GetEdwardsCurve i in
  let cofactorReg := cpCofactor edcurve in
  let res := mkEdCurve (cpA edcurve) (cpD edcurve) cofactorReg
               (cpOrder edcurve) (cpBaseX edcurve) (cpBaseY edcurve) 0 i in
  mkEdCurve (A res) (D res) (Cofactor res) (Order res) (BaseX res) (BaseY res)
            (frModulus i) (ID res).

Definition newEdBN254 := newEd ecc.BN254.
Definition newEdBLS381 := newEd ecc.BLS12_381.
Definition newEdBLS377 := newEd ecc.BLS12_377.
Definition newEdBW761 := newEd ecc.BW6_761.
Definition newEdBLS315 := newEd ecc.BLS24_315.
Definition newEdBW633 := newEd ecc.BW6_633.

(** The package's [init]. *)
Definition newTwistedEdwards : idmap (unit -> EdCurve) :=
  mapInsert ecc.BW6_633 newEdBW633
  (mapInsert ecc.BLS24_315 newEdBLS315
  (mapInsert ecc.BW6_761 newEdBW761
  (mapInsert ecc.BLS12_377 newEdBLS377
  (mapInsert ecc.BN254 newEdBN254
  (mapInsert ecc.BLS12_381 newEdBLS381 []))))).

(** [NewEdCurve] returns an Edwards curve parameters; the second component
    is Go's [error], [None] for [nil]. *)
Definition NewEdCurve (i : ecc.ID) : EdCurve * option string :=
  match mapLookup i newTwistedEdwards with
  | Some constructor => (constructor tt, None)
  | None => (emptyEdCurve, Some "unknown curve id"%string)
  end.

End Registry.

End twistededwards.

(** ** Package [frontend] *)

Module frontend.

(** *** Data model *)

(** Modelled from the spec: the declaration of [compiled.Visibility] is not
    part of the sources.  A wire's visibility is one of public, secret,
    internal or the one-wire. *)
Inductive Visibility : Type := Public | Secret | Internal | One.

(** Modelled from the spec: the declaration of [Wire] is missing.  A wire is
    a visibility and an ID unique within that visibility's namespace (the
    [val] field of the Go struct holds a witness value and is not read by
    the builder). *)
Record Wire : Type := mkWire { visibility : Visibility; id : nat }.

(** Modelled from the spec: [compiled.Term] is a packed triple
    (coefficient-ID, wire-ID, visibility). *)
Record Term : Type := mkTerm {
  CoeffID : nat; VariableID : nat; VariableVisibility : Visibility
}.

Definition Pack (variableID coeffID : nat) (vis : Visibility) : Term :=
  mkTerm coeffID variableID vis.

Definition Unpack (t : Term) : nat * nat * Visibility :=
  (CoeffID t, VariableID t, VariableVisibility t).

Definition LinearExpression : Type := list Term.

(** [Clone] copies the slice; a list is its own copy. *)
Definition Clone (l : LinearExpression) : LinearExpression := l.

(** Modelled from the spec: the declaration of [Variable] is missing.  A
    variable has a linear expression, an optional underlying wire and the
    known-boolean flag; [Variable{Wire{}, linExp, false}] in the source
    shows the flag is a plain [bool].  The zero [Wire{}] is [None]. *)
Record variable : Type := mkVariable {
  wire : option Wire; linExp : LinearExpression; isBoolean : bool
}.

Definition setLinExp (v : variable) (l : LinearExpression) : variable :=
  mkVariable (wire v) l (isBoolean v).

Definition setIsBoolean (v : variable) (b : bool) : variable :=
  mkVariable (wire v) (linExp v) b.

(** The zero value [var res Variable]. *)
Definition zeroVariable : variable := mkVariable None [] false.

(** An [interface{}] argument of the API: a [Variable], or anything
    [FromInterface] converts to a big integer. *)
Inductive operand : Type :=
| Var (v : variable)
| Const (k : Z).

(** Modelled from the spec: [FromInterface] is missing; it converts a
    non-Variable operand to a big integer.  [Const] already carries it. *)
Definition FromInterface (k : Z) : Z := k.

(** Modelled from the spec: the solving hint of a constraint, default
    single-output, alternative binary-decomposition. *)
Inductive SolvingMethod : Type := SingleOutput | BinaryDec.

(** Modelled from the spec: a constraint is a tuple (L, R, O, hint). *)
Record R1C : Type := mkR1C {
  R1C_L : LinearExpression; R1C_R : LinearExpression;
  R1C_O : LinearExpression; R1C_Solver : SolvingMethod
}.

(** A log entry: a format string and the terms to resolve. *)
Record logEntry : Type := mkLogEntry {
  format : string; toResolve : list Term
}.

(** Modelled from the spec: the declaration of [ConstraintSystem] is
    missing.  The state is the wire counts, the coefficient table, the
    constraint list, the assertion list (each assertion with the index of
    its log entry) and the log-entry list. *)
Record ConstraintSystem : Type := mkCS {
  nbPublic : nat; nbSecret : nat; nbInternal : nat;
  coeffs : list Z;
  constraints : list R1C;
  assertions : list (R1C * nat);
  logs : list logEntry
}.

Definition CoeffIdZero : nat := 0.
Definition CoeffIdOne : nat := 1.
Definition CoeffIdMinusOne : nat := 2.
Definition CoeffIdTwo : nat := 3.

(** Modelled from the spec: a constraint system is created empty, its
    coefficient table holding the four reserved slots 0, 1, -1, 2. *)
Definition newConstraintSystem : ConstraintSystem :=
  mkCS 0 0 0 [0; 1; -1; 2] [] [] [].

(** *** The builder monad: state passing with panics *)

Inductive Result (A : Type) : Type :=
| Ok (a : A)
| Panic (msg : string).
Arguments Ok {A} a.
Arguments Panic {A} msg.

Definition M (A : Type) : Type :=
  ConstraintSystem -> Result (A * ConstraintSystem).

Definition ret {A} (a : A) : M A := fun cs => Ok (a, cs).

Definition bind {A B} (m : M A) (k : A -> M B) : M B :=
  fun cs =>
    match m cs with
    | Ok (a, cs') => k a cs'
    | Panic msg => Panic msg
    end.

Definition panic {A} (msg : string) : M A := fun _ => Panic msg.

Notation "x <- m ;; k" := (bind m (fun x => k))
  (at level 61, m at next level, right associativity).
Notation "m ;;; k" := (bind m (fun _ => k))
  (at level 61, right associativity).

Fixpoint mapM {A B} (f : A -> M B) (l : list A) : M (list B) :=
  match l with
  | [] => ret []
  | a :: l' => b <- f a ;; bs <- mapM f l' ;; ret (b :: bs)
  end.

Fixpoint foldM {A B} (f : A -> B -> M A) (l : list B) (a : A) : M A :=
  match l with
  | [] => ret a
  | b :: l' => a' <- f a b ;; foldM f l' a'
  end.

(** Go's [s[i]]: a run-time panic outside the slice. *)
Definition index {A} (s : list A) (i : nat) : M A :=
  match nth_error s i with
  | Some a => ret a
  | None => panic "index out of range"%string
  end.

(** [cs.coeffs[coeffID]] *)
Definition getCoeff (i : nat) : M Z :=
  fun cs => index (coeffs cs) i cs.

(** [cs.constraints = append(cs.constraints, c)] *)
Definition appendConstraint (c : R1C) : M unit :=
  fun cs =>
    Ok (tt, mkCS (nbPublic cs) (nbSecret cs) (nbInternal cs) (coeffs cs)
                 (constraints cs ++ [c]) (assertions cs) (logs cs)).

(** Modelled from the spec: [addAssertion] is missing.  The assertion goes
    to the assertion list, apart from the constraints, with the index of
    its log entry, which goes to the log-entry list. *)
Definition addAssertion (c : R1C) (debugInfo : logEntry) : M unit :=
  fun cs =>
    Ok (tt, mkCS (nbPublic cs) (nbSecret cs) (nbInternal cs) (coeffs cs)
                 (constraints cs)
                 (assertions cs ++ [(c, List.length (logs cs))])
                 (logs cs ++ [debugInfo])).

(** Modelled from the spec: [coeffID] (the pool's intern) is missing.  The
    four canonical values take their reserved IDs without an insertion;
    any other value is inserted and gets the next ID.  Equal values need
    not share an ID. *)
Definition coeffID (b : Z) : M nat :=
  fun cs =>
    if b =? 0 then Ok (CoeffIdZero, cs)
    else if b =? 1 then Ok (CoeffIdOne, cs)
    else if b =? -1 then Ok (CoeffIdMinusOne, cs)
    else if b =? 2 then Ok (CoeffIdTwo, cs)
    else Ok (List.length (coeffs cs),
             mkCS (nbPublic cs) (nbSecret cs) (nbInternal cs)
                  (coeffs cs ++ [b])
                  (constraints cs) (assertions cs) (logs cs)).

(** Modelled from the spec: [makeTerm] is missing.  It interns the
    coefficient and packs the term. *)
Definition makeTerm (w : Wire) (coeff : Z) : M Term :=
  c <- coeffID coeff ;;
  ret (Pack (id w) c (visibility w)).

(** Modelled from the spec: [newInternalVariable] is missing.  It allocates
    a fresh internal wire and returns a variable whose linear expression
    is the singleton 1*wire. *)
Definition newInternalVariable : M variable :=
  fun cs =>
    let idx := nbInternal cs in
    Ok (mkVariable (Some (mkWire Internal idx))
                   [Pack idx CoeffIdOne Internal] false,
        mkCS (nbPublic cs) (nbSecret cs) (S idx) (coeffs cs)
             (constraints cs) (assertions cs) (logs cs)).

(** The one-wire, the distinguished constant 1, has a fixed ID. *)
Definition oneWire : Wire := mkWire One 0.

(** Modelled from the spec: [getOneVariable] is missing.  It returns the
    cached variable of the one-wire. *)
Definition getOneVariable : variable :=
  mkVariable (Some oneWire) [Pack (id oneWire) CoeffIdOne One] false.

(** Modelled from the spec: [completeDanglingVariable] is missing.  A
    variable with an empty linear expression and a wire is dangling and
    gets the singleton 1*wire; the source calls it on a local copy. *)
Definition completeDanglingVariable (v : variable) : variable :=
  match linExp v, wire v with
  | [], Some w => setLinExp v [Pack (id w) CoeffIdOne (visibility w)]
  | _, _ => v
  end.

(** Modelled from the spec: [newR1C] is missing.  The constraint holds
    copies of the three linear expressions; the hint defaults to
    single-output. *)
Definition newR1C (l r o : variable) (s : option SolvingMethod) : R1C :=
  let solver := match s with Some m => m | None => SingleOutput end in
  mkR1C (Clone (linExp l)) (Clone (linExp r)) (Clone (linExp o)) solver.

(** *** Keys and the order of terms *)

Definition Key : Type := (Visibility * nat)%type.

Definition key (t : Term) : Key := (VariableVisibility t, VariableID t).

(** Modelled from the spec: terms are ordered by (visibility, wire-ID);
    visibilities are ranked in the order the spec lists them. *)
Definition visRank (v : Visibility) : nat :=
  match v with Public => 0 | Secret => 1 | Internal => 2 | One => 3 end.

Definition keyLtb (a b : Key) : bool :=
  (visRank (fst a) <? visRank (fst b))%nat
  || ((visRank (fst a) =? visRank (fst b))%nat && (snd a <? snd b)%nat).

Definition keyEqb (a b : Key) : bool :=
  (visRank (fst a) =? visRank (fst b))%nat && (snd a =? snd b)%nat.

Definition keyLeb (a b : Key) : bool := keyLtb a b || keyEqb a b.

Section Builder.

(** The modulus of the field the build targets: the field oracle's
    [modulus] for the selected curve identity. *)
Variable q : Z.

(** The scalar-field moduli of gnark-crypto ([frbn254.Modulus()], ...). *)
Variable frModulus : ecc.ID -> Z.

(** [getCallStack()] reads the Go run-time stack; its lines only decorate
    log entries. *)
Variable getCallStack : list string.

(** Field oracle: [normalize(x)] is [x mod p], in [0, p). *)
Definition normalize (x : Z) : Z := x mod q.

(** *** Linear expression reduction *)

(** Stable insertion sort of the terms by key, ascending. *)
Fixpoint insertTerm (t : Term) (l : LinearExpression) : LinearExpression :=
  match l with
  | [] => [t]
  | h :: l' => if keyLeb (key t) (key h) then t :: l else h :: insertTerm t l'
  end.

Fixpoint sortTerms (l : LinearExpression) : LinearExpression :=
  match l with
  | [] => []
  | t :: l' => insertTerm t (sortTerms l')
  end.

(** Folds each run of equal-key entries of a sorted list into one entry
    carrying the sum of the run's coefficients. *)
Fixpoint foldRuns (l : list (Z * Key)) : list (Z * Key) :=
  match l with
  | [] => []
  | (c, k) :: l' =>
      match foldRuns l' with
      | (c', k') :: out =>
          if keyEqb k k' then (c + c', k) :: out
          else (c, k) :: (c', k') :: out
      | [] => [(c, k)]
      end
  end.

Definition nonZero (ck : Z * Key) : bool := negb (fst ck =? 0).

Definition normalizeEntry (ck : Z * Key) : Z * Key :=
  (normalize (fst ck), snd ck).

(** The coefficient value and key of a term. *)
Definition lookupTerm (t : Term) : M (Z * Key) :=
  c <- getCoeff (CoeffID t) ;; ret (c, key t).

Definition internEntry (ck : Z * Key) : M Term :=
  makeTerm (mkWire (fst (snd ck)) (snd (snd ck))) (fst ck).

(** Modelled from the spec: [reduce] is missing.  It sorts the expression
    by (visibility, wire-ID) ascending, folds runs of equal-key terms by
    summing their coefficients in the field and re-interning, and drops
    the terms whose summed coefficient is zero. *)
Definition reduce (l : LinearExpression) : M LinearExpression :=
  entries <- mapM lookupTerm (sortTerms l) ;;
  let summed := map normalizeEntry (foldRuns entries) in
  mapM internEntry (filter nonZero summed).

(** *** Arithmetic operations *)

Definition mulConstant (i : Z) (v : variable) : M variable :=
  let lambda := FromInterface i in
  linExp' <- mapM (fun t =>
               let '(coeffID', variableID, constraintVis) := Unpack t in
               coeff <- getCoeff coeffID' ;;
               let coeffCopy := coeff * lambda in
               makeTerm (mkWire constraintVis variableID) coeffCopy)
             (linExp v) ;;
  ret (mkVariable None linExp' false).

(** [Constant] will return (and allocate if necessary) a constant
    variable. *)
Definition Constant (input : operand) : M variable :=
  match input with
  | Var t => ret (completeDanglingVariable t)
  | Const t =>
      let n := FromInterface t in
      if n =? 1 then ret getOneVariable
      else mulConstant n getOneVariable
  end.

(** The closure [add] of [Add]: appends the operand's expression to [res]. *)
Definition add (res : variable) (_i : operand) : M variable :=
  match _i with
  | Var t =>
      let t := completeDanglingVariable t in
      ret (setLinExp res (linExp res ++ Clone (linExp t)))
  | Const t =>
      v <- Constant (Const t) ;;
      ret (setLinExp res (linExp res ++ Clone (linExp v)))
  end.

(** [Add] returns res = i1+i2+...in *)
Definition Add (i1 i2 : operand) (rest : list operand) : M variable :=
  let res := zeroVariable in
  res <- add res i1 ;;
  res <- add res i2 ;;
  res <- foldM add rest res ;;
  l <- reduce (linExp res) ;;
  ret (setLinExp res l).

(** returns -le, the result is a copy *)
Definition negateLinExp (l : LinearExpression) : M LinearExpression :=
  mapM (fun t =>
          let '(coeffID', variableID, constraintVis) := Unpack t in
          coeff <- getCoeff coeffID' ;;
          let coeffCopy := - coeff in
          makeTerm (mkWire constraintVis variableID) coeffCopy)
       l.

(** [Sub] returns res = i1 - i2 *)
Definition Sub (i1 i2 : operand) : M variable :=
  let res := zeroVariable in
  res <- match i1 with
         | Var t =>
             let t := completeDanglingVariable t in
             ret (setLinExp res (Clone (linExp t)))
         | Const t =>
             v <- Constant (Const t) ;;
             ret (setLinExp res (Clone (linExp v)))
         end ;;
  res <- match i2 with
         | Var t =>
             let t := completeDanglingVariable t in
             negLinExp <- negateLinExp (linExp t) ;;
             ret (setLinExp res (linExp res ++ negLinExp))
         | Const t =>
             v <- Constant (Const t) ;;
             negLinExp <- negateLinExp (linExp v) ;;
             ret (setLinExp res (linExp res ++ negLinExp))
         end ;;
  l <- reduce (linExp res) ;;
  ret (setLinExp res l).

(** The closure [mul] of [Mul]. *)
Definition mul (_i1 _i2 : operand) : M variable :=
  match _i1 with
  | Var t1 =>
      let t1 := completeDanglingVariable t1 in
      match _i2 with
      | Var t2 =>
          let t2 := completeDanglingVariable t2 in
          _res <- newInternalVariable ;;
          appendConstraint (newR1C t1 t2 _res None) ;;;
          ret _res
      | Const t2 => mulConstant t2 t1
      end
  | Const t1 =>
      match _i2 with
      | Var t2 =>
          let t2 := completeDanglingVariable t2 in
          mulConstant t1 t2
      | Const t2 =>
          let n1 := FromInterface t1 in
          let n2 := FromInterface t2 in
          let n1 := n1 * n2 in
          Constant (Const n1)
      end
  end.

(** [Mul] returns res = i1 * i2 * ... in *)
Definition Mul (i1 i2 : operand) (rest : list operand) : M variable :=
  res <- mul i1 i2 ;;
  foldM (fun res i => mul (Var res) i) rest res.

(** *** Assertions *)

Definition newline : string := String (ascii_of_nat 10) EmptyString.

Definition withCallStack (s : string) : string :=
  fold_left (fun sbb line => (sbb ++ newline ++ line)%string) getCallStack s.

(** [AssertIsBoolean] adds an assertion in the constraint system
    (v == 0 || v == 1).  The variable is received by value: the flag is
    set on the callee's copy, which [assertIsBooleanBody] returns for
    inspection and [AssertIsBoolean] drops, as the Go function does. *)
Definition assertIsBooleanBody (v : variable) : M variable :=
  let v := completeDanglingVariable v in
  if isBoolean v then ret v
  else
    _v <- Sub (Const 1) (Var v) ;;
    o <- Constant (Const 0) ;;
    let v := setIsBoolean v true in
    let debugInfo := mkLogEntry (withCallStack "error AssertIsBoolean"%string) [] in
    addAssertion (newR1C v _v o None) debugInfo ;;;
    ret v.

Definition AssertIsBoolean (v : variable) : M unit :=
  assertIsBooleanBody v ;;; ret tt.

(** *** Gadgets *)

(** [len(expo.Bytes())]: the bytes of the absolute value, none for 0. *)
Definition bytesLen (x : Z) : nat :=
  if x =? 0 then 0%nat else S (Z.to_nat (Z.log2 (Z.abs x)) / 8).

(** The [switch id] of [IsZero]. *)
Definition isZeroModulus (i : ecc.ID) : M Z :=
  match i with
  | ecc.BN254 => ret (frModulus ecc.BN254)
  | ecc.BLS12_381 => ret (frModulus ecc.BLS12_381)
  | ecc.BLS12_377 => ret (frModulus ecc.BLS12_377)
  | ecc.BW6_761 => ret (frModulus ecc.BW6_761)
  | ecc.BLS24_315 => ret (frModulus ecc.BLS24_315)
  | ecc.BW6_633 => ret (frModulus ecc.BW6_633)
  | _ => panic "not implemented"%string
  end.

(** The loop [for i := nbBits - 1; i >= 1; i--] of [IsZero], entered with
    the current [i]. *)
Fixpoint isZeroLoop (expo : Z) (a : variable) (i : nat) (res : variable)
  : M variable :=
  match i with
  | O => ret res
  | S i' =>
      res <- Mul (Var res) (Var res) [] ;;
      res <- (if Z.testbit expo (Z.of_nat i)
              then Mul (Var res) (Var a) [] else ret res) ;;
      isZeroLoop expo a i' res
  end.

(** The body of [IsZero] once the modulus is chosen. *)
Definition isZeroExp (expo : Z) (a : variable) : M variable :=
  res <- Constant (Const 1) ;;
  let nbBits := (bytesLen expo * 8)%nat in
  res <- isZeroLoop expo a (nbBits - 1) res ;;
  res <- Mul (Var res) (Var res) [] ;;
  Sub (Const 1) (Var res).

(** [IsZero] returns 1 if a is zero, 0 otherwise *)
Definition IsZero (a : variable) (i : ecc.ID) : M variable :=
  expo <- isZeroModulus i ;;
  isZeroExp expo a.

(** The first loop of [ToBinary]: allocates and asserts the bits. *)
Fixpoint toBinaryAlloc (nbBits : nat) : M (list variable) :=
  match nbBits with
  | O => ret []
  | S n =>
      r <- newInternalVariable ;;
      AssertIsBoolean r ;;;
      res <- toBinaryAlloc n ;;
      ret (r :: res)
  end.

(** The second loop of [ToBinary], over [res[1..]]. *)
Fixpoint toBinarySum (bits : list variable) (coeff : Z) (v : variable)
  : M variable :=
  match bits with
  | [] => ret v
  | b :: bits' =>
      _v <- Mul (Const coeff) (Var b) [] ;;
      v <- Add (Var v) (Var _v) [] ;;
      toBinarySum bits' (coeff * 2) v
  end.

(** [ToBinary] unpacks a variable in binary, n is the number of bits of the
    variable.  The result is in little endian (first bit = lsb). *)
Definition ToBinary (a : variable) (nbBits : nat) : M (list variable) :=
  let a := completeDanglingVariable a in
  res <- toBinaryAlloc nbBits ;;
  let coeff := 2 in
  res0 <- index res 0 ;;
  v <- Mul (Var res0) (Const 1) [] ;;
  v <- toBinarySum (skipn 1 res) coeff v ;;
  let one := getOneVariable in
  appendConstraint (newR1C v one a (Some BinaryDec)) ;;;
  ret res.

(** [Select]: if b is true, yields i1 else yields i2 *)
Definition Select (b : variable) (i1 i2 : operand) : M variable :=
  let b := completeDanglingVariable b in
  AssertIsBoolean b ;;;
  match i1 with
  | Var t1 =>
      let t1 := completeDanglingVariable t1 in
      res <- newInternalVariable ;;
      v <- Sub (Var t1) i2 ;;
      w <- Sub (Var res) i2 ;;
      appendConstraint (newR1C b v w None) ;;;
      ret res
  | Const t1 =>
      match i2 with
      | Var t2 =>
          let t2 := completeDanglingVariable t2 in
          res <- newInternalVariable ;;
          v <- Sub (Const t1) (Var t2) ;;
          w <- Sub (Var res) (Var t2) ;;
          appendConstraint (newR1C b v w None) ;;;
          ret res
      | Const t2 =>
          let n1 := FromInterface t1 in
          let n2 := FromInterface t2 in
          let n1 := n2 - n1 in
          let diff := n1 in
          res <- Mul (Var b) (Const diff) [] ;;
          res <- Add (Var res) (Const t2) [] ;;
          ret res
      end
  end.

(** *** The other operations of the API *)

(** [Neg] returns -i.  A Variable's expression is negated as it stands:
    the variable is not completed first. *)
Definition Neg (i : operand) : M variable :=
  let res := zeroVariable in
  match i with
  | Var t =>
      l <- negateLinExp (linExp t) ;;
      ret (setLinExp res l)
  | Const t =>
      let n := FromInterface t in
      let n := - n in
      if n =? 1 then ret getOneVariable
      else (res <- Constant (Const n) ;; ret res)
  end.

(** [Inverse] returns res = inverse(v) *)
Definition Inverse (v : variable) : M variable :=
  let v := completeDanglingVariable v in
  res <- newInternalVariable ;;
  appendConstraint (newR1C v res getOneVariable None) ;;;
  ret res.

(** [Div] returns res = i1 / i2 *)
Definition Div (i1 i2 : operand) : M variable :=
  res <- newInternalVariable ;;
  match i1 with
  | Var t1 =>
      let t1 := completeDanglingVariable t1 in
      match i2 with
      | Var t2 =>
          let t2 := completeDanglingVariable t2 in
          appendConstraint (newR1C t2 res t1 None)
      | Const t2 =>
          tmp <- Constant (Const t2) ;;
          appendConstraint (newR1C tmp res t1 None)
      end
  | Const t1 =>
      match i2 with
      | Var t2 =>
          let t2 := completeDanglingVariable t2 in
          tmp <- Constant (Const t1) ;;
          appendConstraint (newR1C t2 res tmp None)
      | Const t2 =>
          tmp1 <- Constant (Const t1) ;;
          tmp2 <- Constant (Const t2) ;;
          appendConstraint (newR1C tmp2 res tmp1 None)
      end
  end ;;;
  ret res.




(** The loop of [FromBinary], entered at index [i] with the running
    [coeff] and [res]. *)
Fixpoint fromBinaryLoop (b : list variable) (i : nat) (coeff : Z)
  (res : variable) : M variable :=
  match b with
  | [] => ret res
  | bi :: b' =>
      let coeff := if (i =? 0)%nat then 1
                   else if (i =? 1)%nat then 2
                   else coeff * 2 in
      v <- Mul (Const coeff) (Var bi) [] ;;
      res <- Add (Var v) (Var res) [] ;;
      AssertIsBoolean bi ;;;
      fromBinaryLoop b' (S i) coeff res
  end.

(** [FromBinary] packs b, seen as a fr.Element in little endian *)
Definition FromBinary (b : list variable) : M variable :=
  let b := map completeDanglingVariable b in
  res <- Constant (Const 0) ;;
  fromBinaryLoop b 0 0 res.

(** [c.String()] of a [big.Int]: its decimal digits, with a sign when
    negative. *)
Definition bigIntString (c : Z) : string :=
  NilZero.string_of_int (Z.to_int c).

(** [buildLogEntryFromVariable] creates a string formatted to display
    correctly a variable, from its linear expression representation. *)
Definition buildLogEntryFromVariable (v : variable) : M logEntry :=
  parts <- mapM (fun t =>
                   c <- getCoeff (CoeffID t) ;;
                   ret ("(%s * " ++ bigIntString c ++ ")")%string)
                (linExp v) ;;
  ret (mkLogEntry (String.concat " + " parts) (Clone (linExp v))).

(** [AssertIsEqual] adds an assertion in the constraint system
    (i1 == i2) *)
Definition AssertIsEqual (i1 i2 : operand) : M unit :=
  l <- Constant i1 ;;
  r <- Constant (Const 1) ;;
  o <- Constant i2 ;;
  lhs <- buildLogEntryFromVariable l ;;
  rhs <- buildLogEntryFromVariable o ;;
  let debugInfo :=
    mkLogEntry ("[" ++ format lhs ++ " != " ++ format rhs ++ "]")%string
               (toResolve lhs ++ toResolve rhs) in
  addAssertion (newR1C l r o None) debugInfo.

(** Go's [s[i] = a]: a run-time panic outside the slice. *)
Definition store {A} (s : list A) (i : nat) (a : A) : M (list A) :=
  if (i <? List.length s)%nat
  then ret (firstn i s ++ a :: skipn (S i) s)
  else panic "index out of range"%string.

Definition nbBits : nat := 256.
Definition nbWords : nat := 4.
Definition wordSize : nat := 64.

(** One iteration [i] of the loop of [mustBeLessOrEqVar]. *)
Definition lessOrEqVarStep (debugInfo : logEntry)
  (binw binbound : list variable) (zero : variable) (i : nat)
  (p : list variable) : M (list variable) :=
  pn <- index p (i + 1) ;;
  wi <- index binw i ;;
  p1 <- Mul (Var pn) (Var wi) [] ;;
  bi <- index binbound i ;;
  pn <- index p (i + 1) ;;
  pi <- Select bi (Var p1) (Var pn) ;;
  p <- store p i pi ;;
  bi <- index binbound i ;;
  pn <- index p (i + 1) ;;
  t <- Select bi (Var zero) (Var pn) ;;
  let l := getOneVariable in
  l <- Sub (Var l) (Var t) ;;
  wi <- index binw i ;;
  l <- Sub (Var l) (Var wi) ;;
  r <- index binw i ;;
  o <- Constant (Const 0) ;;
  addAssertion (newR1C l r o None) debugInfo ;;;
  ret p.

(** The loop [for i := nbBits - 1; i >= 0; i--], entered with [n] = i + 1. *)
Fixpoint lessOrEqVarLoop (debugInfo : logEntry)
  (binw binbound : list variable) (zero : variable) (n : nat)
  (p : list variable) : M (list variable) :=
  match n with
  | O => ret p
  | S i =>
      p <- lessOrEqVarStep debugInfo binw binbound zero i p ;;
      lessOrEqVarLoop debugInfo binw binbound zero i p
  end.

Definition mustBeLessOrEqVar (w bound : variable) : M unit :=
  dbgInfoW <- buildLogEntryFromVariable w ;;
  dbgInfoBound <- buildLogEntryFromVariable bound ;;
  let debugInfo :=
    mkLogEntry
      (withCallStack (format dbgInfoW ++ " <= " ++ format dbgInfoBound)%string)
      (toResolve dbgInfoW ++ toResolve dbgInfoBound) in
  binw <- ToBinary w nbBits ;;
  binbound <- ToBinary bound nbBits ;;
  let p := repeat zeroVariable (nbBits + 1) in
  one <- Constant (Const 1) ;;
  p <- store p nbBits one ;;
  zero <- Constant (Const 0) ;;
  lessOrEqVarLoop debugInfo binw binbound zero nbBits p ;;;
  ret tt.

(** [bound.Bits()]: the 64-bit words of the absolute value, least
    significant first, none for 0. *)
Definition Bits (x : Z) : list Z :=
  let n := if x =? 0 then 0%nat
           else S (Z.to_nat (Z.log2 (Z.abs x)) / wordSize) in
  map (fun i => (Z.abs x / 2 ^ Z.of_nat (wordSize * i)) mod 2 ^ Z.of_nat wordSize)
      (seq 0 n).

(** One iteration [(i, j)] of the loops of [mustBeLessOrEqCst]. *)
Definition lessOrEqCstStep (debugInfo : logEntry) (boundBits : list Z)
  (vBits : list variable) (i j : nat) (p : list variable)
  : M (list variable) :=
  word <- index boundBits i ;;
  let b := Z.land (Z.shiftr word (Z.of_nat (wordSize - 1 - j))) 1 in
  if b =? 0 then
    pn <- index p ((i + 1) * wordSize - j) ;;
    p <- store p ((i + 1) * wordSize - 1 - j) pn ;;
    let l := getOneVariable in
    pn <- index p ((i + 1) * wordSize - j) ;;
    l <- Sub (Var l) (Var pn) ;;
    vb <- index vBits ((i + 1) * wordSize - 1 - j) ;;
    l <- Sub (Var l) (Var vb) ;;
    r <- index vBits ((i + 1) * wordSize - 1 - j) ;;
    o <- Constant (Const 0) ;;
    addAssertion (newR1C l r o None) debugInfo ;;;
    ret p
  else
    pn <- index p ((i + 1) * wordSize - j) ;;
    vb <- index vBits ((i + 1) * wordSize - 1 - j) ;;
    m <- Mul (Var pn) (Var vb) [] ;;
    store p ((i + 1) * wordSize - 1 - j) m.

(** The loop [for j := 0; j < wordSize; j++], with [n] iterations left. *)
Fixpoint lessOrEqCstWord (debugInfo : logEntry) (boundBits : list Z)
  (vBits : list variable) (i n : nat) (p : list variable)
  : M (list variable) :=
  match n with
  | O => ret p
  | S n' =>
      p <- lessOrEqCstStep debugInfo boundBits vBits i (wordSize - n) p ;;
      lessOrEqCstWord debugInfo boundBits vBits i n' p
  end.

(** The loop [for i := nbWords - 1; i >= 0; i--], entered with [n] = i + 1. *)
Fixpoint lessOrEqCstLoop (debugInfo : logEntry) (boundBits : list Z)
  (vBits : list variable) (n : nat) (p : list variable)
  : M (list variable) :=
  match n with
  | O => ret p
  | S i =>
      p <- lessOrEqCstWord debugInfo boundBits vBits i wordSize p ;;
      lessOrEqCstLoop debugInfo boundBits vBits i p
  end.

Definition mustBeLessOrEqCst (v : variable) (bound : Z) : M unit :=
  dbgInfoW <- buildLogEntryFromVariable v ;;
  let debugInfo :=
    mkLogEntry
      (withCallStack (format dbgInfoW ++ " <= " ++ bigIntString bound)%string)
      (toResolve dbgInfoW) in
  vBits <- ToBinary v nbBits ;;
  let boundBits := Bits bound in
  let l := List.length boundBits in
  let boundBits :=
    if (List.length boundBits <? nbWords)%nat
    then boundBits ++ repeat 0 (nbWords - l)
    else boundBits in
  let p := repeat zeroVariable (nbBits + 1) in
  one <- Constant (Const 1) ;;
  p <- store p nbBits one ;;
  lessOrEqCstLoop debugInfo boundBits vBits nbWords p ;;;
  ret tt.

(** [AssertIsLessOrEqual] adds assertion in constraint system (v <= bound);
    bound can be a constant or a Variable. *)
Definition AssertIsLessOrEqual (v : variable) (bound : operand) : M unit :=
  let v := completeDanglingVariable v in
  match bound with
  | Var b =>
      let b := completeDanglingVariable b in
      mustBeLessOrEqVar v b
  | Const b => mustBeLessOrEqCst v (FromInterface b)
  end.

(** The test circuit with no computational constraints: [Define] asserts
    that its two variables are equal. *)
Definition noComputationCircuit_Define (A B : variable) : M unit :=
  AssertIsEqual (Var A) (Var B).

(** *** Meaning of linear expressions and constraints *)

(** The first four slots of the coefficient table hold 0, 1, -1, 2. *)
Definition reserved (cs : ConstraintSystem) : Prop :=
  firstn 4 (coeffs cs) = [0; 1; -1; 2].

(** A term is well formed in [cs] when its coefficient ID was returned by
    the pool of [cs]. *)
Definition wfTerm (cs : ConstraintSystem) (t : Term) : Prop :=
  (CoeffID t < List.length (coeffs cs))%nat.

Definition wfLinExp (cs : ConstraintSystem) (l : LinearExpression) : Prop :=
  Forall (wfTerm cs) l.

Definition wfOperand (cs : ConstraintSystem) (i : operand) : Prop :=
  match i with
  | Var v => wfLinExp cs (linExp (completeDanglingVariable v))
  | Const _ => True
  end.

(** The coefficient a term points to, and the term read as
    (coefficient, key). *)
Definition coeffOf (cs : ConstraintSystem) (t : Term) : Z :=
  nth (CoeffID t) (coeffs cs) 0.

Definition entry (cs : ConstraintSystem) (t : Term) : Z * Key :=
  (coeffOf cs t, key t).

Definition entries (cs : ConstraintSystem) (l : LinearExpression)
  : list (Z * Key) :=
  map (entry cs) l.

(** A witness assigns a field value to every wire. *)
Definition assignment : Type := Key -> Z.

Definition evalEntries (w : assignment) (l : list (Z * Key)) : Z :=
  fold_right (fun ck s => fst ck * w (snd ck) + s) 0 l.

(** The field value of a linear expression under a witness. *)
Definition value (cs : ConstraintSystem) (w : assignment)
  (l : LinearExpression) : Z :=
  normalize (evalEntries w (entries cs l)).

(** The witness satisfies <L> * <R> = <O> in the field. *)
Definition satisfied (cs : ConstraintSystem) (w : assignment) (c : R1C)
  : Prop :=
  normalize (value cs w (R1C_L c) * value cs w (R1C_R c))
  = value cs w (R1C_O c).

(** A builder step that may only intern coefficients: the wire counts and
    the three lists are unchanged and the coefficient table is extended. *)
Record grows (cs cs' : ConstraintSystem) : Prop := mkGrows {
  grows_public : nbPublic cs' = nbPublic cs;
  grows_secret : nbSecret cs' = nbSecret cs;
  grows_internal : nbInternal cs' = nbInternal cs;
  grows_constraints : constraints cs' = constraints cs;
  grows_assertions : assertions cs' = assertions cs;
  grows_logs : logs cs' = logs cs;
  grows_coeffs : exists ext, coeffs cs' = coeffs cs ++ ext
}.

(** The variable [newInternalVariable] returns at internal index [idx]. *)
Definition internalVariable (idx : nat) : variable :=
  mkVariable (Some (mkWire Internal idx)) [Pack idx CoeffIdOne Internal] false.

(** The loop shared by [mulConstant] and [negateLinExp]: every coefficient
    is read, transformed and interned again. *)
Definition scaleTerms (f : Z -> Z) (l : LinearExpression) : M LinearExpression :=
  mapM (fun t =>
          let '(coeffID', variableID, constraintVis) := Unpack t in
          coeff <- getCoeff coeffID' ;;
          makeTerm (mkWire constraintVis variableID) (f coeff))
       l.

Definition scaleEntry (f : Z -> Z) (ck : Z * Key) : Z * Key :=
  (f (fst ck), snd ck).

(** The entries an operand stands for: a constant is a multiple of the
    one-wire. *)
Definition operandEntries (cs : ConstraintSystem) (i : operand) : list (Z * Key) :=
  match i with
  | Var v => entries cs (linExp (completeDanglingVariable v))
  | Const k => [(k, (One, 0%nat))]
  end.

(** An operand that is not of type Variable. *)
Definition isConst (i : operand) : Prop :=
  match i with Const _ => True | Var _ => False end.

(** *** Canonical form of a list of entries *)

(** Adds one entry to a list of entries: before the first greater key, or
    summed into the entry of its own key. *)
Fixpoint mergeEntry (e : Z * Key) (l : list (Z * Key)) : list (Z * Key) :=
  match l with
  | [] => [e]
  | h :: l' =>
      if keyLtb (snd e) (snd h) then e :: l
      else if keyEqb (snd e) (snd h) then (fst e + fst h, snd e) :: l'
      else h :: mergeEntry e l'
  end.

(** One entry per key, keys ascending, coefficients summed. *)
Definition canonical (l : list (Z * Key)) : list (Z * Key) :=
  fold_right mergeEntry [] l.

(** [insertTerm] read on entries. *)
Fixpoint insertEntry (e : Z * Key) (l : list (Z * Key)) : list (Z * Key) :=
  match l with
  | [] => [e]
  | h :: l' => if keyLeb (snd e) (snd h) then e :: l else h :: insertEntry e l'
  end.

Definition entryLe (a b : Z * Key) : Prop := keyLeb (snd a) (snd b) = true.

(** What [reduce] leaves of a list of entries. *)
Definition reduced (l : list (Z * Key)) : list (Z * Key) :=
  filter nonZero (map normalizeEntry (canonical l)).

(** The number of slots interning [b] adds to the coefficient table. *)
Definition interned (b : Z) : nat :=
  if b =? 0 then 0
  else if b =? 1 then 0
  else if b =? -1 then 0
  else if b =? 2 then 0
  else 1.

(** The number of slots reading an operand adds: a constant other than 1
    is interned once. *)
Definition growth (i : operand) : nat :=
  match i with
  | Var _ => 0
  | Const k => if k =? 1 then 0 else interned k
  end.

(** The coefficient table of [cs'] extends that of [cs]: what every
    builder step guarantees. *)
Definition extends (cs cs' : ConstraintSystem) : Prop :=
  exists ext, coeffs cs' = coeffs cs ++ ext.

(** The expression of the boolean assertion's second factor, 1 - v. *)
Definition oneMinus (l : list (Z * Key)) : list (Z * Key) :=
  reduced ([(1, (One, 0%nat))] ++ map (scaleEntry Z.opp) l).

(** The exponent the loop of [IsZero] reaches from counter [i] down to 1:
    bit j of [expo] contributes 2^(j-1). *)
Fixpoint exponentAbove (expo : Z) (i : nat) : Z :=
  match i with
  | O => 0
  | S i' =>
      (if Z.testbit expo (Z.of_nat i) then 2 ^ Z.of_nat i' else 0)
      + exponentAbove expo i'
  end.

(** The three expressions of a constraint are well formed. *)
Definition wfR1C (cs : ConstraintSystem) (c : R1C) : Prop :=
  wfLinExp cs (R1C_L c) /\ wfLinExp cs (R1C_R c) /\ wfLinExp cs (R1C_O c).

(** [c] is the boolean assertion of [v]: R1C(v, 1 - v, 0). *)
Definition isBooleanAssertion (cs : ConstraintSystem) (v : variable) (c : R1C)
  : Prop :=
  R1C_L c = linExp v /\
  entries cs (R1C_R c) = oneMinus (entries cs (linExp v)) /\
  entries cs (R1C_O c) = [(0, (One, 0%nat))] /\
  R1C_Solver c = SingleOutput /\
  wfR1C cs c.

(** The entries of 2^0*b_0 + ... + 2^(m-1)*b_(m-1) for the internal wires
    b_j = n0 + j, coefficients in the field. *)
Definition binarySum (n0 m : nat) : list (Z * Key) :=
  map (fun j => (normalize (2 ^ Z.of_nat j), (Internal, (n0 + j)%nat)))
      (seq 0 m).

Definition entryLt (a b : Z * Key) : Prop := keyLtb (snd a) (snd b) = true.

(** The field value an operand stands for, the one-wire being 1. *)
Definition operandValue (cs : ConstraintSystem) (w : assignment) (i : operand)
  : Z :=
  normalize (evalEntries w (operandEntries cs i)).

(** The two constraint-emitting branches of [Select] share this body. *)
Definition selectEmit (b : variable) (i1 i2 : operand) : M variable :=
  res <- newInternalVariable ;;
  v <- Sub i1 i2 ;;
  w <- Sub (Var res) i2 ;;
  appendConstraint (newR1C b v w None) ;;;
  ret res.

(** The sum and the product of the field values of a list of operands. *)
Definition sumValues (cs : ConstraintSystem) (w : assignment)
  (l : list operand) : Z :=
  fold_right (fun i s => operandValue cs w i + s) 0 l.

Definition productValues (cs : ConstraintSystem) (w : assignment)
  (l : list operand) : Z :=
  fold_right (fun i s => operandValue cs w i * s) 1 l.

(** An operand of type Variable. *)
Definition isVar (i : operand) : bool :=
  match i with Var _ => true | Const _ => false end.

(** The constraints a call Mul(i1, i2, rest...) appends: one when i1 and
    i2 are both Variables, and one per Variable of the rest. *)
Definition mulConstraints (i1 i2 : operand) (rest : list operand) : nat :=
  ((if isVar i1 && isVar i2 then 1 else 0)
   + List.length (filter isVar rest))%nat.

(** *** Builder steps and their solutions *)

(** The witness gives the one-wire the value 1 and satisfies every
    constraint of the list. *)
Definition solves (cs : ConstraintSystem) (w : assignment) (l : list R1C)
  : Prop :=
  w (One, 0%nat) = 1 /\ Forall (satisfied cs w) l.

(** A builder step from [cs] to [cs']: the coefficient table is extended,
    the constraints [cN] and the assertions [aN] are appended, and they
    are well formed. *)
Record step (cs cs' : ConstraintSystem) (cN : list R1C)
  (aN : list (R1C * nat)) : Prop := mkStep {
  step_extends : extends cs cs';
  step_constraints : constraints cs' = constraints cs ++ cN;
  step_assertions : assertions cs' = assertions cs ++ aN;
  step_wf : Forall (wfR1C cs') (cN ++ map fst aN)
}.

(** The integer a little-endian list of bit values packs to. *)
Definition binaryValue (l : list Z) : Z :=
  fold_right (fun b s => b + 2 * s) 0 l.

(** The variables that do not carry the boolean flag. *)
Definition unflagged (l : list variable) : list variable :=
  filter (fun v => negb (isBoolean v)) l.

(** *** The comparison gadget *)

(** The slice [s] after [s[i] = a]. *)
Definition update {A} (s : list A) (i : nat) (a : A) : list A :=
  firstn i s ++ a :: skipn (S i) s.

(** Bit [k] of the absolute value of the bound. *)
Definition boundBit (bound : Z) (k : nat) : bool :=
  Z.testbit (Z.abs bound) (Z.of_nat k).

Definition isBit (x : Z) : Prop := x = 0 \/ x = 1.

(** The value of bit [k] of a decomposition whose bits are the internal
    wires from [n0] on. *)
Definition bitOf (n0 : nat) (w : assignment) (k : nat) : Z :=
  normalize (w (Internal, (n0 + k)%nat)).

Definition cstBit (bound : Z) (_ : assignment) (k : nat) : Z :=
  Z.b2z (boundBit bound k).

(** What the comparison loop guarantees on the bits [lo, lo + n): when the
    running product [cur] is 1 on entry, the bits of the value are below
    the bits of the bound, or equal to them with the product [cur'] still
    1 on exit. *)
Definition compares (n0 : nat) (bv : assignment -> nat -> Z) (lo n : nat)
  (cur cur' : variable) (cs' : ConstraintSystem)
  (cN : list R1C) (aN : list (R1C * nat)) : Prop :=
  forall csF w,
    extends cs' csF -> solves csF w (cN ++ map fst aN) ->
    (forall k, (lo <= k < lo + n)%nat -> isBit (bitOf n0 w k) /\ isBit (bv w k)) ->
    value csF w (linExp cur) = 1 ->
    let V := binaryValue (map (bitOf n0 w) (seq lo n)) in
    let B := binaryValue (map (bv w) (seq lo n)) in
    V < B \/ (V = B /\ value csF w (linExp cur') = 1).

(** The words of the bound as [mustBeLessOrEqCst] reads them: padded
    with zero words up to [nbWords]. *)
Definition paddedBits (bound : Z) : list Z :=
  let boundBits := Bits bound in
  let l := List.length boundBits in
  if (List.length boundBits <? nbWords)%nat
  then boundBits ++ repeat 0 (nbWords - l)
  else boundBits.

(** The bits of the bound that are set, and those that are not, among the
    [nbBits] low bits of its absolute value. *)
Definition oneBits (bound : Z) : list nat :=
  filter (boundBit bound) (seq 0 nbBits).

Definition zeroBits (bound : Z) : list nat :=
  filter (fun k => negb (boundBit bound k)) (seq 0 nbBits).

(** [aN] holds, in order, the boolean assertion R1C(v, 1 - v, 0) of every
    variable of [vars] that does not carry the boolean flag. *)
Definition booleanAssertions (cs : ConstraintSystem) (vars : list variable)
  (aN : list (R1C * nat)) : Prop :=
  Forall2 (fun v s => isBooleanAssertion cs (completeDanglingVariable v) (fst s))
          (unflagged vars) aN.

(** *** Solving the constraints a gadget appends *)

(** The witness [w'] leaves every wire that exists with [n] internal wires
    as [w] has it: the inputs, the one-wire and the internal wires below
    [n]. *)
Definition agree (n : nat) (w w' : assignment) : Prop :=
  forall k : Key, (fst k = Internal -> (snd k < n)%nat) -> w' k = w k.

(** A linear expression whose internal wires are all below [n]. *)
Definition scoped (n : nat) (l : LinearExpression) : Prop :=
  Forall (fun t => VariableVisibility t = Internal -> (VariableID t < n)%nat) l.

Definition scopedR1C (n : nat) (c : R1C) : Prop :=
  scoped n (R1C_L c) /\ scoped n (R1C_R c) /\ scoped n (R1C_O c).

(** The witness [w] with the internal wire [n] solved to [x]. *)
Definition assign (w : assignment) (n : nat) (x : Z) : assignment :=
  fun k => if keyEqb k (Internal, n) then x else w k.

(** The multiplications of the loop of [IsZero] entered at counter [i]:
    one squaring for each of the bits i down to 1 of the exponent and one
    product more for each of them that is set. *)
Definition multiplications (expo : Z) (i : nat) : nat :=
  (i + List.length (filter (fun j => Z.testbit expo (Z.of_nat j)) (seq 1 i)))%nat.

(** *** Basic facts: the monad, the pool, well-formedness *)

Lemma bind_ok {A B} (m : M A) (k : A -> M B) cs a cs' :
  m cs = Ok (a, cs') -> bind m k cs = k a cs'.
Proof. intros E. unfold bind. now rewrite E. Qed.

Lemma bind_inv {A B} (m : M A) (k : A -> M B) cs b cs2 :
  bind m k cs = Ok (b, cs2) ->
  exists a cs1, m cs = Ok (a, cs1) /\ k a cs1 = Ok (b, cs2).
Proof.
  unfold bind. destruct (m cs) as [[a cs1]|msg]; [|discriminate].
  intros E. now exists a, cs1.
Qed.

Lemma grows_refl cs : grows cs cs.
Proof. constructor; auto. exists []. now rewrite app_nil_r. Qed.

Lemma grows_trans cs1 cs2 cs3 : grows cs1 cs2 -> grows cs2 cs3 -> grows cs1 cs3.
Proof.
  intros [a1 a2 a3 a4 a5 a6 [e1 E1]] [b1 b2 b3 b4 b5 b6 [e2 E2]].
  constructor; try congruence.
  exists (e1 ++ e2). now rewrite E2, E1, app_assoc.
Qed.

Lemma grows_reserved cs cs' : grows cs cs' -> reserved cs -> reserved cs'.
Proof.
  intros [_ _ _ _ _ _ [e E]] R. unfold reserved in *. rewrite E.
  destruct (coeffs cs) as [|c0 [|c1 [|c2 [|c3 l]]]]; try discriminate.
  exact R.
Qed.

Lemma grows_length cs cs' :
  grows cs cs' -> (List.length (coeffs cs) <= List.length (coeffs cs'))%nat.
Proof. intros [_ _ _ _ _ _ [e E]]. rewrite E, length_app. lia. Qed.

Lemma grows_wfTerm cs cs' t : grows cs cs' -> wfTerm cs t -> wfTerm cs' t.
Proof. intros G W. pose proof (grows_length _ _ G). unfold wfTerm in *. lia. Qed.

Lemma grows_wfLinExp cs cs' l :
  grows cs cs' -> wfLinExp cs l -> wfLinExp cs' l.
Proof.
  intros G W. unfold wfLinExp in *. rewrite Forall_forall in *.
  intros t Ht. eapply grows_wfTerm; eauto.
Qed.

Lemma grows_coeffOf cs cs' t :
  grows cs cs' -> wfTerm cs t -> coeffOf cs' t = coeffOf cs t.
Proof.
  intros [_ _ _ _ _ _ [e E]] W. unfold coeffOf, wfTerm in *.
  rewrite E. now apply app_nth1.
Qed.

Lemma grows_entries cs cs' l :
  grows cs cs' -> wfLinExp cs l -> entries cs' l = entries cs l.
Proof.
  intros G W. unfold entries. apply map_ext_in. intros t Ht.
  unfold entry. f_equal. apply grows_coeffOf; auto.
  unfold wfLinExp in W. rewrite Forall_forall in W. auto.
Qed.

Lemma grows_value cs cs' w l :
  grows cs cs' -> wfLinExp cs l -> value cs' w l = value cs w l.
Proof. intros G W. unfold value. now rewrite (grows_entries _ _ _ G W). Qed.

Lemma reserved_length cs : reserved cs -> (4 <= List.length (coeffs cs))%nat.
Proof.
  unfold reserved. intros R.
  destruct (coeffs cs) as [|c0 [|c1 [|c2 [|c3 l]]]]; try discriminate.
  simpl. lia.
Qed.

Lemma reserved_nth cs :
  reserved cs ->
  nth 0 (coeffs cs) 0 = 0 /\ nth 1 (coeffs cs) 0 = 1 /\
  nth 2 (coeffs cs) 0 = -1 /\ nth 3 (coeffs cs) 0 = 2.
Proof.
  unfold reserved. intros R.
  destruct (coeffs cs) as [|c0 [|c1 [|c2 [|c3 l]]]]; try discriminate.
  simpl in *. now inversion R.
Qed.

Lemma getCoeff_ok cs t :
  wfTerm cs t -> getCoeff (CoeffID t) cs = Ok (coeffOf cs t, cs).
Proof.
  unfold wfTerm, getCoeff, index, coeffOf. intros W.
  destruct (nth_error (coeffs cs) (CoeffID t)) as [c|] eqn:E.
  - now rewrite (nth_error_nth _ _ 0 E).
  - apply nth_error_None in E. lia.
Qed.

(** Interning succeeds, extends the table and returns an ID that reads
    back the value. *)
Lemma coeffID_ok cs b :
  reserved cs ->
  exists i cs', coeffID b cs = Ok (i, cs') /\ grows cs cs' /\
                (i < List.length (coeffs cs'))%nat /\ nth i (coeffs cs') 0 = b.
Proof.
  intros R. pose proof (reserved_length _ R) as L4.
  destruct (reserved_nth _ R) as (N0 & N1 & N2 & N3).
  unfold coeffID.
  destruct (Z.eqb_spec b 0) as [->|].
  { exists CoeffIdZero, cs. unfold CoeffIdZero.
    split; [reflexivity|]. split; [apply grows_refl|]. split; [lia|assumption]. }
  destruct (Z.eqb_spec b 1) as [->|].
  { exists CoeffIdOne, cs. unfold CoeffIdOne.
    split; [reflexivity|]. split; [apply grows_refl|]. split; [lia|assumption]. }
  destruct (Z.eqb_spec b (-1)) as [->|].
  { exists CoeffIdMinusOne, cs. unfold CoeffIdMinusOne.
    split; [reflexivity|]. split; [apply grows_refl|]. split; [lia|assumption]. }
  destruct (Z.eqb_spec b 2) as [->|].
  { exists CoeffIdTwo, cs. unfold CoeffIdTwo.
    split; [reflexivity|]. split; [apply grows_refl|]. split; [lia|assumption]. }
  eexists _, _. split; [reflexivity|]. split; [|split]; simpl.
  - constructor; simpl; auto. now exists [b].
  - rewrite length_app. simpl. lia.
  - rewrite app_nth2 by lia. now rewrite Nat.sub_diag.
Qed.

Lemma makeTerm_ok cs w c :
  reserved cs ->
  exists t cs', makeTerm w c cs = Ok (t, cs') /\ grows cs cs' /\
                wfTerm cs' t /\ entry cs' t = (c, (visibility w, id w)).
Proof.
  intros R. destruct (coeffID_ok cs c R) as (i & cs' & E & G & Li & Ni).
  exists (Pack (id w) i (visibility w)), cs'.
  unfold makeTerm. rewrite (bind_ok _ _ _ _ _ E).
  split; [reflexivity|]. split; [assumption|]. split; [exact Li|].
  unfold entry, coeffOf, key. simpl. now rewrite Ni.
Qed.

Lemma scaleTerms_cons f t l :
  scaleTerms f (t :: l) =
  (b <- (coeff <- getCoeff (CoeffID t) ;;
         makeTerm (mkWire (VariableVisibility t) (VariableID t)) (f coeff)) ;;
   bs <- scaleTerms f l ;; ret (b :: bs)).
Proof. reflexivity. Qed.

Lemma scaleTerms_ok f l : forall cs,
  reserved cs -> wfLinExp cs l ->
  exists l' cs', scaleTerms f l cs = Ok (l', cs') /\ grows cs cs' /\
                 wfLinExp cs' l' /\
                 entries cs' l' = map (scaleEntry f) (entries cs l).
Proof.
  induction l as [|t l IH]; intros cs R W.
  - exists [], cs. split; [reflexivity|]. split; [apply grows_refl|].
    split; [constructor|reflexivity].
  - inversion W as [|? ? Wt Wl]; subst.
    destruct (makeTerm_ok cs (mkWire (VariableVisibility t) (VariableID t))
                (f (coeffOf cs t)) R) as (t' & cs1 & E1 & G1 & W1 & En1).
    destruct (IH cs1 (grows_reserved _ _ G1 R) (grows_wfLinExp _ _ _ G1 Wl))
      as (l' & cs2 & E2 & G2 & W2 & En2).
    exists (t' :: l'), cs2.
    split.
    { rewrite scaleTerms_cons.
      erewrite bind_ok; [|erewrite bind_ok; [exact E1|now apply getCoeff_ok]].
      now rewrite (bind_ok _ _ _ _ _ E2). }
    split; [eapply grows_trans; eauto|].
    split.
    { constructor; auto. eapply grows_wfTerm; eauto. }
    simpl. f_equal.
    + unfold entry at 1. rewrite (grows_coeffOf _ _ _ G2 W1).
      unfold entry in En1. rewrite En1. reflexivity.
    + rewrite En2. f_equal. apply grows_entries; auto.
Qed.

Lemma mulConstant_unfold k v :
  mulConstant k v =
  (l <- scaleTerms (fun c => c * k) (linExp v) ;; ret (mkVariable None l false)).
Proof. reflexivity. Qed.

Lemma negateLinExp_unfold l : negateLinExp l = scaleTerms Z.opp l.
Proof. reflexivity. Qed.

Lemma mulConstant_ok k v cs :
  reserved cs -> wfLinExp cs (linExp v) ->
  exists r cs', mulConstant k v cs = Ok (r, cs') /\ grows cs cs' /\
                wfLinExp cs' (linExp r) /\
                wire r = None /\ isBoolean r = false /\
                entries cs' (linExp r)
                = map (scaleEntry (fun c => c * k)) (entries cs (linExp v)).
Proof.
  intros R W.
  destruct (scaleTerms_ok (fun c => c * k) _ cs R W) as (l & cs' & E & G & W' & En).
  exists (mkVariable None l false), cs'.
  rewrite mulConstant_unfold, (bind_ok _ _ _ _ _ E). auto 10.
Qed.

Lemma negateLinExp_ok l cs :
  reserved cs -> wfLinExp cs l ->
  exists l' cs', negateLinExp l cs = Ok (l', cs') /\ grows cs cs' /\
                 wfLinExp cs' l' /\
                 entries cs' l' = map (scaleEntry Z.opp) (entries cs l).
Proof. intros R W. rewrite negateLinExp_unfold. now apply scaleTerms_ok. Qed.

Lemma wf_getOneVariable cs : reserved cs -> wfLinExp cs (linExp getOneVariable).
Proof.
  intros R. pose proof (reserved_length _ R). repeat constructor.
  unfold wfTerm. simpl. unfold CoeffIdOne. lia.
Qed.

Lemma entries_getOneVariable cs :
  reserved cs -> entries cs (linExp getOneVariable) = [(1, (One, 0%nat))].
Proof.
  intros R. destruct (reserved_nth _ R) as (_ & N1 & _).
  unfold entries, entry, coeffOf. simpl. unfold CoeffIdOne. now rewrite N1.
Qed.

Lemma wf_internalVariable cs n : reserved cs -> wfLinExp cs (linExp (internalVariable n)).
Proof.
  intros R. pose proof (reserved_length _ R). repeat constructor.
  unfold wfTerm. simpl. unfold CoeffIdOne. lia.
Qed.

Lemma entries_internalVariable cs n :
  reserved cs -> entries cs (linExp (internalVariable n)) = [(1, (Internal, n))].
Proof.
  intros R. destruct (reserved_nth _ R) as (_ & N1 & _).
  unfold entries, entry, coeffOf. simpl. unfold CoeffIdOne. now rewrite N1.
Qed.

Lemma Constant_ok i cs :
  reserved cs -> wfOperand cs i ->
  exists r cs', Constant i cs = Ok (r, cs') /\ grows cs cs' /\
                wfLinExp cs' (linExp r) /\
                entries cs' (linExp r) = operandEntries cs i.
Proof.
  intros R W. destruct i as [v|k]; simpl in *.
  - exists (completeDanglingVariable v), cs. auto using grows_refl.
  - unfold FromInterface. destruct (Z.eqb_spec k 1) as [->|Hk].
    + exists getOneVariable, cs.
      split; [reflexivity|]. split; [apply grows_refl|].
      split; [now apply wf_getOneVariable|now apply entries_getOneVariable].
    + destruct (mulConstant_ok k getOneVariable cs R (wf_getOneVariable _ R))
        as (r & cs' & E & G & W' & _ & _ & En).
      exists r, cs'. split; [exact E|]. split; [exact G|]. split; [exact W'|].
      rewrite En, (entries_getOneVariable _ R). unfold scaleEntry. cbn [map fst snd].
      now rewrite Z.mul_1_l.
Qed.

Lemma Mul_nil i1 i2 : Mul i1 i2 [] = (res <- mul i1 i2 ;; ret res).
Proof. reflexivity. Qed.

Lemma bind_ret_r {A} (m : M A) cs : (x <- m ;; ret x) cs = m cs.
Proof. unfold bind, ret. now destruct (m cs) as [[a cs']|]. Qed.

(** Both operands of type Variable: one fresh wire, one constraint. *)
Lemma Mul_Var_Var x y cs :
  Mul (Var x) (Var y) [] cs =
  Ok (internalVariable (nbInternal cs),
      mkCS (nbPublic cs) (nbSecret cs) (S (nbInternal cs)) (coeffs cs)
           (constraints cs ++
              [mkR1C (linExp (completeDanglingVariable x))
                     (linExp (completeDanglingVariable y))
                     (linExp (internalVariable (nbInternal cs)))
                     SingleOutput])
           (assertions cs) (logs cs)).
Proof. reflexivity. Qed.

(** C1: Mul(x, y) on two Variables allocates one fresh internal wire z,
    appends exactly the constraint R1C(x, y, z) with the single-output
    hint and returns z; with exactly one constant operand it returns
    mulConstant(const, var) and leaves the constraints alone; with two
    constants it multiplies them and returns Constant(product), a
    variable whose field value is the product, again without a
    constraint. *)
Theorem Mul_spec (cs : ConstraintSystem) (x y : variable) (k k1 k2 : Z)
  (R : reserved cs)
  (Wx : wfLinExp cs (linExp (completeDanglingVariable x))) :
  (let z := internalVariable (nbInternal cs) in
   exists cs', Mul (Var x) (Var y) [] cs = Ok (z, cs') /\
     nbInternal cs' = S (nbInternal cs) /\
     coeffs cs' = coeffs cs /\ assertions cs' = assertions cs /\
     constraints cs' =
       constraints cs ++ [mkR1C (linExp (completeDanglingVariable x))
                                (linExp (completeDanglingVariable y))
                                (linExp z) SingleOutput]) /\
  (exists r cs',
     Mul (Const k) (Var x) [] cs = Ok (r, cs') /\
     Mul (Var x) (Const k) [] cs = Ok (r, cs') /\
     mulConstant k (completeDanglingVariable x) cs = Ok (r, cs') /\
     constraints cs' = constraints cs /\ nbInternal cs' = nbInternal cs) /\
  (exists r cs',
     Mul (Const k1) (Const k2) [] cs = Ok (r, cs') /\
     Constant (Const (k1 * k2)) cs = Ok (r, cs') /\
     constraints cs' = constraints cs /\ nbInternal cs' = nbInternal cs /\
     forall w : assignment, w (One, 0%nat) = 1 ->
       value cs' w (linExp r) = normalize (k1 * k2)).
Proof.
  split; [|split].
  - cbv zeta. eexists. rewrite Mul_Var_Var. split; [reflexivity|].
    simpl. auto.
  - destruct (mulConstant_ok k _ cs R Wx) as (r & cs' & E & G & _).
    exists r, cs'. rewrite !Mul_nil, !bind_ret_r. simpl.
    repeat split; try exact E; apply G.
  - destruct (Constant_ok (Const (k1 * k2)) cs R I) as (r & cs' & E & G & W & En).
    exists r, cs'. rewrite Mul_nil, bind_ret_r. simpl mul. unfold FromInterface at 1 2.
    repeat split; try exact E; try apply G.
    intros w Hw. unfold value. rewrite En. simpl. rewrite Hw.
    f_equal. lia.
Qed.

(** C9: the constant fast path of Mul is chosen by the dynamic type of
    the arguments.  Two arguments of type Variable always cost a fresh
    internal wire and one constraint, also when one of them is the
    constant-valued Constant(5) or the one-wire; a multiplication leaves
    the constraints unchanged only if an argument is not a Variable. *)
Theorem Mul_dispatch_on_type (cs : ConstraintSystem) (R : reserved cs) :
  (forall x y, exists cs',
     Mul (Var x) (Var y) [] cs = Ok (internalVariable (nbInternal cs), cs') /\
     nbInternal cs' = S (nbInternal cs) /\
     constraints cs' =
       constraints cs ++ [newR1C (completeDanglingVariable x)
                                 (completeDanglingVariable y)
                                 (internalVariable (nbInternal cs)) None]) /\
  (exists c5 cs1,
     Constant (Const 5) cs = Ok (c5, cs1) /\
     constraints cs1 = constraints cs /\
     forall v, exists cs2,
       Mul (Var c5) (Var v) [] cs1 = Ok (internalVariable (nbInternal cs1), cs2) /\
       nbInternal cs2 = S (nbInternal cs1) /\
       constraints cs2 =
         constraints cs1 ++ [newR1C (completeDanglingVariable c5)
                                    (completeDanglingVariable v)
                                    (internalVariable (nbInternal cs1)) None]) /\
  (forall a b, wfOperand cs a -> wfOperand cs b ->
     exists r cs', Mul a b [] cs = Ok (r, cs') /\
       (constraints cs' = constraints cs <-> isConst a \/ isConst b)).
Proof.
  split; [|split].
  - intros x y. eexists. rewrite Mul_Var_Var. split; [reflexivity|]. simpl. auto.
  - destruct (Constant_ok (Const 5) cs R I) as (c5 & cs1 & E & G & _).
    exists c5, cs1. split; [exact E|]. split; [apply G|].
    intros v. eexists. rewrite Mul_Var_Var. split; [reflexivity|]. simpl. auto.
  - intros [x|ka] [y|kb] Wa Wb.
    + eexists _, _. rewrite Mul_Var_Var. split; [reflexivity|]. simpl.
      split; [|intros [[]|[]]].
      intros E. apply (f_equal (@List.length R1C)) in E.
      rewrite length_app in E. simpl in E. lia.
    + destruct (mulConstant_ok kb _ cs R Wa) as (r & cs' & E & G & _).
      exists r, cs'. rewrite Mul_nil, bind_ret_r. simpl. split; [exact E|].
      split; [now right|intros _; apply G].
    + destruct (mulConstant_ok ka _ cs R Wb) as (r & cs' & E & G & _).
      exists r, cs'. rewrite Mul_nil, bind_ret_r. simpl. split; [exact E|].
      split; [now left|intros _; apply G].
    + destruct (Constant_ok (Const (ka * kb)) cs R I) as (r & cs' & E & G & _).
      exists r, cs'. rewrite Mul_nil, bind_ret_r. simpl mul. unfold FromInterface at 1 2.
      split; [exact E|]. split; [now left|intros _; apply G].
Qed.

(** The switch of IsZero, case by case. *)
Lemma isZeroModulus_supported i cs :
  ecc.supported i = true -> isZeroModulus i cs = Ok (frModulus i, cs).
Proof. destruct i; intros H; try discriminate; reflexivity. Qed.

Lemma IsZero_supported a i cs :
  ecc.supported i = true -> IsZero a i cs = isZeroExp (frModulus i) a cs.
Proof.
  intros H. unfold IsZero.
  now rewrite (bind_ok _ _ _ _ _ (isZeroModulus_supported i cs H)).
Qed.

Lemma IsZero_unsupported a i cs :
  ecc.supported i = false -> IsZero a i cs = Panic "not implemented"%string.
Proof. destruct i; intros H; try discriminate; reflexivity. Qed.

(** C10: for an identity outside the six supported ones IsZero panics
    with "not implemented"; for each supported identity the switch
    selects that curve's modulus without a panic and the body runs on
    it. *)
Theorem IsZero_switch (a : variable) (cs : ConstraintSystem) (i : ecc.ID) :
  (ecc.supported i = false -> IsZero a i cs = Panic "not implemented"%string) /\
  (ecc.supported i = true ->
     isZeroModulus i cs = Ok (frModulus i, cs) /\
     IsZero a i cs = isZeroExp (frModulus i) a cs).
Proof.
  split; [now apply IsZero_unsupported|].
  intros H. split; [now apply isZeroModulus_supported|now apply IsZero_supported].
Qed.

(** *** The order of keys and the canonical form *)

Lemma visRank_inj a b : visRank a = visRank b -> a = b.
Proof. destruct a, b; simpl; intros H; try reflexivity; discriminate. Qed.

Lemma keyLtb_true a b :
  keyLtb a b = true ->
  (visRank (fst a) < visRank (fst b) \/
   (visRank (fst a) = visRank (fst b) /\ snd a < snd b))%nat.
Proof.
  unfold keyLtb. rewrite orb_true_iff, andb_true_iff, !Nat.ltb_lt, Nat.eqb_eq. tauto.
Qed.

Lemma keyLtb_false a b :
  keyLtb a b = false ->
  (visRank (fst b) < visRank (fst a) \/
   (visRank (fst a) = visRank (fst b) /\ snd b <= snd a))%nat.
Proof.
  unfold keyLtb. rewrite orb_false_iff, andb_false_iff, !Nat.ltb_ge, Nat.eqb_neq. lia.
Qed.

Lemma keyEqb_true a b : keyEqb a b = true -> a = b.
Proof.
  unfold keyEqb. rewrite andb_true_iff, !Nat.eqb_eq. intros [H1 H2].
  destruct a, b; simpl in *. f_equal; auto using visRank_inj.
Qed.

Lemma keyEqb_false a b :
  keyEqb a b = false ->
  (visRank (fst a) <> visRank (fst b) \/ snd a <> snd b)%nat.
Proof. unfold keyEqb. rewrite andb_false_iff, !Nat.eqb_neq. tauto. Qed.

Lemma keyEqb_refl a : keyEqb a a = true.
Proof. unfold keyEqb. now rewrite !Nat.eqb_refl. Qed.

Ltac key_facts :=
  repeat match goal with
  | H : keyLtb _ _ = true |- _ => apply keyLtb_true in H
  | H : keyLtb _ _ = false |- _ => apply keyLtb_false in H
  | H : keyEqb _ _ = true |- _ => apply keyEqb_true in H; subst
  | H : keyEqb _ _ = false |- _ => apply keyEqb_false in H
  end.

Ltac key_cases :=
  repeat match goal with
  | |- context [keyLtb ?a ?b] => destruct (keyLtb a b) eqn:?
  | |- context [keyEqb ?a ?b] => destruct (keyEqb a b) eqn:?
  end.

Lemma mergeEntry_comm a b l :
  mergeEntry a (mergeEntry b l) = mergeEntry b (mergeEntry a l).
Proof.
  destruct a as [ca ka], b as [cb kb].
  induction l as [|[ch kh] l IH]; simpl.
  - key_cases; simpl in *; key_facts; try reflexivity; try lia.
    f_equal. f_equal. lia.
  - key_cases; simpl in *; key_cases; simpl in *; key_facts; try reflexivity; try lia;
      try (f_equal; f_equal; lia); try (now rewrite IH).
Qed.


Lemma canonical_perm l1 l2 : Permutation l1 l2 -> canonical l1 = canonical l2.
Proof.
  induction 1; simpl.
  - reflexivity.
  - now rewrite IHPermutation.
  - apply mergeEntry_comm.
  - congruence.
Qed.

Lemma keyLeb_false a b : keyLeb a b = false -> keyLtb b a = true.
Proof.
  unfold keyLeb. intros E. apply orb_false_iff in E. destruct E as [E1 E2].
  apply keyLtb_false in E1. apply keyEqb_false in E2.
  unfold keyLtb. rewrite orb_true_iff, andb_true_iff, !Nat.ltb_lt, Nat.eqb_eq. lia.
Qed.

Lemma insertEntry_sorted e l : Sorted entryLe l -> Sorted entryLe (insertEntry e l).
Proof.
  induction 1 as [|h l S IH Hd]; simpl.
  - repeat constructor.
  - destruct (keyLeb (snd e) (snd h)) eqn:E.
    + constructor; [now constructor|]. now constructor.
    + constructor; [exact IH|].
      assert (Hth : entryLe h e).
      { unfold entryLe, keyLeb. now rewrite (keyLeb_false _ _ E). }
      destruct l as [|h' l']; simpl.
      * now constructor.
      * inversion Hd; subst. destruct (keyLeb (snd e) (snd h')); now constructor.
Qed.

Lemma foldRuns_cons c k l :
  foldRuns ((c, k) :: l) =
  match foldRuns l with
  | (c', k') :: out =>
      if keyEqb k k' then (c + c', k) :: out else (c, k) :: (c', k') :: out
  | [] => [(c, k)]
  end.
Proof. reflexivity. Qed.

Lemma foldRuns_head e l :
  exists c out, foldRuns (e :: l) = (c, snd e) :: out.
Proof.
  destruct e as [c k]. rewrite foldRuns_cons.
  destruct (foldRuns l) as [|[c' k'] out]; [now eexists _, _|].
  destruct (keyEqb k k'); now eexists _, _.
Qed.

Lemma foldRuns_insertEntry e l :
  Sorted entryLe l -> foldRuns (insertEntry e l) = mergeEntry e (foldRuns l).
Proof.
  destruct e as [ce ke].
  induction 1 as [|[ch kh] l S IH Hd].
  - reflexivity.
  - cbn [insertEntry snd]. destruct (keyLeb ke kh) eqn:E.
    + rewrite foldRuns_cons.
      destruct (foldRuns_head (ch, kh) l) as (c & out & F). rewrite F.
      cbn [mergeEntry fst snd]. unfold keyLeb in E.
      destruct (keyLtb ke kh) eqn:E1; destruct (keyEqb ke kh) eqn:E2;
        try discriminate; try reflexivity.
      key_facts. lia.
    + apply keyLeb_false in E.
      rewrite (foldRuns_cons ch kh (insertEntry _ _)), IH, (foldRuns_cons ch kh l).
      destruct l as [|[ch' kh'] l'].
      * cbn. key_cases; key_facts; try reflexivity; lia.
      * destruct (foldRuns_head (ch', kh') l') as (c' & out & F). rewrite F.
        inversion Hd as [|? ? Hh']; subst. unfold entryLe, keyLeb in Hh'.
        cbn [snd] in *. cbn [mergeEntry fst snd].
        destruct (keyLtb kh kh') eqn:E3; destruct (keyEqb kh kh') eqn:E4; try discriminate;
        cbn [mergeEntry fst snd]; key_cases; key_facts; try reflexivity; try lia.
Qed.

Lemma entries_insertTerm cs t l :
  entries cs (insertTerm t l) = insertEntry (entry cs t) (entries cs l).
Proof.
  induction l as [|h l IH]; [reflexivity|].
  cbn [insertTerm entries map insertEntry]. unfold entry at 2 3. cbn [snd].
  destruct (keyLeb (key t) (key h)); [reflexivity|].
  cbn [map]. f_equal. exact IH.
Qed.

Lemma entries_sortTerms_sorted cs l : Sorted entryLe (entries cs (sortTerms l)).
Proof.
  induction l as [|t l IH]; [constructor|].
  cbn [sortTerms]. rewrite entries_insertTerm. now apply insertEntry_sorted.
Qed.

Lemma foldRuns_sortTerms cs l :
  foldRuns (entries cs (sortTerms l)) = canonical (entries cs l).
Proof.
  induction l as [|t l IH]; [reflexivity|].
  cbn [sortTerms]. rewrite entries_insertTerm, foldRuns_insertEntry, IH.
  - reflexivity.
  - apply entries_sortTerms_sorted.
Qed.

(** *** Reduction *)

Lemma insertTerm_wf cs t l :
  wfTerm cs t -> wfLinExp cs l -> wfLinExp cs (insertTerm t l).
Proof.
  intros Wt W. induction W as [|h l Wh Wl IH]; simpl.
  - now repeat constructor.
  - destruct (keyLeb (key t) (key h)); repeat constructor; auto.
Qed.

Lemma sortTerms_wf cs l : wfLinExp cs l -> wfLinExp cs (sortTerms l).
Proof.
  induction 1 as [|t l Wt Wl IH]; simpl; [constructor|].
  now apply insertTerm_wf.
Qed.

Lemma lookupTerms_ok cs l :
  wfLinExp cs l -> mapM lookupTerm l cs = Ok (entries cs l, cs).
Proof.
  induction 1 as [|t l Wt Wl IH]; [reflexivity|].
  cbn [mapM]. unfold lookupTerm at 1.
  erewrite bind_ok; [|erewrite bind_ok; [reflexivity|now apply getCoeff_ok]].
  now rewrite (bind_ok _ _ _ _ _ IH).
Qed.

Lemma internEntries_ok E : forall cs,
  reserved cs ->
  exists ts cs', mapM internEntry E cs = Ok (ts, cs') /\ grows cs cs' /\
                 wfLinExp cs' ts /\ entries cs' ts = E.
Proof.
  induction E as [|[c [vis n]] E IH]; intros cs R.
  - exists [], cs. split; [reflexivity|]. split; [apply grows_refl|].
    split; [constructor|reflexivity].
  - destruct (makeTerm_ok cs (mkWire vis n) c R) as (t & cs1 & E1 & G1 & W1 & En1).
    destruct (IH cs1 (grows_reserved _ _ G1 R)) as (ts & cs2 & E2 & G2 & W2 & En2).
    exists (t :: ts), cs2. split.
    { cbn [mapM]. unfold internEntry at 1. cbn [fst snd].
      now rewrite (bind_ok _ _ _ _ _ E1), (bind_ok _ _ _ _ _ E2). }
    split; [eapply grows_trans; eauto|]. split.
    { constructor; auto. eapply grows_wfTerm; eauto. }
    cbn [entries map]. f_equal; [|exact En2].
    unfold entry at 1. rewrite (grows_coeffOf _ _ _ G2 W1). exact En1.
Qed.

Lemma reduce_ok l cs :
  reserved cs -> wfLinExp cs l ->
  exists l' cs', reduce l cs = Ok (l', cs') /\
                 mapM internEntry (reduced (entries cs l)) cs = Ok (l', cs') /\
                 grows cs cs' /\ wfLinExp cs' l' /\
                 entries cs' l' = reduced (entries cs l).
Proof.
  intros R W.
  destruct (internEntries_ok (reduced (entries cs l)) cs R)
    as (l' & cs' & E & G & W' & En).
  exists l', cs'. split; [|auto].
  unfold reduce.
  rewrite (bind_ok _ _ _ _ _ (lookupTerms_ok _ _ (sortTerms_wf _ _ W))).
  rewrite foldRuns_sortTerms. exact E.
Qed.

(** *** Field values are preserved by the canonical form and by reduction *)

Lemma evalEntries_app w l1 l2 :
  evalEntries w (l1 ++ l2) = evalEntries w l1 + evalEntries w l2.
Proof. induction l1 as [|e l1 IH]; simpl; [reflexivity|]. rewrite IH. lia. Qed.

Lemma evalEntries_mergeEntry w e l :
  evalEntries w (mergeEntry e l) = fst e * w (snd e) + evalEntries w l.
Proof.
  induction l as [|h l IH]; simpl; [reflexivity|].
  destruct (keyLtb (snd e) (snd h)) eqn:E1; [reflexivity|].
  destruct (keyEqb (snd e) (snd h)) eqn:E2; simpl.
  - apply keyEqb_true in E2. rewrite E2. lia.
  - rewrite IH. lia.
Qed.

Lemma evalEntries_canonical w l : evalEntries w (canonical l) = evalEntries w l.
Proof.
  induction l as [|e l IH]; simpl; [reflexivity|].
  now rewrite evalEntries_mergeEntry, IH.
Qed.

Lemma evalEntries_normalized w l :
  normalize (evalEntries w (filter nonZero (map normalizeEntry l)))
  = normalize (evalEntries w l).
Proof.
  induction l as [|[c k] l IH]; [reflexivity|].
  assert (Hcons : forall e l', evalEntries w (e :: l')
                               = fst e * w (snd e) + evalEntries w l')
    by reflexivity.
  cbn [map filter]. unfold normalizeEntry at 1, nonZero at 1. cbn [fst snd].
  rewrite (Hcons (c, k)). cbn [fst snd].
  unfold normalize in *.
  destruct (Z.eqb_spec (c mod q) 0) as [Ez|Ez]; cbn [negb].
  - rewrite IH.
    rewrite (Zplus_mod (c * w k)), (Zmult_mod c), Ez, Z.mul_0_l, Zmod_0_l, Z.add_0_l.
    now rewrite Zmod_mod.
  - rewrite Hcons. cbn [fst snd].
    rewrite (Zplus_mod (c mod q * w k)), IH, Zmult_mod_idemp_l, <- Zplus_mod.
    reflexivity.
Qed.

Lemma evalEntries_reduced w l :
  normalize (evalEntries w (reduced l)) = normalize (evalEntries w l).
Proof. unfold reduced. now rewrite evalEntries_normalized, evalEntries_canonical. Qed.

Lemma evalEntries_scale w k l :
  evalEntries w (map (scaleEntry (fun c => c * k)) l) = k * evalEntries w l.
Proof.
  induction l as [|e l IH]; simpl; [lia|]. rewrite IH. lia.
Qed.

Lemma evalEntries_opp w l :
  evalEntries w (map (scaleEntry Z.opp) l) = - evalEntries w l.
Proof.
  induction l as [|e l IH]; simpl; [lia|]. rewrite IH. lia.
Qed.

(** *** The IDs the pool returns depend on the table's length only *)

Lemma coeffID_det b cs1 cs2 i cs1' :
  List.length (coeffs cs1) = List.length (coeffs cs2) ->
  coeffID b cs1 = Ok (i, cs1') ->
  List.length (coeffs cs1') = (List.length (coeffs cs1) + interned b)%nat /\
  exists cs2', coeffID b cs2 = Ok (i, cs2') /\
               List.length (coeffs cs1') = List.length (coeffs cs2').
Proof.
  intros L. unfold coeffID, interned.
  destruct (b =? 0); [|destruct (b =? 1); [|destruct (b =? -1); [|destruct (b =? 2)]]];
    intros E; inversion E; subst; clear E; cbn [coeffs];
    rewrite ?length_app; cbn [List.length];
    (split; [lia|]); eexists; (split; [rewrite <- ?L; reflexivity|]);
    cbn [coeffs]; rewrite ?length_app; cbn [List.length]; lia.
Qed.

Lemma internEntries_det E : forall cs1 cs2 ts cs1',
  List.length (coeffs cs1) = List.length (coeffs cs2) ->
  mapM internEntry E cs1 = Ok (ts, cs1') ->
  exists cs2', mapM internEntry E cs2 = Ok (ts, cs2') /\
               List.length (coeffs cs1') = List.length (coeffs cs2').
Proof.
  induction E as [|e E IH]; intros cs1 cs2 ts cs1' L H.
  - inversion H; subst. now exists cs2.
  - cbn [mapM] in *.
    apply bind_inv in H. destruct H as (t & csa & Ht & H).
    apply bind_inv in H. destruct H as (ts' & csb & Hts & H).
    inversion H; subst; clear H.
    unfold internEntry at 1, makeTerm in Ht.
    apply bind_inv in Ht. destruct Ht as (i & csa' & Hi & Ht).
    inversion Ht; subst; clear Ht.
    destruct (coeffID_det _ _ _ _ _ L Hi) as (_ & csa2 & Hi2 & La).
    destruct (IH _ _ _ _ La Hts) as (cs2' & Hts2 & Lb).
    exists cs2'. split; [|exact Lb].
    unfold internEntry at 1, makeTerm.
    rewrite (bind_ok _ _ _ _ _ (bind_ok _ _ _ _ _ Hi2)).
    unfold ret at 1. now rewrite (bind_ok _ _ _ _ _ Hts2).
Qed.

Lemma getCoeff_one cs : reserved cs -> getCoeff CoeffIdOne cs = Ok (1, cs).
Proof.
  intros R. unfold getCoeff, index, CoeffIdOne. unfold reserved in R.
  destruct (coeffs cs) as [|c0 [|c1 [|c2 [|c3 l]]]]; try discriminate.
  now inversion R.
Qed.

Lemma Constant_length i cs r cs' :
  reserved cs -> Constant i cs = Ok (r, cs') ->
  List.length (coeffs cs') = (List.length (coeffs cs) + growth i)%nat.
Proof.
  intros R. destruct i as [v|k]; cbn [Constant growth].
  - intros E. inversion E; subst. lia.
  - unfold FromInterface. destruct (k =? 1).
    + intros E. inversion E; subst. lia.
    + rewrite mulConstant_unfold. cbn [linExp getOneVariable].
      rewrite scaleTerms_cons. cbn [CoeffID Pack].
      intros E. apply bind_inv in E. destruct E as (l & cs1 & E & E').
      inversion E'; subst; clear E'.
      apply bind_inv in E. destruct E as (t & cs2 & E & E').
      apply bind_inv in E'. destruct E' as (ts & cs3 & E' & E'').
      inversion E'; subst; clear E'. inversion E''; subst; clear E''.
      rewrite (bind_ok _ _ _ _ _ (getCoeff_one _ R)) in E.
      unfold makeTerm in E. apply bind_inv in E. destruct E as (i & cs4 & E & E').
      inversion E'; subst; clear E'.
      rewrite Z.mul_1_l in E.
      now destruct (coeffID_det _ _ cs _ _ eq_refl E) as (L & _).
Qed.

Lemma grows_wfOperand cs cs' i : grows cs cs' -> wfOperand cs i -> wfOperand cs' i.
Proof. destruct i; simpl; [apply grows_wfLinExp|auto]. Qed.

Lemma grows_operandEntries cs cs' i :
  grows cs cs' -> wfOperand cs i -> operandEntries cs' i = operandEntries cs i.
Proof. destruct i; simpl; [apply grows_entries|auto]. Qed.

Lemma entries_app cs l1 l2 : entries cs (l1 ++ l2) = entries cs l1 ++ entries cs l2.
Proof. apply map_app. Qed.

Lemma wfLinExp_app cs l1 l2 :
  wfLinExp cs l1 -> wfLinExp cs l2 -> wfLinExp cs (l1 ++ l2).
Proof. intros. apply Forall_app. auto. Qed.

(** *** Add and Sub *)

Lemma add_ok res i cs :
  reserved cs -> wfOperand cs i -> wfLinExp cs (linExp res) ->
  exists res' cs',
    add res i cs = Ok (res', cs') /\ grows cs cs' /\
    wfLinExp cs' (linExp res') /\
    entries cs' (linExp res') = entries cs (linExp res) ++ operandEntries cs i /\
    wire res' = wire res /\ isBoolean res' = isBoolean res /\
    List.length (coeffs cs') = (List.length (coeffs cs) + growth i)%nat.
Proof.
  intros R Wi Wr. destruct i as [v|k].
  - exists (setLinExp res (linExp res ++ Clone (linExp (completeDanglingVariable v)))), cs.
    split; [reflexivity|]. split; [apply grows_refl|]. unfold Clone; cbn [linExp setLinExp wire isBoolean].
    split; [now apply wfLinExp_app|]. split; [apply entries_app|].
    cbn [growth]. auto.
  - destruct (Constant_ok (Const k) cs R I) as (c & cs' & E & G & W & En).
    exists (setLinExp res (linExp res ++ Clone (linExp c))), cs'.
    split; [cbn [add]; now rewrite (bind_ok _ _ _ _ _ E)|].
    split; [exact G|]. unfold Clone; cbn [linExp setLinExp wire isBoolean].
    split; [apply wfLinExp_app; eauto using grows_wfLinExp|].
    split; [rewrite entries_app, En, (grows_entries _ _ _ G Wr); reflexivity|].
    split; [reflexivity|]. split; [reflexivity|].
    eapply Constant_length; eauto.
Qed.

Lemma Add_ok a b cs :
  reserved cs -> wfOperand cs a -> wfOperand cs b ->
  exists r cs1 cs',
    Add a b [] cs = Ok (r, cs') /\
    List.length (coeffs cs1)
    = (List.length (coeffs cs) + growth a + growth b)%nat /\
    mapM internEntry (reduced (operandEntries cs a ++ operandEntries cs b)) cs1
    = Ok (linExp r, cs') /\
    grows cs cs' /\ wfLinExp cs' (linExp r) /\
    entries cs' (linExp r)
    = reduced (operandEntries cs a ++ operandEntries cs b) /\
    wire r = None /\ isBoolean r = false.
Proof.
  intros R Wa Wb.
  destruct (add_ok zeroVariable a cs R Wa (Forall_nil _))
    as (r1 & cs1 & E1 & G1 & W1 & En1 & Wi1 & B1 & L1).
  destruct (add_ok r1 b cs1 (grows_reserved _ _ G1 R) (grows_wfOperand _ _ _ G1 Wb) W1)
    as (r2 & cs2 & E2 & G2 & W2 & En2 & Wi2 & B2 & L2).
  destruct (reduce_ok (linExp r2) cs2 (grows_reserved _ _ G2 (grows_reserved _ _ G1 R)) W2)
    as (l & cs3 & E3 & I3 & G3 & W3 & En3).
  assert (En : entries cs2 (linExp r2) = operandEntries cs a ++ operandEntries cs b).
  { rewrite En2, En1, (grows_operandEntries _ _ _ G1 Wb). reflexivity. }
  exists (setLinExp r2 l), cs2, cs3.
  split.
  { unfold Add. rewrite (bind_ok _ _ _ _ _ E1), (bind_ok _ _ _ _ _ E2).
    cbn [foldM]. unfold ret at 1. unfold bind at 1.
    now rewrite (bind_ok _ _ _ _ _ E3). }
  split; [lia|]. cbn [setLinExp linExp wire isBoolean].
  split; [now rewrite <- En|].
  split; [eauto using grows_trans|].
  split; [exact W3|].
  split; [now rewrite En3, En|].
  split; [now rewrite Wi2, Wi1|now rewrite B2, B1].
Qed.

Lemma Sub_ok a b cs :
  reserved cs -> wfOperand cs a -> wfOperand cs b ->
  exists r cs',
    Sub a b cs = Ok (r, cs') /\ grows cs cs' /\ wfLinExp cs' (linExp r) /\
    entries cs' (linExp r)
    = reduced (operandEntries cs a
               ++ map (scaleEntry Z.opp) (operandEntries cs b)) /\
    wire r = None /\ isBoolean r = false.
Proof.
  intros R Wa Wb.
  assert (H1 : exists l1 cs1,
    match a with
    | Var t => let t := completeDanglingVariable t in
               ret (setLinExp zeroVariable (Clone (linExp t)))
    | Const t => v <- Constant (Const t) ;;
                 ret (setLinExp zeroVariable (Clone (linExp v)))
    end cs = Ok (setLinExp zeroVariable l1, cs1) /\ grows cs cs1 /\
    wfLinExp cs1 l1 /\ entries cs1 l1 = operandEntries cs a).
  { destruct a as [v|k].
    - exists (linExp (completeDanglingVariable v)), cs.
      split; [reflexivity|]. auto using grows_refl.
    - destruct (Constant_ok (Const k) cs R I) as (c & cs1 & E & G & W & En).
      exists (linExp c), cs1. rewrite (bind_ok _ _ _ _ _ E). auto. }
  destruct H1 as (l1 & cs1 & E1 & G1 & W1 & En1).
  pose proof (grows_reserved _ _ G1 R) as R1.
  assert (H2 : exists l2 cs2,
    match b with
    | Var t => let t := completeDanglingVariable t in
               negLinExp <- negateLinExp (linExp t) ;;
               ret (setLinExp (setLinExp zeroVariable l1)
                      (linExp (setLinExp zeroVariable l1) ++ negLinExp))
    | Const t => v <- Constant (Const t) ;;
                 negLinExp <- negateLinExp (linExp v) ;;
                 ret (setLinExp (setLinExp zeroVariable l1)
                        (linExp (setLinExp zeroVariable l1) ++ negLinExp))
    end cs1 = Ok (setLinExp zeroVariable (l1 ++ l2), cs2) /\ grows cs1 cs2 /\
    wfLinExp cs2 l2 /\
    entries cs2 l2 = map (scaleEntry Z.opp) (operandEntries cs b)).
  { destruct b as [v|k].
    - destruct (negateLinExp_ok _ cs1 R1 (grows_wfLinExp _ _ _ G1 Wb))
        as (l2 & cs2 & E2 & G2 & W2 & En2).
      exists l2, cs2. cbv zeta. rewrite (bind_ok _ _ _ _ _ E2).
      split; [reflexivity|]. split; [exact G2|]. split; [exact W2|].
      rewrite En2. cbn [operandEntries]. now rewrite (grows_entries _ _ _ G1 Wb).
    - destruct (Constant_ok (Const k) cs1 R1 I) as (c & csa & Ea & Ga & Wc & Enc).
      destruct (negateLinExp_ok _ csa (grows_reserved _ _ Ga R1) Wc)
        as (l2 & cs2 & E2 & G2 & W2 & En2).
      exists l2, cs2. rewrite (bind_ok _ _ _ _ _ Ea), (bind_ok _ _ _ _ _ E2).
      split; [reflexivity|]. split; [eauto using grows_trans|]. split; [exact W2|].
      now rewrite En2, Enc. }
  destruct H2 as (l2 & cs2 & E2 & G2 & W2 & En2).
  pose proof (grows_reserved _ _ G2 R1) as R2.
  assert (W12 : wfLinExp cs2 (l1 ++ l2))
    by (apply wfLinExp_app; eauto using grows_wfLinExp).
  destruct (reduce_ok (l1 ++ l2) cs2 R2 W12) as (l & cs3 & E3 & _ & G3 & W3 & En3).
  exists (setLinExp (setLinExp zeroVariable (l1 ++ l2)) l), cs3.
  split.
  { unfold Sub. rewrite (bind_ok _ _ _ _ _ E1), (bind_ok _ _ _ _ _ E2).
    cbn [linExp setLinExp]. now rewrite (bind_ok _ _ _ _ _ E3). }
  split; [eauto using grows_trans|]. cbn [setLinExp linExp wire isBoolean zeroVariable].
  split; [exact W3|]. split; [|auto].
  now rewrite En3, entries_app, En2, (grows_entries _ _ _ G2 W1), En1.
Qed.

Lemma reduced_perm l1 l2 : Permutation l1 l2 -> reduced l1 = reduced l2.
Proof. intros P. unfold reduced. now rewrite (canonical_perm _ _ P). Qed.

(** C7: Add is commutative on reduced expressions.  From the same
    constraint system, Add(a, b) and Add(b, a) return the same variable:
    the same terms, coefficient IDs included, standing for the same
    coefficient values; reducing the two results again gives the same
    expression as well. *)
Theorem Add_comm (cs : ConstraintSystem) (a b : operand)
  (R : reserved cs) (Wa : wfOperand cs a) (Wb : wfOperand cs b) :
  exists r cs1 cs2,
    Add a b [] cs = Ok (r, cs1) /\ Add b a [] cs = Ok (r, cs2) /\
    entries cs1 (linExp r) = entries cs2 (linExp r) /\
    exists l cs1' cs2',
      reduce (linExp r) cs1 = Ok (l, cs1') /\
      reduce (linExp r) cs2 = Ok (l, cs2').
Proof.
  destruct (Add_ok a b cs R Wa Wb)
    as (r1 & m1 & cs1 & E1 & L1 & I1 & G1 & W1 & En1 & Wi1 & B1).
  destruct (Add_ok b a cs R Wb Wa)
    as (r2 & m2 & cs2 & E2 & L2 & I2 & G2 & W2 & En2 & Wi2 & B2).
  rewrite (reduced_perm _ _ (Permutation_app_comm (operandEntries cs b)
                                                  (operandEntries cs a))) in I2, En2.
  assert (L : List.length (coeffs m1) = List.length (coeffs m2)) by lia.
  destruct (internEntries_det _ _ _ _ _ L I1) as (cs2' & I2' & L').
  rewrite I2 in I2'. inversion I2' as [[El Ecs]]. subst cs2'.
  assert (Er : r2 = r1).
  { destruct r1, r2; cbn [linExp wire isBoolean] in *. congruence. }
  subst r2.
  exists r1, cs1, cs2. split; [exact E1|]. split; [exact E2|].
  split; [congruence|].
  destruct (reduce_ok (linExp r1) cs1 (grows_reserved _ _ G1 R) W1)
    as (l & cs1' & Er1 & Ir1 & _).
  rewrite En1, <- En2 in Ir1.
  destruct (internEntries_det _ _ _ _ _ L' Ir1) as (cs2' & Ir2 & _).
  destruct (reduce_ok (linExp r1) cs2 (grows_reserved _ _ G2 R) W2)
    as (l' & cs2'' & Er2 & Ir2' & _).
  rewrite Ir2 in Ir2'. inversion Ir2'; subst.
  now exists l', cs1', cs2''.
Qed.

(** *** Steps that extend the coefficient table *)

Lemma grows_extends cs cs' : grows cs cs' -> extends cs cs'.
Proof. intros G. apply G. Qed.

Lemma extends_refl cs : extends cs cs.
Proof. exists []. now rewrite app_nil_r. Qed.

Lemma extends_trans cs1 cs2 cs3 :
  extends cs1 cs2 -> extends cs2 cs3 -> extends cs1 cs3.
Proof.
  intros [e1 E1] [e2 E2]. exists (e1 ++ e2). now rewrite E2, E1, app_assoc.
Qed.

Lemma extends_reserved cs cs' : extends cs cs' -> reserved cs -> reserved cs'.
Proof.
  intros [e E] R. unfold reserved in *. rewrite E.
  destruct (coeffs cs) as [|c0 [|c1 [|c2 [|c3 l]]]]; try discriminate.
  exact R.
Qed.

Lemma extends_wfLinExp cs cs' l :
  extends cs cs' -> wfLinExp cs l -> wfLinExp cs' l.
Proof.
  intros [e E] W. unfold wfLinExp in *. rewrite Forall_forall in *.
  intros t Ht. specialize (W t Ht). unfold wfTerm in *.
  rewrite E, length_app. lia.
Qed.

Lemma extends_entries cs cs' l :
  extends cs cs' -> wfLinExp cs l -> entries cs' l = entries cs l.
Proof.
  intros [e E] W. unfold entries. apply map_ext_in. intros t Ht.
  unfold wfLinExp in W. rewrite Forall_forall in W. specialize (W t Ht).
  unfold entry, coeffOf, wfTerm in *. f_equal. rewrite E. now apply app_nth1.
Qed.

Lemma extends_value cs cs' w l :
  extends cs cs' -> wfLinExp cs l -> value cs' w l = value cs w l.
Proof. intros G W. unfold value. now rewrite (extends_entries _ _ _ G W). Qed.

Lemma extends_satisfied cs cs' w c :
  extends cs cs' ->
  wfLinExp cs (R1C_L c) -> wfLinExp cs (R1C_R c) -> wfLinExp cs (R1C_O c) ->
  (satisfied cs' w c <-> satisfied cs w c).
Proof.
  intros G WL WR WO. unfold satisfied.
  now rewrite !(extends_value _ _ _ _ G) by assumption.
Qed.

(** *** Dangling-variable completion *)

Lemma complete_idem v :
  completeDanglingVariable (completeDanglingVariable v)
  = completeDanglingVariable v.
Proof.
  destruct v as [[w|] [|t l] b]; reflexivity.
Qed.

Lemma complete_no_wire v :
  wire v = None -> completeDanglingVariable v = v.
Proof. destruct v as [[w|] [|t l] b]; intros H; try reflexivity; discriminate. Qed.

Lemma complete_isBoolean v :
  isBoolean (completeDanglingVariable v) = isBoolean v.
Proof. destruct v as [[w|] [|t l] b]; reflexivity. Qed.

Lemma complete_internalVariable n :
  completeDanglingVariable (internalVariable n) = internalVariable n.
Proof. reflexivity. Qed.

(** *** The boolean assertion *)

Lemma assertIsBooleanBody_flagged v cs :
  isBoolean v = true ->
  assertIsBooleanBody v cs = Ok (completeDanglingVariable v, cs).
Proof.
  intros B. unfold assertIsBooleanBody. now rewrite complete_isBoolean, B.
Qed.

Lemma assertIsBooleanBody_ok v cs :
  reserved cs -> wfLinExp cs (linExp (completeDanglingVariable v)) ->
  isBoolean v = false ->
  exists cs' c,
    assertIsBooleanBody v cs
    = Ok (setIsBoolean (completeDanglingVariable v) true, cs') /\
    extends cs cs' /\
    nbPublic cs' = nbPublic cs /\ nbSecret cs' = nbSecret cs /\
    nbInternal cs' = nbInternal cs /\
    constraints cs' = constraints cs /\
    assertions cs' = assertions cs ++ [(c, List.length (logs cs))] /\
    logs cs' = logs cs ++ [mkLogEntry (withCallStack "error AssertIsBoolean") []] /\
    R1C_L c = linExp (completeDanglingVariable v) /\
    R1C_Solver c = SingleOutput /\
    wfLinExp cs' (R1C_R c) /\ wfLinExp cs' (R1C_O c) /\
    entries cs' (R1C_R c)
    = oneMinus (entries cs (linExp (completeDanglingVariable v))) /\
    entries cs' (R1C_O c) = [(0, (One, 0%nat))].
Proof.
  intros R W B.
  assert (Wv : wfOperand cs (Var (completeDanglingVariable v)))
    by (cbn [wfOperand]; now rewrite complete_idem).
  destruct (Sub_ok (Const 1) (Var (completeDanglingVariable v)) cs R I Wv)
    as (_v & cs1 & E1 & G1 & W1 & En1 & _).
  destruct (Constant_ok (Const 0) cs1 (grows_reserved _ _ G1 R) I)
    as (o & cs2 & E2 & G2 & W2 & En2).
  eexists _, (newR1C (setIsBoolean (completeDanglingVariable v) true) _v o None).
  split.
  { unfold assertIsBooleanBody. rewrite complete_isBoolean, B.
    rewrite (bind_ok _ _ _ _ _ E1), (bind_ok _ _ _ _ _ E2). reflexivity. }
  cbn [coeffs nbPublic nbSecret nbInternal constraints assertions logs].
  pose proof (grows_trans _ _ _ G1 G2) as G.
  split; [exact (grows_extends _ _ G)|].
  split; [apply G|]. split; [apply G|]. split; [apply G|]. split; [apply G|].
  split; [now rewrite (grows_assertions _ _ G), (grows_logs _ _ G)|].
  split; [now rewrite (grows_logs _ _ G)|].
  unfold newR1C, Clone. cbn [R1C_L R1C_R R1C_O R1C_Solver setIsBoolean linExp].
  split; [reflexivity|]. split; [reflexivity|].
  assert (X : extends cs2 (mkCS (nbPublic cs2) (nbSecret cs2) (nbInternal cs2)
                 (coeffs cs2) (constraints cs2)
                 (assertions cs2 ++ [(mkR1C (linExp (completeDanglingVariable v))
                                            (linExp _v) (linExp o) SingleOutput,
                                      List.length (logs cs2))])
                 (logs cs2 ++ [mkLogEntry (withCallStack "error AssertIsBoolean") []])))
    by (exists []; cbn [coeffs]; now rewrite app_nil_r).
  split; [eapply extends_wfLinExp; [exact X|]; exact (grows_wfLinExp _ _ _ G2 W1)|].
  split; [eapply extends_wfLinExp; [exact X|]; exact W2|].
  split.
  - rewrite (extends_entries _ _ _ X) by exact (grows_wfLinExp _ _ _ G2 W1).
    rewrite (grows_entries _ _ _ G2 W1), En1. cbn [operandEntries].
    now rewrite complete_idem.
  - rewrite (extends_entries _ _ _ X) by exact W2. exact En2.
Qed.

Lemma AssertIsBoolean_of_body v cs v' cs' :
  assertIsBooleanBody v cs = Ok (v', cs') -> AssertIsBoolean v cs = Ok (tt, cs').
Proof. intros E. unfold AssertIsBoolean. now rewrite (bind_ok _ _ _ _ _ E). Qed.

(** Whatever the flag, the assertion step succeeds and leaves wires and
    constraints alone. *)
Lemma AssertIsBoolean_total v cs :
  reserved cs -> wfLinExp cs (linExp (completeDanglingVariable v)) ->
  exists cs', AssertIsBoolean v cs = Ok (tt, cs') /\ extends cs cs' /\
              nbInternal cs' = nbInternal cs /\
              constraints cs' = constraints cs.
Proof.
  intros R W. destruct (isBoolean v) eqn:B.
  - exists cs. split; [|auto using extends_refl].
    eapply AssertIsBoolean_of_body. now apply assertIsBooleanBody_flagged.
  - destruct (assertIsBooleanBody_ok v cs R W B)
      as (cs' & c & E & X & _ & _ & N & C & _).
    exists cs'. split; [|auto]. eapply AssertIsBoolean_of_body. exact E.
Qed.

(** C6: AssertIsBoolean skips a variable that is flagged boolean.  On an
    unflagged variable it appends exactly one assertion R1C(v, 1 - v, 0);
    the flag is set on the callee's copy of the variable only, so the
    caller's handle stays unflagged and a second call on the same handle
    is not skipped: it appends the same assertion once more. *)
Theorem AssertIsBoolean_flag_on_copy (cs : ConstraintSystem) (v : variable)
  (R : reserved cs)
  (W : wfLinExp cs (linExp (completeDanglingVariable v)))
  (B : isBoolean v = false) :
  (forall v', isBoolean v' = true -> AssertIsBoolean v' cs = Ok (tt, cs)) /\
  exists cs1 c1,
    assertIsBooleanBody v cs
    = Ok (setIsBoolean (completeDanglingVariable v) true, cs1) /\
    AssertIsBoolean v cs = Ok (tt, cs1) /\
    constraints cs1 = constraints cs /\
    assertions cs1 = assertions cs ++ [(c1, List.length (logs cs))] /\
    R1C_L c1 = linExp (completeDanglingVariable v) /\
    entries cs1 (R1C_R c1)
    = oneMinus (entries cs (linExp (completeDanglingVariable v))) /\
    entries cs1 (R1C_O c1) = [(0, (One, 0%nat))] /\
    exists cs2 c2,
      AssertIsBoolean v cs1 = Ok (tt, cs2) /\
      assertions cs2
      = assertions cs ++ [(c1, List.length (logs cs));
                          (c2, S (List.length (logs cs)))] /\
      R1C_L c2 = R1C_L c1 /\
      entries cs2 (R1C_R c2) = entries cs1 (R1C_R c1) /\
      entries cs2 (R1C_O c2) = entries cs1 (R1C_O c1).
Proof.
  split.
  { intros v' B'. eapply AssertIsBoolean_of_body.
    now apply assertIsBooleanBody_flagged. }
  destruct (assertIsBooleanBody_ok v cs R W B)
    as (cs1 & c1 & E1 & X1 & _ & _ & _ & C1 & A1 & Lg1 & L1 & _ & _ & _ & R1 & O1).
  exists cs1, c1. split; [exact E1|].
  split; [exact (AssertIsBoolean_of_body _ _ _ _ E1)|].
  split; [exact C1|]. split; [exact A1|]. split; [exact L1|].
  split; [exact R1|]. split; [exact O1|].
  destruct (assertIsBooleanBody_ok v cs1 (extends_reserved _ _ X1 R)
              (extends_wfLinExp _ _ _ X1 W) B)
    as (cs2 & c2 & E2 & X2 & _ & _ & _ & _ & A2 & _ & L2 & _ & _ & _ & R2 & O2).
  exists cs2, c2. split; [exact (AssertIsBoolean_of_body _ _ _ _ E2)|].
  split.
  { rewrite A2, A1, Lg1, length_app, <- app_assoc. cbn [List.length app].
    now rewrite Nat.add_1_r. }
  split; [congruence|]. split; [|congruence].
  now rewrite R2, R1, (extends_entries _ _ _ X1 W).
Qed.

(** C4: ToBinary(a, 0) does not return: after allocating no bit it reads
    res[0] of the empty slice, which panics, before any constraint is
    appended. *)
Theorem ToBinary_zero_bits (a : variable) (cs : ConstraintSystem) :
  ToBinary a 0 cs = Panic "index out of range"%string.
Proof. reflexivity. Qed.

Lemma normalize_affine d e k :
  normalize (d * normalize e + k) = normalize (d * e + k).
Proof.
  unfold normalize.
  now rewrite Zplus_mod, Zmult_mod_idemp_r, <- Zplus_mod.
Qed.

(** C2: with two constant branches Select emits no constraint and returns
    a purely computed expression, whose field value is
    b * (i2 - i1) + i2: the difference is taken the wrong way round, so
    the result is i2 when b is 0 but 2*i2 - i1 (not i1) when b is 1. *)
Theorem Select_constants (cs : ConstraintSystem) (b : variable) (i1 i2 : Z)
  (w : assignment)
  (R : reserved cs)
  (W : wfLinExp cs (linExp (completeDanglingVariable b)))
  (Hone : w (One, 0%nat) = 1) :
  exists r cs',
    Select b (Const i1) (Const i2) cs = Ok (r, cs') /\
    constraints cs' = constraints cs /\
    nbInternal cs' = nbInternal cs /\
    value cs' w (linExp r)
    = normalize (value cs w (linExp (completeDanglingVariable b)) * (i2 - i1)
                 + i2).
Proof.
  set (b' := completeDanglingVariable b) in *.
  assert (Wb' : wfLinExp cs (linExp (completeDanglingVariable b')))
    by (unfold b'; now rewrite complete_idem).
  destruct (AssertIsBoolean_total b' cs R Wb') as (cs1 & E1 & X1 & N1 & C1).
  pose proof (extends_reserved _ _ X1 R) as R1.
  destruct (mulConstant_ok (i2 - i1) (completeDanglingVariable b') cs1 R1
              (extends_wfLinExp _ _ _ X1 Wb'))
    as (r1 & cs2 & E2 & G2 & W2 & Wi2 & _ & En2).
  pose proof (grows_reserved _ _ G2 R1) as R2.
  assert (Wr1 : wfOperand cs2 (Var r1))
    by (cbn [wfOperand]; now rewrite (complete_no_wire _ Wi2)).
  destruct (Add_ok (Var r1) (Const i2) cs2 R2 Wr1 I)
    as (r & _ & cs3 & E3 & _ & _ & G3 & W3 & En3 & _).
  exists r, cs3. split.
  { unfold Select. fold b'. rewrite (bind_ok _ _ _ _ _ E1).
    unfold FromInterface. rewrite Mul_nil.
    erewrite bind_ok; [|rewrite bind_ret_r; exact E2].
    now rewrite bind_ret_r. }
  split; [now rewrite (grows_constraints _ _ G3), (grows_constraints _ _ G2)|].
  split; [now rewrite (grows_internal _ _ G3), (grows_internal _ _ G2)|].
  unfold value. rewrite En3, evalEntries_reduced.
  cbn [operandEntries]. rewrite (complete_no_wire _ Wi2), En2.
  rewrite evalEntries_app, evalEntries_scale.
  unfold b'. rewrite complete_idem. fold b'.
  rewrite (extends_entries _ _ _ X1 W).
  cbn [evalEntries fold_right fst snd]. rewrite Hone.
  rewrite <- (normalize_affine (i2 - i1) (evalEntries w (entries cs (linExp b')))).
  f_equal. unfold normalize. lia.
Qed.

(** *** IsZero: square and multiply *)

Lemma same_coeffs_extends cs cs' : coeffs cs' = coeffs cs -> extends cs cs'.
Proof. intros E. exists []. now rewrite app_nil_r. Qed.

Lemma same_coeffs_entries cs cs' l :
  coeffs cs' = coeffs cs -> entries cs' l = entries cs l.
Proof. intros E. unfold entries, entry, coeffOf. now rewrite E. Qed.

Lemma same_coeffs_value cs cs' w l :
  coeffs cs' = coeffs cs -> value cs' w l = value cs w l.
Proof.
  intros E. unfold value, entries, entry, coeffOf. now rewrite E.
Qed.

Lemma same_coeffs_wfLinExp cs cs' l :
  coeffs cs' = coeffs cs -> wfLinExp cs l -> wfLinExp cs' l.
Proof. intros E. apply extends_wfLinExp. now apply same_coeffs_extends. Qed.

Lemma same_coeffs_wfR1C cs cs' c :
  coeffs cs' = coeffs cs -> wfR1C cs c -> wfR1C cs' c.
Proof.
  intros E (H1 & H2 & H3). repeat split; now apply (same_coeffs_wfLinExp cs).
Qed.

Lemma same_coeffs_satisfied cs cs' w c :
  coeffs cs' = coeffs cs -> satisfied cs w c -> satisfied cs' w c.
Proof.
  intros E. unfold satisfied. now rewrite !(same_coeffs_value _ _ _ _ E).
Qed.

Lemma same_coeffs_reserved cs cs' :
  coeffs cs' = coeffs cs -> reserved cs -> reserved cs'.
Proof. intros E. unfold reserved. now rewrite E. Qed.

Lemma normalize_idem x : normalize (normalize x) = normalize x.
Proof. unfold normalize. apply Zmod_mod. Qed.

Lemma value_normalized cs w l : normalize (value cs w l) = value cs w l.
Proof. unfold value. apply normalize_idem. Qed.

(** The constraint-emitting multiplication, read on field values. *)
Lemma Mul_vars_value x y cs :
  reserved cs ->
  wfLinExp cs (linExp (completeDanglingVariable x)) ->
  wfLinExp cs (linExp (completeDanglingVariable y)) ->
  exists cs' c,
    Mul (Var x) (Var y) [] cs = Ok (internalVariable (nbInternal cs), cs') /\
    coeffs cs' = coeffs cs /\
    constraints cs' = constraints cs ++ [c] /\
    wfR1C cs c /\
    forall w, satisfied cs w c ->
      value cs w (linExp (internalVariable (nbInternal cs)))
      = normalize (value cs w (linExp (completeDanglingVariable x))
                   * value cs w (linExp (completeDanglingVariable y))).
Proof.
  intros R Wx Wy. eexists _, _. rewrite Mul_Var_Var.
  split; [reflexivity|]. cbn [coeffs constraints].
  split; [reflexivity|]. split; [reflexivity|].
  split.
  - unfold wfR1C. cbn [R1C_L R1C_R R1C_O].
    auto using wf_internalVariable.
  - intros w S. unfold satisfied in S. cbn [R1C_L R1C_R R1C_O] in S.
    now rewrite <- S.
Qed.

Lemma exponentAbove_nonneg expo i : 0 <= exponentAbove expo i.
Proof.
  induction i as [|i IH]; cbn [exponentAbove]; [lia|].
  destruct (Z.testbit expo (Z.of_nat (S i))); [|lia].
  pose proof (Z.pow_nonneg 2 (Z.of_nat i)). lia.
Qed.

(** Squaring and multiplying on residues. *)
Lemma square_multiply_step r x e n k :
  0 <= n -> 0 <= e -> 0 <= k ->
  normalize (normalize (normalize (r * r) * x ^ k) ^ (2 ^ n) * x ^ e)
  = normalize (r ^ (2 ^ (n + 1)) * x ^ (k * 2 ^ n + e)).
Proof.
  intros Hn He Hk. unfold normalize.
  assert (Hp : 0 <= 2 ^ n) by (apply Z.pow_nonneg; lia).
  assert (E1 : (((r * r) mod q * x ^ k) mod q) ^ (2 ^ n) mod q
               = ((r * r * x ^ k) ^ (2 ^ n)) mod q).
  { rewrite Z.mod_pow_l, <- Z.mod_pow_l, Zmult_mod_idemp_l. apply Z.mod_pow_l. }
  rewrite Zmult_mod, E1, <- Zmult_mod. f_equal.
  assert (Hk2 : 0 <= k * 2 ^ n) by nia.
  rewrite Z.pow_mul_l, (Z.pow_add_r x) by assumption.
  replace (r * r) with (r ^ 2) by ring.
  rewrite <- !Z.pow_mul_r by lia.
  replace (2 ^ (n + 1)) with (2 * 2 ^ n) by (rewrite Z.pow_add_r by lia; ring).
  ring.
Qed.

Lemma isZeroLoop_S expo a i res :
  isZeroLoop expo a (S i) res =
  (res1 <- Mul (Var res) (Var res) [] ;;
   res2 <- (if Z.testbit expo (Z.of_nat (S i))
            then Mul (Var res1) (Var a) [] else ret res1) ;;
   isZeroLoop expo a i res2).
Proof. reflexivity. Qed.

Lemma exponentAbove_S expo i :
  exponentAbove expo (S i) =
  (if Z.testbit expo (Z.of_nat (S i)) then 2 ^ Z.of_nat i else 0)
  + exponentAbove expo i.
Proof. reflexivity. Qed.

Lemma isZeroLoop_ok expo a : forall i res cs,
  reserved cs ->
  wfLinExp cs (linExp (completeDanglingVariable a)) ->
  wfLinExp cs (linExp (completeDanglingVariable res)) ->
  exists res' cs' new,
    isZeroLoop expo a i res cs = Ok (res', cs') /\
    coeffs cs' = coeffs cs /\
    constraints cs' = constraints cs ++ new /\
    Forall (wfR1C cs) new /\
    wfLinExp cs (linExp (completeDanglingVariable res')) /\
    forall w, Forall (satisfied cs w) new ->
      value cs w (linExp (completeDanglingVariable res'))
      = normalize
          (value cs w (linExp (completeDanglingVariable res)) ^ (2 ^ Z.of_nat i)
           * value cs w (linExp (completeDanglingVariable a))
             ^ exponentAbove expo i).
Proof.
  induction i as [|i IH]; intros res cs R Wa Wres.
  - exists res, cs, []. split; [reflexivity|]. split; [reflexivity|].
    split; [now rewrite app_nil_r|]. split; [constructor|]. split; [exact Wres|].
    intros w _. cbn [exponentAbove Z.of_nat].
    rewrite Z.pow_0_r, Z.pow_1_r, Z.pow_0_r, Z.mul_1_r.
    symmetry. apply value_normalized.
  - destruct (Mul_vars_value res res cs R Wres Wres)
      as (cs1 & c1 & E1 & C1 & K1 & Wc1 & V1).
    pose proof (same_coeffs_reserved _ _ C1 R) as R1.
    pose proof (same_coeffs_wfLinExp _ _ _ C1 Wa) as Wa1.
    set (z1 := internalVariable (nbInternal cs)) in *.
    assert (Hpow : 2 ^ Z.of_nat (S i) = 2 ^ (Z.of_nat i + 1))
      by (f_equal; lia).
    destruct (Z.testbit expo (Z.of_nat (S i))) eqn:Hbit.
    + assert (Wz1 : wfLinExp cs1 (linExp (completeDanglingVariable z1)))
        by (apply wf_internalVariable; exact R1).
      destruct (Mul_vars_value z1 a cs1 R1 Wz1 Wa1)
        as (cs2 & c2 & E2 & C2 & K2 & Wc2 & V2).
      set (z2 := internalVariable (nbInternal cs1)) in *.
      assert (C02 : coeffs cs2 = coeffs cs) by congruence.
      pose proof (same_coeffs_reserved _ _ C02 R) as R2.
      destruct (IH z2 cs2 R2 (same_coeffs_wfLinExp _ _ _ C02 Wa)
                  (wf_internalVariable _ _ R2))
        as (res' & cs' & new & E & C & K & Wn & Wr & V).
      exists res', cs', (c1 :: c2 :: new).
      split.
      { rewrite isZeroLoop_S, (bind_ok _ _ _ _ _ E1), Hbit,
          (bind_ok _ _ _ _ _ E2). exact E. }
      split; [congruence|].
      split; [rewrite K, K2, K1, <- !app_assoc; reflexivity|].
      assert (C20 : coeffs cs = coeffs cs2) by congruence.
      assert (C10 : coeffs cs = coeffs cs1) by congruence.
      split.
      { constructor; [exact Wc1|]. constructor.
        - exact (same_coeffs_wfR1C _ _ _ C10 Wc2).
        - eapply Forall_impl; [|exact Wn]. intros c. apply same_coeffs_wfR1C. exact C20. }
      split; [exact (same_coeffs_wfLinExp _ _ _ C20 Wr)|].
      intros w S. inversion S as [|? ? S1 S']; subst.
      inversion S' as [|? ? S2 Sn]; subst.
      rewrite <- (same_coeffs_value _ _ w _ C02), V
        by (eapply Forall_impl; [|exact Sn]; intros c; now apply same_coeffs_satisfied).
      rewrite (same_coeffs_value _ _ w (linExp (completeDanglingVariable z2)) C02).
      rewrite (same_coeffs_value _ _ w (linExp (completeDanglingVariable a)) C02).
      change (completeDanglingVariable z2) with z2.
      rewrite <- (same_coeffs_value _ _ w (linExp z2) C1),
        (V2 w (same_coeffs_satisfied _ _ _ _ C1 S2)).
      rewrite !(same_coeffs_value _ _ w _ C1).
      change (completeDanglingVariable z1) with z1.
      rewrite (V1 w S1), exponentAbove_S, Hbit, Hpow.
      rewrite <- (Z.pow_1_r (value cs w (linExp (completeDanglingVariable a)))) at 1.
      rewrite square_multiply_step
        by (try lia; apply exponentAbove_nonneg).
      now rewrite Z.mul_1_l.
    + destruct (IH z1 cs1 R1 Wa1 (wf_internalVariable _ _ R1))
        as (res' & cs' & new & E & C & K & Wn & Wr & V).
      assert (C10 : coeffs cs = coeffs cs1) by congruence.
      exists res', cs', (c1 :: new).
      split.
      { rewrite isZeroLoop_S, (bind_ok _ _ _ _ _ E1), Hbit.
        unfold ret at 1. unfold bind at 1. exact E. }
      split; [congruence|].
      split; [rewrite K, K1, <- !app_assoc; reflexivity|].
      split.
      { constructor; [exact Wc1|].
        eapply Forall_impl; [|exact Wn]. intros c. apply same_coeffs_wfR1C. exact C10. }
      split; [exact (same_coeffs_wfLinExp _ _ _ C10 Wr)|].
      intros w S. inversion S as [|? ? S1 Sn]; subst.
      rewrite <- (same_coeffs_value _ _ w _ C1), V
        by (eapply Forall_impl; [|exact Sn]; intros c; now apply same_coeffs_satisfied).
      rewrite !(same_coeffs_value _ _ w _ C1).
      change (completeDanglingVariable z1) with z1.
      rewrite (V1 w S1), exponentAbove_S, Hbit, Hpow.
      set (r := value cs w (linExp (completeDanglingVariable res))).
      set (x := value cs w (linExp (completeDanglingVariable a))).
      assert (H0 : normalize (r * r) = normalize (normalize (r * r) * x ^ 0))
        by (now rewrite Z.pow_0_r, Z.mul_1_r, normalize_idem).
      rewrite H0, square_multiply_step
        by (try lia; apply exponentAbove_nonneg).
      now rewrite Z.mul_0_l.
Qed.

Lemma exponentAbove_mod expo i :
  0 <= expo ->
  2 * exponentAbove expo i + expo mod 2 = expo mod 2 ^ (Z.of_nat i + 1).
Proof.
  intros Hexpo. induction i as [|i IH].
  - cbn [exponentAbove Z.of_nat]. now rewrite Z.pow_1_r.
  - rewrite exponentAbove_S.
    replace (Z.of_nat (S i)) with (Z.of_nat i + 1) by lia.
    assert (Hp : 0 < 2 ^ (Z.of_nat i + 1)) by (apply Z.pow_pos_nonneg; lia).
    replace (2 ^ (Z.of_nat i + 1 + 1)) with (2 ^ (Z.of_nat i + 1) * 2)
      by (rewrite (Z.pow_add_r 2 (Z.of_nat i + 1) 1) by lia; reflexivity).
    rewrite Z.rem_mul_r by lia.
    rewrite <- Z.testbit_spec' by lia. rewrite <- IH.
    destruct (Z.testbit expo (Z.of_nat i + 1)); cbn [Z.b2z];
      rewrite ?Z.pow_add_r by lia; lia.
Qed.

Lemma bytesLen_bits expo :
  0 < expo -> expo < 2 ^ Z.of_nat (bytesLen expo * 8).
Proof.
  intros H. unfold bytesLen.
  destruct (Z.eqb_spec expo 0) as [|_]; [lia|].
  rewrite Z.abs_eq by lia.
  destruct (Z.log2_spec expo H) as [_ Hlt].
  eapply Z.lt_le_trans; [exact Hlt|].
  apply Z.pow_le_mono_r; [lia|].
  pose proof (Z.log2_nonneg expo).
  pose proof (Nat.div_mod_eq (Z.to_nat (Z.log2 expo)) 8).
  pose proof (Nat.mod_upper_bound (Z.to_nat (Z.log2 expo)) 8).
  lia.
Qed.

(** For an odd exponent the loop and the final squaring reach exactly
    [expo - 1]. *)
Lemma exponent_reached expo :
  0 < expo -> Z.odd expo = true ->
  2 * exponentAbove expo (bytesLen expo * 8 - 1) = expo - 1.
Proof.
  intros H Hodd.
  pose proof (bytesLen_bits expo H) as Hlt.
  pose proof (exponentAbove_mod expo (bytesLen expo * 8 - 1) ltac:(lia)) as E.
  assert (Hn : (0 < bytesLen expo * 8)%nat).
  { unfold bytesLen. destruct (Z.eqb_spec expo 0); lia. }
  replace (Z.of_nat (bytesLen expo * 8 - 1) + 1)
    with (Z.of_nat (bytesLen expo * 8)) in E by lia.
  rewrite (Z.mod_small expo (2 ^ _)) in E by lia.
  rewrite Zmod_odd, Hodd in E. lia.
Qed.

Lemma value_getOneVariable cs w :
  reserved cs -> w (One, 0%nat) = 1 ->
  value cs w (linExp getOneVariable) = normalize 1.
Proof.
  intros R H. unfold value. rewrite (entries_getOneVariable _ R).
  cbn [evalEntries fold_right fst snd]. rewrite H. f_equal.
Qed.

Lemma Sub_one_value z cs :
  reserved cs -> wfLinExp cs (linExp (completeDanglingVariable z)) ->
  exists r cs',
    Sub (Const 1) (Var z) cs = Ok (r, cs') /\ grows cs cs' /\
    forall w, w (One, 0%nat) = 1 ->
      value cs' w (linExp r)
      = normalize (1 - value cs w (linExp (completeDanglingVariable z))).
Proof.
  intros R W.
  destruct (Sub_ok (Const 1) (Var z) cs R I W) as (r & cs' & E & G & _ & En & _).
  exists r, cs'. split; [exact E|]. split; [exact G|].
  intros w H. unfold value. rewrite En, evalEntries_reduced.
  cbn [operandEntries]. rewrite evalEntries_app, evalEntries_opp.
  cbn [evalEntries fold_right fst snd]. rewrite H.
  unfold normalize. rewrite Zminus_mod_idemp_r. f_equal; lia.
Qed.

(** The body of IsZero on an odd positive exponent: the value returned is
    1 - a^(expo - 1) on every witness satisfying the new constraints. *)
Lemma isZeroExp_ok expo a cs :
  0 < expo -> Z.odd expo = true ->
  reserved cs -> wfLinExp cs (linExp (completeDanglingVariable a)) ->
  exists r cs' new,
    isZeroExp expo a cs = Ok (r, cs') /\
    constraints cs' = constraints cs ++ new /\
    forall w, w (One, 0%nat) = 1 -> Forall (satisfied cs' w) new ->
      value cs' w (linExp r)
      = normalize (1 - value cs w (linExp (completeDanglingVariable a))
                       ^ (expo - 1)).
Proof.
  intros Hpos Hodd R Wa.
  destruct (isZeroLoop_ok expo a (bytesLen expo * 8 - 1) getOneVariable cs R Wa
              (wf_getOneVariable _ R))
    as (r1 & cs1 & new & E1 & C1 & K1 & Wn & Wr1 & V1).
  pose proof (same_coeffs_reserved _ _ C1 R) as R1.
  pose proof (same_coeffs_wfLinExp _ _ _ C1 Wr1) as Wr1'.
  destruct (Mul_vars_value r1 r1 cs1 R1 Wr1' Wr1')
    as (cs2 & c2 & E2 & C2 & K2 & Wc2 & V2).
  set (z := internalVariable (nbInternal cs1)) in *.
  pose proof (same_coeffs_reserved _ _ C2 R1) as R2.
  destruct (Sub_one_value z cs2 R2 (wf_internalVariable _ _ R2))
    as (r & cs3 & E3 & G3 & V3).
  assert (C02 : coeffs cs2 = coeffs cs) by congruence.
  exists r, cs3, (new ++ [c2]).
  split.
  { unfold isZeroExp. cbn [Constant]. unfold FromInterface. cbn [Z.eqb Pos.eqb].
    unfold ret at 1. unfold bind at 1.
    rewrite (bind_ok _ _ _ _ _ E1), (bind_ok _ _ _ _ _ E2). exact E3. }
  split; [now rewrite (grows_constraints _ _ G3), K2, K1, <- app_assoc|].
  intros w Hone S. apply Forall_app in S. destruct S as [Sn S2].
  inversion S2 as [|? ? Sc2 _]; subst.
  pose proof (extends_trans _ _ _ (same_coeffs_extends _ _ C02)
                (grows_extends _ _ G3)) as X03.
  assert (Sn0 : Forall (satisfied cs w) new).
  { rewrite Forall_forall in *. intros c Hc.
    destruct (Wn c Hc) as (W1 & W2 & W3).
    apply (extends_satisfied _ _ w c X03 W1 W2 W3). auto. }
  assert (Sc2' : satisfied cs1 w c2).
  { destruct Wc2 as (W1 & W2 & W3).
    apply (extends_satisfied cs1 cs3 w c2); auto.
    eapply extends_trans; [apply same_coeffs_extends; exact C2|].
    apply grows_extends; exact G3. }
  rewrite (V3 w Hone). change (completeDanglingVariable z) with z.
  rewrite (same_coeffs_value _ _ w (linExp z) C2), (V2 w Sc2').
  rewrite (same_coeffs_value _ _ w _ C1), (V1 w Sn0).
  change (completeDanglingVariable getOneVariable) with getOneVariable.
  rewrite (value_getOneVariable _ _ R Hone).
  set (x := value cs w (linExp (completeDanglingVariable a))).
  set (e := exponentAbove expo (bytesLen expo * 8 - 1)).
  assert (He : 0 <= e) by apply exponentAbove_nonneg.
  rewrite <- (exponent_reached expo Hpos Hodd). fold e.
  assert (HA : normalize (normalize 1 ^ 2 ^ Z.of_nat (bytesLen expo * 8 - 1) * x ^ e)
               = normalize (x ^ e)).
  { unfold normalize.
    rewrite Zmult_mod, Z.mod_pow_l, <- Zmult_mod, Z.pow_1_l, Z.mul_1_l
      by (apply Z.pow_nonneg; lia).
    reflexivity. }
  rewrite HA. unfold normalize.
  rewrite <- Zmult_mod, Zminus_mod_idemp_r.
  rewrite <- Z.pow_add_r by lia.
  f_equal. f_equal. f_equal. lia.
Qed.

(** *** The constraints of IsZero can be solved *)

Lemma agree_refl n w : agree n w w.
Proof. intros k _. reflexivity. Qed.

Lemma agree_trans n m w w1 w2 :
  (n <= m)%nat -> agree n w w1 -> agree m w1 w2 -> agree n w w2.
Proof.
  intros L A1 A2 k Hk. rewrite (A2 k), (A1 k); auto.
  intros Hi. specialize (Hk Hi). lia.
Qed.

Lemma agree_assign n m w x : (n <= m)%nat -> agree n w (assign w m x).
Proof.
  intros L k Hk. unfold assign.
  destruct (keyEqb k (Internal, m)) eqn:E; [|reflexivity].
  apply keyEqb_true in E. subst k. specialize (Hk eq_refl). simpl in Hk. lia.
Qed.

Lemma agree_one n w w' : agree n w w' -> w' (One, 0%nat) = w (One, 0%nat).
Proof. intros A. apply A. intros H. discriminate H. Qed.

Lemma assign_same w n x : assign w n x (Internal, n) = x.
Proof. unfold assign. now rewrite keyEqb_refl. Qed.

Lemma scoped_mono n m l : (n <= m)%nat -> scoped n l -> scoped m l.
Proof.
  intros L. apply Forall_impl. intros t H Hi. specialize (H Hi). lia.
Qed.

Lemma scoped_internalVariable n m :
  (n < m)%nat -> scoped m (linExp (internalVariable n)).
Proof. intros L. repeat constructor. intros _. exact L. Qed.

Lemma scoped_getOneVariable n : scoped n (linExp getOneVariable).
Proof. repeat constructor. intros H. discriminate H. Qed.

Lemma scopedR1C_mono n m c : (n <= m)%nat -> scopedR1C n c -> scopedR1C m c.
Proof.
  intros L (H1 & H2 & H3). repeat split; now apply (scoped_mono n m).
Qed.

(** The value of an expression depends on the wires it mentions only. *)
Lemma value_agree cs n w w' l :
  scoped n l -> agree n w w' -> value cs w' l = value cs w l.
Proof.
  intros Sc A. unfold value. f_equal.
  induction Sc as [|t l Ht _ IH]; [reflexivity|].
  unfold evalEntries, entries in *. cbn [map fold_right]. rewrite IH.
  f_equal. f_equal. unfold entry. cbn [snd]. apply A. exact Ht.
Qed.

Lemma satisfied_agree cs n w w' c :
  scopedR1C n c -> agree n w w' -> satisfied cs w c -> satisfied cs w' c.
Proof.
  intros (SL & SR & SO) A. unfold satisfied.
  now rewrite (value_agree cs n w w' _ SL A), (value_agree cs n w w' _ SR A),
    (value_agree cs n w w' _ SO A).
Qed.

(** The constraint of a multiplication is solved by giving the fresh wire
    the product of the operands. *)
Lemma Mul_solved x y cs w :
  reserved cs ->
  scoped (nbInternal cs) (linExp (completeDanglingVariable x)) ->
  scoped (nbInternal cs) (linExp (completeDanglingVariable y)) ->
  satisfied cs
    (assign w (nbInternal cs)
       (value cs w (linExp (completeDanglingVariable x))
        * value cs w (linExp (completeDanglingVariable y))))
    (mkR1C (linExp (completeDanglingVariable x))
           (linExp (completeDanglingVariable y))
           (linExp (internalVariable (nbInternal cs))) SingleOutput).
Proof.
  intros R Sx Sy. unfold satisfied. cbn [R1C_L R1C_R R1C_O].
  set (p := value cs w (linExp (completeDanglingVariable x))
            * value cs w (linExp (completeDanglingVariable y))).
  assert (A : agree (nbInternal cs) w (assign w (nbInternal cs) p))
    by (apply agree_assign; lia).
  rewrite (value_agree cs _ _ _ _ Sx A), (value_agree cs _ _ _ _ Sy A).
  fold p. unfold value. rewrite (entries_internalVariable _ _ R).
  cbn [evalEntries fold_right fst snd]. rewrite assign_same.
  f_equal. ring.
Qed.

Lemma multiplications_S expo i :
  multiplications expo (S i)
  = (multiplications expo i
     + (if Z.testbit expo (Z.of_nat (S i)) then 2 else 1))%nat.
Proof.
  unfold multiplications. rewrite seq_S, filter_app, length_app.
  cbn [filter]. change (1 + i)%nat with (S i).
  destruct (Z.testbit expo (Z.of_nat (S i))); cbn [List.length]; lia.
Qed.

(** The loop of IsZero: the number of constraints it appends, and a
    solution of them over every assignment of the wires that existed. *)
Lemma isZeroLoop_solved expo a : forall i res cs res' cs',
  reserved cs ->
  scoped (nbInternal cs) (linExp (completeDanglingVariable a)) ->
  scoped (nbInternal cs) (linExp (completeDanglingVariable res)) ->
  isZeroLoop expo a i res cs = Ok (res', cs') ->
  exists new,
    constraints cs' = constraints cs ++ new /\
    coeffs cs' = coeffs cs /\
    List.length new = multiplications expo i /\
    nbInternal cs' = (nbInternal cs + List.length new)%nat /\
    scoped (nbInternal cs') (linExp (completeDanglingVariable res')) /\
    Forall (scopedR1C (nbInternal cs')) new /\
    forall w, exists w',
      agree (nbInternal cs) w w' /\ Forall (satisfied cs w') new.
Proof.
  induction i as [|i IH]; intros res cs res' cs' R Sa Sr E.
  - cbn [isZeroLoop] in E. unfold ret in E. inversion E; subst res' cs'.
    exists []. rewrite app_nil_r. cbn [List.length]. rewrite Nat.add_0_r.
    repeat (split; [reflexivity|]). split; [exact Sr|]. split; [constructor|].
    intros w. exists w. split; [apply agree_refl|constructor].
  - rewrite isZeroLoop_S, (bind_ok _ _ _ _ _ (Mul_Var_Var res res cs)) in E.
    set (n := nbInternal cs) in *.
    set (c1 := mkR1C _ _ _ _) in E.
    set (cs1 := mkCS _ _ _ _ _ _ _) in E.
    set (z1 := internalVariable n) in *.
    assert (R1 : reserved cs1) by exact R.
    assert (Sc1 : scopedR1C (S n) c1).
    { repeat split; cbn [R1C_L R1C_R R1C_O];
        try (apply (scoped_mono n); [lia|exact Sr]).
      apply scoped_internalVariable. lia. }
    rewrite multiplications_S.
    destruct (Z.testbit expo (Z.of_nat (S i))) eqn:Hbit.
    + rewrite (bind_ok _ _ _ _ _ (Mul_Var_Var z1 a cs1)) in E.
      change (nbInternal cs1) with (S n) in E.
      set (c2 := mkR1C _ _ _ _) in E.
      set (cs2 := mkCS _ _ _ _ _ _ _) in E.
      set (z2 := internalVariable (S n)) in *.
      assert (Sa1 : scoped (S n) (linExp (completeDanglingVariable a)))
        by (apply (scoped_mono n); [lia|exact Sa]).
      assert (Sz1 : scoped (S n) (linExp (completeDanglingVariable z1)))
        by (apply scoped_internalVariable; lia).
      assert (Sc2 : scopedR1C (S (S n)) c2).
      { repeat split; cbn [R1C_L R1C_R R1C_O].
        - apply (scoped_mono (S n)); [lia|exact Sz1].
        - apply (scoped_mono (S n)); [lia|exact Sa1].
        - apply scoped_internalVariable. lia. }
      destruct (IH z2 cs2 res' cs' R) as (new & K & C & L & N & Sr' & Sn & Sat).
      { apply (scoped_mono n); [cbn; lia|exact Sa]. }
      { apply scoped_internalVariable. cbn. lia. }
      { exact E. }
      change (nbInternal cs2) with (S (S n)) in *.
      exists (c1 :: c2 :: new).
      split; [rewrite K; cbn [constraints cs2 cs1]; now rewrite <- !app_assoc|].
      split; [exact C|].
      split; [cbn [List.length]; lia|].
      split; [cbn [List.length]; lia|].
      split; [exact Sr'|].
      split.
      { constructor; [apply (scopedR1C_mono (S n)); [lia|exact Sc1]|].
        constructor; [apply (scopedR1C_mono (S (S n))); [lia|exact Sc2]|].
        exact Sn. }
      intros w.
      pose proof (Mul_solved res res cs w R Sr Sr) as M1.
      fold n c1 in M1. set (w1 := assign w n _) in M1.
      pose proof (Mul_solved z1 a cs1 w1 R1 Sz1 Sa1) as M2.
      change (nbInternal cs1) with (S n) in M2. fold z2 c2 in M2.
      set (w2 := assign w1 (S n) _) in M2.
      destruct (Sat w2) as (w' & A & F).
      assert (A1 : agree n w w1) by (apply agree_assign; lia).
      assert (A2 : agree (S n) w1 w2) by (apply agree_assign; lia).
      exists w'. split.
      { apply (agree_trans n (S (S n)) w w2); [lia| |exact A].
        apply (agree_trans n (S n) w w1); [lia|exact A1|exact A2]. }
      constructor.
      { apply (satisfied_agree cs (S n) w1); [exact Sc1| |exact M1].
        apply (agree_trans (S n) (S (S n)) w1 w2); [lia|exact A2|exact A]. }
      constructor.
      { apply (satisfied_agree cs (S (S n)) w2); [exact Sc2|exact A|exact M2]. }
      exact F.
    + unfold ret at 1 in E. unfold bind at 1 in E.
      destruct (IH z1 cs1 res' cs' R1) as (new & K & C & L & N & Sr' & Sn & Sat).
      { apply (scoped_mono n); [cbn; lia|exact Sa]. }
      { apply scoped_internalVariable. cbn. lia. }
      { exact E. }
      change (nbInternal cs1) with (S n) in *.
      exists (c1 :: new).
      split; [rewrite K; cbn [constraints cs1]; now rewrite <- !app_assoc|].
      split; [exact C|].
      split; [cbn [List.length]; lia|].
      split; [cbn [List.length]; lia|].
      split; [exact Sr'|].
      split.
      { constructor; [apply (scopedR1C_mono (S n)); [lia|exact Sc1]|]. exact Sn. }
      intros w.
      pose proof (Mul_solved res res cs w R Sr Sr) as M1.
      fold n c1 in M1. set (w1 := assign w n _) in M1.
      destruct (Sat w1) as (w' & A & F).
      assert (A1 : agree n w w1) by (apply agree_assign; lia).
      exists w'. split.
      { apply (agree_trans n (S n) w w1); [lia|exact A1|exact A]. }
      constructor; [|exact F].
      apply (satisfied_agree cs (S n) w1); [exact Sc1|exact A|exact M1].
Qed.

(** The loop of IsZero appends one constraint and one internal wire per
    multiplication. *)
Lemma isZeroLoop_count expo a : forall i res cs res' cs',
  isZeroLoop expo a i res cs = Ok (res', cs') ->
  exists new,
    constraints cs' = constraints cs ++ new /\
    List.length new = multiplications expo i /\
    nbInternal cs' = (nbInternal cs + List.length new)%nat.
Proof.
  induction i as [|i IH]; intros res cs res' cs' E.
  - cbn [isZeroLoop] in E. unfold ret in E. inversion E; subst res' cs'.
    exists []. rewrite app_nil_r. cbn [List.length]. rewrite Nat.add_0_r.
    repeat split.
  - rewrite isZeroLoop_S, (bind_ok _ _ _ _ _ (Mul_Var_Var res res cs)) in E.
    rewrite multiplications_S.
    destruct (Z.testbit expo (Z.of_nat (S i))).
    + rewrite (bind_ok _ _ _ _ _ (Mul_Var_Var _ a _)) in E.
      destruct (IH _ _ _ _ E) as (new & K & L & N).
      cbn [constraints nbInternal] in K, N.
      rewrite <- !app_assoc in K. cbn [app] in K.
      eexists. split; [exact K|]. cbn [List.length]. lia.
    + unfold ret at 1 in E. unfold bind at 1 in E.
      destruct (IH _ _ _ _ E) as (new & K & L & N).
      cbn [constraints nbInternal] in K, N.
      rewrite <- !app_assoc in K. cbn [app] in K.
      eexists. split; [exact K|]. cbn [List.length]. lia.
Qed.

(** The body of IsZero: one constraint per multiplication of the loop and
    one for the final squaring. *)
Lemma isZeroExp_count expo a cs r cs' new :
  reserved cs ->
  wfLinExp cs (linExp (completeDanglingVariable a)) ->
  isZeroExp expo a cs = Ok (r, cs') ->
  constraints cs' = constraints cs ++ new ->
  List.length new = S (multiplications expo (bytesLen expo * 8 - 1)) /\
  nbInternal cs' = (nbInternal cs + List.length new)%nat.
Proof.
  intros R Wa E K.
  destruct (isZeroLoop_ok expo a (bytesLen expo * 8 - 1) getOneVariable cs R Wa
              (wf_getOneVariable _ R))
    as (r1 & cs1 & new1 & E1 & C1 & K1 & _).
  destruct (isZeroLoop_count expo a _ _ _ _ _ E1) as (new1' & K1' & L1 & N1).
  assert (new1' = new1)
    by (rewrite K1 in K1'; now apply app_inv_head in K1').
  subst new1'.
  pose proof (same_coeffs_reserved _ _ C1 R) as R1.
  pose proof (Mul_Var_Var r1 r1 cs1) as E2.
  set (c2 := mkR1C _ _ _ _) in E2.
  set (cs2 := mkCS _ _ _ _ _ _ _) in E2.
  set (z := internalVariable (nbInternal cs1)) in *.
  assert (R2 : reserved cs2) by exact R1.
  destruct (Sub_one_value z cs2 R2 (wf_internalVariable _ _ R2))
    as (r3 & cs3 & E3 & G3 & _).
  assert (E' : isZeroExp expo a cs = Ok (r3, cs3)).
  { unfold isZeroExp. cbn [Constant]. unfold FromInterface. cbn [Z.eqb Pos.eqb].
    unfold ret at 1. unfold bind at 1.
    rewrite (bind_ok _ _ _ _ _ E1), (bind_ok _ _ _ _ _ E2). exact E3. }
  rewrite E' in E. inversion E; subst r3 cs3. clear E.
  assert (Hnew : new = new1 ++ [c2]).
  { rewrite (grows_constraints _ _ G3) in K. cbn [constraints cs2] in K.
    rewrite K1, <- app_assoc in K. now apply app_inv_head in K. }
  subst new. rewrite length_app. cbn [List.length].
  split; [lia|].
  rewrite (grows_internal _ _ G3). cbn [nbInternal cs2]. lia.
Qed.

(** The body of IsZero: the constraints it appends are one per
    multiplication of the loop and one for the final squaring, and they
    can be solved over every assignment of the wires that existed, when a
    mentions existing wires only. *)
Lemma isZeroExp_solved expo a cs r cs' new :
  reserved cs ->
  wfLinExp cs (linExp (completeDanglingVariable a)) ->
  scoped (nbInternal cs) (linExp (completeDanglingVariable a)) ->
  isZeroExp expo a cs = Ok (r, cs') ->
  constraints cs' = constraints cs ++ new ->
  forall w, exists w',
    agree (nbInternal cs) w w' /\ Forall (satisfied cs' w') new.
Proof.
  intros R Wa Sa E K.
  destruct (isZeroLoop_ok expo a (bytesLen expo * 8 - 1) getOneVariable cs R Wa
              (wf_getOneVariable _ R))
    as (r1 & cs1 & new1 & E1 & C1 & K1 & Wn & Wr1 & _).
  destruct (isZeroLoop_solved expo a _ getOneVariable _ _ _ R Sa
              (scoped_getOneVariable _) E1)
    as (new1' & K1' & _ & L1 & N1 & Sr1 & Sn1 & Sat1).
  assert (new1' = new1)
    by (rewrite K1 in K1'; now apply app_inv_head in K1').
  subst new1'.
  pose proof (same_coeffs_reserved _ _ C1 R) as R1.
  pose proof (same_coeffs_wfLinExp _ _ _ C1 Wr1) as Wr1'.
  pose proof (Mul_Var_Var r1 r1 cs1) as E2.
  set (c2 := mkR1C _ _ _ _) in E2.
  set (cs2 := mkCS _ _ _ _ _ _ _) in E2.
  set (z := internalVariable (nbInternal cs1)) in *.
  assert (R2 : reserved cs2) by exact R1.
  destruct (Sub_one_value z cs2 R2 (wf_internalVariable _ _ R2))
    as (r3 & cs3 & E3 & G3 & _).
  assert (E' : isZeroExp expo a cs = Ok (r3, cs3)).
  { unfold isZeroExp. cbn [Constant]. unfold FromInterface. cbn [Z.eqb Pos.eqb].
    unfold ret at 1. unfold bind at 1.
    rewrite (bind_ok _ _ _ _ _ E1), (bind_ok _ _ _ _ _ E2). exact E3. }
  rewrite E' in E. inversion E; subst r3 cs3. clear E.
  assert (Hnew : new = new1 ++ [c2]).
  { rewrite (grows_constraints _ _ G3) in K. cbn [constraints cs2] in K.
    rewrite K1, <- app_assoc in K. now apply app_inv_head in K. }
  subst new.
  intros w. destruct (Sat1 w) as (w1 & A1 & F1).
  pose proof (Mul_solved r1 r1 cs1 w1 R1 Sr1 Sr1) as M2.
  fold z c2 in M2. set (w2 := assign w1 (nbInternal cs1) _) in M2.
  assert (A2 : agree (nbInternal cs1) w1 w2) by (apply agree_assign; lia).
  assert (X13 : extends cs1 cs' )
    by (eapply extends_trans; [apply (same_coeffs_extends cs1 cs2); reflexivity|];
        apply grows_extends; exact G3).
  assert (X03 : extends cs cs')
    by (eapply extends_trans; [apply same_coeffs_extends; exact C1|exact X13]).
  exists w2. split.
  { apply (agree_trans _ (nbInternal cs1) w w1); [lia|exact A1|exact A2]. }
  apply Forall_app. split.
  - rewrite Forall_forall in *. intros c Hc.
    destruct (Wn c Hc) as (W1 & W2 & W3).
    apply (extends_satisfied _ _ w2 c X03 W1 W2 W3).
    apply (satisfied_agree cs (nbInternal cs1) w1); auto.
  - constructor; [|constructor].
    apply (extends_satisfied cs1 cs' w2 c2 X13); [exact Wr1'|exact Wr1'| |exact M2].
    apply wf_internalVariable. exact R1.
Qed.

(** C5: over the scalar field of a supported curve, of odd prime order
    q, IsZero(a) returns a variable whose value is 1 - a^(q-1) on every
    witness satisfying the constraints it appends: the loop over the bits
    of q from the top down to bit 1 and the final squaring reach the
    exponent q - 1 exactly.  Hence the value is 1 when a is 0 and 0 when a
    is any non-zero field element.  The constraints appended are one per
    multiplication, each on a fresh internal wire: a squaring for each of
    the bits nbBits-1 down to 1 of q, a product with a for each of these
    bits that is set, and the final squaring.  They can be solved: when a
    mentions existing wires only, every assignment of the wires that
    existed extends, on the fresh wires only, to a witness that satisfies
    them, and under it the variable returned is 1 if a is 0 and 0
    otherwise. *)
Theorem IsZero_spec (cs : ConstraintSystem) (a : variable) (i : ecc.ID)
  (S : ecc.supported i = true)
  (Hq : frModulus i = q)
  (P : Z.prime q) (Hodd : Z.odd q = true)
  (R : reserved cs)
  (Wa : wfLinExp cs (linExp (completeDanglingVariable a))) :
  exists r cs' new,
    IsZero a i cs = Ok (r, cs') /\
    constraints cs' = constraints cs ++ new /\
    List.length new = Datatypes.S (multiplications q (bytesLen q * 8 - 1)) /\
    nbInternal cs' = (nbInternal cs + List.length new)%nat /\
    (forall w, w (One, 0%nat) = 1 -> Forall (satisfied cs' w) new ->
       let x := value cs w (linExp (completeDanglingVariable a)) in
       value cs' w (linExp r) = normalize (1 - x ^ (q - 1)) /\
       (x = 0 -> value cs' w (linExp r) = 1) /\
       (x <> 0 -> value cs' w (linExp r) = 0)) /\
    (scoped (nbInternal cs) (linExp (completeDanglingVariable a)) ->
     forall w, w (One, 0%nat) = 1 ->
       exists w',
         agree (nbInternal cs) w w' /\
         Forall (satisfied cs' w') new /\
         value cs' w' (linExp r)
         = if value cs w (linExp (completeDanglingVariable a)) =? 0
           then 1 else 0).
Proof.
  pose proof (Z.prime_ge_2 _ P) as Hq2.
  destruct (isZeroExp_ok q a cs ltac:(lia) Hodd R Wa)
    as (r & cs' & new & E & K & V).
  destruct (isZeroExp_count q a cs r cs' new R Wa E K) as (L & N).
  assert (V' : forall w, w (One, 0%nat) = 1 -> Forall (satisfied cs' w) new ->
             let x := value cs w (linExp (completeDanglingVariable a)) in
             value cs' w (linExp r) = normalize (1 - x ^ (q - 1)) /\
             (x = 0 -> value cs' w (linExp r) = 1) /\
             (x <> 0 -> value cs' w (linExp r) = 0)).
  { intros w Hone Sat'. cbv zeta. rewrite (V w Hone Sat').
    split; [reflexivity|]. split.
    - intros Hx. rewrite Hx, Z.pow_0_l by lia. unfold normalize.
      rewrite Z.sub_0_r. apply Z.mod_small. lia.
    - intros Hx. unfold normalize.
      rewrite <- Zminus_mod_idemp_r, Z.fermat_nz.
      + reflexivity.
      + exact P.
      + fold (normalize (value cs w (linExp (completeDanglingVariable a)))).
        now rewrite value_normalized. }
  exists r, cs', new. split.
  { now rewrite (IsZero_supported a i cs S), Hq. }
  split; [exact K|]. split; [exact L|]. split; [exact N|].
  split; [exact V'|].
  intros Sa w Hone.
  destruct (isZeroExp_solved q a cs r cs' new R Wa Sa E K w) as (w' & A & F).
  exists w'. split; [exact A|]. split; [exact F|].
  assert (Hone' : w' (One, 0%nat) = 1)
    by (now rewrite (agree_one _ _ _ A)).
  destruct (V' w' Hone' F) as (_ & V0 & V1).
  rewrite (value_agree cs _ w w' _ Sa A) in V0, V1.
  destruct (Z.eqb_spec (value cs w (linExp (completeDanglingVariable a))) 0)
    as [Hx|Hx]; auto.
Qed.

(** *** ToBinary *)

Lemma mergeEntry_below e l :
  HdRel entryLt e l -> mergeEntry e l = e :: l.
Proof.
  intros H. destruct l as [|h l]; [reflexivity|].
  inversion H as [|? ? Hlt]; subst. cbn [mergeEntry]. unfold entryLt in Hlt.
  now rewrite Hlt.
Qed.

Lemma canonical_strict l : Sorted entryLt l -> canonical l = l.
Proof.
  induction 1 as [|e l S IH Hd]; [reflexivity|].
  cbn [canonical fold_right]. fold (canonical l). rewrite IH.
  now apply mergeEntry_below.
Qed.

Lemma odd_divide_double m :
  Z.odd q = true -> (q | 2 * m) -> (q | m).
Proof.
  intros Hodd [t Ht].
  pose proof (Zmod_odd q) as Hm. rewrite Hodd in Hm.
  pose proof (Z_div_mod_eq_full q 2) as Hk. rewrite Hm in Hk.
  exists (m - (q / 2) * t). nia.
Qed.

Lemma pow2_nonzero j :
  1 < q -> Z.odd q = true -> normalize (2 ^ Z.of_nat j) <> 0.
Proof.
  intros Hq Hodd. unfold normalize. induction j as [|j IH].
  - cbn. rewrite Z.mod_small; lia.
  - intros H. apply IH.
    apply Z.mod_divide in H; [|lia]. apply Z.mod_divide; [lia|].
    apply odd_divide_double; [exact Hodd|].
    replace (2 * 2 ^ Z.of_nat j) with (2 ^ Z.of_nat (S j)); [exact H|].
    rewrite Nat2Z.inj_succ, Z.pow_succ_r by lia. reflexivity.
Qed.

Lemma binarySum_S n0 m :
  binarySum n0 (S m)
  = binarySum n0 m ++ [(normalize (2 ^ Z.of_nat m), (Internal, (n0 + m)%nat))].
Proof. unfold binarySum. now rewrite seq_S, map_app. Qed.

Lemma binarySum_keys n0 m e :
  In e (binarySum n0 m) -> exists j, (j < m)%nat /\ snd e = (Internal, (n0 + j)%nat).
Proof.
  unfold binarySum. rewrite in_map_iff. intros (j & <- & Hj).
  apply in_seq in Hj. exists j. split; [lia|reflexivity].
Qed.

Lemma sorted_snoc (l : list (Z * Key)) e :
  Sorted entryLt l ->
  (forall h, In h l -> entryLt h e) ->
  Sorted entryLt (l ++ [e]).
Proof.
  induction 1 as [|h l S IH Hd]; intros Hall; cbn [app].
  - repeat constructor.
  - constructor.
    + apply IH. intros h' Hh'. apply Hall. now right.
    + destruct l as [|h' l']; cbn [app].
      * constructor. apply Hall. now left.
      * constructor. now inversion Hd.
Qed.

Lemma keyLtb_internal a b :
  (a < b)%nat -> keyLtb (Internal, a) (Internal, b) = true.
Proof.
  intros H. unfold keyLtb. cbn [fst snd visRank].
  rewrite Nat.eqb_refl. apply Nat.ltb_lt in H. rewrite H.
  now rewrite orb_true_r.
Qed.

Lemma binarySum_sorted n0 m : Sorted entryLt (binarySum n0 m).
Proof.
  induction m as [|m IH]; [constructor|].
  rewrite binarySum_S. apply sorted_snoc; [exact IH|].
  intros h Hh. destruct (binarySum_keys _ _ _ Hh) as (j & Hj & Hk).
  unfold entryLt. rewrite Hk. cbn [snd]. apply keyLtb_internal. lia.
Qed.

Lemma binarySum_fixed n0 m :
  1 < q -> Z.odd q = true ->
  filter nonZero (map normalizeEntry (binarySum n0 m)) = binarySum n0 m.
Proof.
  intros Hq Hodd. induction m as [|m IH]; [reflexivity|].
  rewrite binarySum_S, map_app, filter_app, IH. f_equal.
  cbn [map filter]. unfold normalizeEntry, nonZero. cbn [fst snd].
  rewrite normalize_idem.
  destruct (Z.eqb_spec (normalize (2 ^ Z.of_nat m)) 0) as [E|_]; [|reflexivity].
  now apply pow2_nonzero in E.
Qed.

(** Adding the next bit: the reduction of the sum so far followed by
    2^m * b_m is the sum of the first m + 1 bits. *)
Lemma reduced_binarySum n0 m :
  1 < q -> Z.odd q = true ->
  reduced (binarySum n0 m ++ [(2 ^ Z.of_nat m, (Internal, (n0 + m)%nat))])
  = binarySum n0 (S m).
Proof.
  intros Hq Hodd. unfold reduced.
  rewrite canonical_strict.
  - rewrite map_app, filter_app, (binarySum_fixed _ _ Hq Hodd), binarySum_S.
    f_equal. cbn [map filter]. unfold normalizeEntry, nonZero. cbn [fst snd].
    destruct (Z.eqb_spec (normalize (2 ^ Z.of_nat m)) 0) as [E|_]; [|reflexivity].
    now apply pow2_nonzero in E.
  - apply sorted_snoc; [apply binarySum_sorted|].
    intros h Hh. destruct (binarySum_keys _ _ _ Hh) as (j & Hj & Hk).
    unfold entryLt. rewrite Hk. cbn [snd]. apply keyLtb_internal. lia.
Qed.

Lemma extends_wfR1C cs cs' c : extends cs cs' -> wfR1C cs c -> wfR1C cs' c.
Proof.
  intros X (H1 & H2 & H3). repeat split; now apply (extends_wfLinExp cs).
Qed.

Lemma isBooleanAssertion_extends cs cs' v c :
  extends cs cs' -> wfLinExp cs (linExp v) ->
  isBooleanAssertion cs v c -> isBooleanAssertion cs' v c.
Proof.
  intros X Wv (HL & HR & HO & HS & HW).
  pose proof HW as (W1 & W2 & W3).
  split; [exact HL|].
  split; [now rewrite (extends_entries _ _ _ X W2), (extends_entries _ _ _ X Wv)|].
  split; [now rewrite (extends_entries _ _ _ X W3)|].
  split; [exact HS|]. now apply (extends_wfR1C cs).
Qed.

(** A witness satisfies the boolean assertion of [v] exactly when
    v * (1 - v) is zero in the field. *)
Lemma isBooleanAssertion_meaning cs v c w :
  isBooleanAssertion cs v c -> w (One, 0%nat) = 1 ->
  (satisfied cs w c <->
   normalize (value cs w (linExp v) * (1 - value cs w (linExp v))) = 0).
Proof.
  intros (HL & HR & HO & _ & _) Hone. unfold satisfied, value.
  rewrite HL, HR, HO. unfold oneMinus.
  rewrite evalEntries_reduced, evalEntries_app, evalEntries_opp.
  cbn [evalEntries fold_right fst snd]. rewrite Hone.
  set (e := fold_right (fun ck s => fst ck * w (snd ck) + s) 0
                       (entries cs (linExp v))).
  replace (1 * 1 + 0 + - e) with (1 - e) by lia.
  replace (0 * 1 + 0) with 0 by lia.
  unfold normalize.
  rewrite Zmult_mod_idemp_r, Zmod_0_l.
  rewrite <- (Zmult_mod_idemp_r (1 - e mod q)), Zminus_mod_idemp_r,
    Zmult_mod_idemp_r.
  reflexivity.
Qed.

Lemma newInternalVariable_eq cs :
  newInternalVariable cs =
  Ok (internalVariable (nbInternal cs),
      mkCS (nbPublic cs) (nbSecret cs) (S (nbInternal cs)) (coeffs cs)
           (constraints cs) (assertions cs) (logs cs)).
Proof. reflexivity. Qed.

Lemma toBinaryAlloc_S n :
  toBinaryAlloc (S n) =
  (r <- newInternalVariable ;;
   AssertIsBoolean r ;;;
   res <- toBinaryAlloc n ;;
   ret (r :: res)).
Proof. reflexivity. Qed.

Lemma toBinaryAlloc_ok n : forall cs,
  reserved cs ->
  exists cs' asserts,
    toBinaryAlloc n cs
    = Ok (map internalVariable (seq (nbInternal cs) n), cs') /\
    extends cs cs' /\
    nbInternal cs' = (nbInternal cs + n)%nat /\
    constraints cs' = constraints cs /\
    assertions cs' = assertions cs ++ asserts /\
    Forall2 (fun b a => isBooleanAssertion cs' b (fst a))
            (map internalVariable (seq (nbInternal cs) n)) asserts.
Proof.
  induction n as [|n IH]; intros cs R.
  - exists cs, []. split; [reflexivity|]. split; [apply extends_refl|].
    split; [lia|]. split; [reflexivity|]. split; [now rewrite app_nil_r|].
    constructor.
  - set (cs0 := mkCS (nbPublic cs) (nbSecret cs) (S (nbInternal cs)) (coeffs cs)
                     (constraints cs) (assertions cs) (logs cs)).
    set (r := internalVariable (nbInternal cs)).
    assert (C0 : coeffs cs0 = coeffs cs) by reflexivity.
    pose proof (same_coeffs_reserved _ _ C0 R) as R0.
    destruct (assertIsBooleanBody_ok r cs0 R0 (wf_internalVariable _ _ R0) eq_refl)
      as (cs1 & c & E1 & X1 & _ & _ & N1 & K1 & A1 & _ & L1 & S1 & WR1 & WO1 & ER1 & EO1).
    pose proof (extends_reserved _ _ X1 R0) as R1.
    destruct (IH cs1 R1) as (cs2 & asserts & E2 & X2 & N2 & K2 & A2 & F2).
    exists cs2, ((c, List.length (logs cs0)) :: asserts).
    rewrite N1 in *. cbn [nbInternal cs0] in *.
    split.
    { rewrite toBinaryAlloc_S, (bind_ok _ _ _ _ _ (newInternalVariable_eq cs)).
      fold cs0 r. rewrite (bind_ok _ _ _ _ _ (AssertIsBoolean_of_body _ _ _ _ E1)).
      rewrite (bind_ok _ _ _ _ _ E2). reflexivity. }
    split.
    { eapply extends_trans; [apply (same_coeffs_extends cs cs0 C0)|].
      eapply extends_trans; eauto. }
    split; [lia|].
    split; [rewrite K2, K1; reflexivity|].
    split; [rewrite A2, A1, <- app_assoc; reflexivity|].
    cbn [seq map]. constructor; [|exact F2].
    cbn [fst]. fold r.
    apply (isBooleanAssertion_extends cs1);
      [exact X2|apply wf_internalVariable; exact R1|].
    split; [exact L1|].
    split.
    { rewrite ER1. change (completeDanglingVariable r) with r.
      unfold r. now rewrite !entries_internalVariable. }
    split; [exact EO1|]. split; [exact S1|].
    split; [rewrite L1; apply wf_internalVariable; exact R1|]. auto.
Qed.

Lemma toBinarySum_ok n0 : forall k m v cs,
  1 < q -> Z.odd q = true ->
  reserved cs -> wfLinExp cs (linExp v) -> wire v = None ->
  entries cs (linExp v) = binarySum n0 m ->
  exists v' cs',
    toBinarySum (map internalVariable (seq (n0 + m) k)) (2 ^ Z.of_nat m) v cs
    = Ok (v', cs') /\
    grows cs cs' /\ wfLinExp cs' (linExp v') /\ wire v' = None /\
    entries cs' (linExp v') = binarySum n0 (m + k).
Proof.
  induction k as [|k IH]; intros m v cs Hq Hodd R Wv Hw En.
  - exists v, cs. split; [reflexivity|]. split; [apply grows_refl|].
    rewrite Nat.add_0_r. auto.
  - cbn [seq map toBinarySum].
    set (b := internalVariable (n0 + m)).
    destruct (mulConstant_ok (2 ^ Z.of_nat m) b cs R (wf_internalVariable _ _ R))
      as (_v & cs1 & E1 & G1 & W1 & Wi1 & _ & En1).
    pose proof (grows_reserved _ _ G1 R) as R1.
    assert (Wov : wfOperand cs1 (Var v)).
    { cbn [wfOperand]. rewrite (complete_no_wire _ Hw).
      exact (grows_wfLinExp _ _ _ G1 Wv). }
    assert (Wo_v : wfOperand cs1 (Var _v))
      by (cbn [wfOperand]; now rewrite (complete_no_wire _ Wi1)).
    destruct (Add_ok (Var v) (Var _v) cs1 R1 Wov Wo_v)
      as (r & _ & cs2 & E2 & _ & _ & G2 & W2 & En2 & Wi2 & _).
    assert (Enr : entries cs2 (linExp r) = binarySum n0 (S m)).
    { rewrite En2. cbn [operandEntries].
      rewrite (complete_no_wire _ Hw), (complete_no_wire _ Wi1).
      rewrite (grows_entries _ _ _ G1 Wv), En, En1.
      unfold b. rewrite (entries_internalVariable _ _ R).
      cbn [map]. unfold scaleEntry. cbn [fst snd]. rewrite Z.mul_1_l.
      now apply reduced_binarySum. }
    destruct (IH (S m) r cs2 Hq Hodd (grows_reserved _ _ G2 R1) W2 Wi2 Enr)
      as (v' & cs3 & E3 & G3 & W3 & Wi3 & En3).
    exists v', cs3. split.
    { assert (E1' : Mul (Const (2 ^ Z.of_nat m)) (Var b) [] cs = Ok (_v, cs1))
        by (rewrite Mul_nil, bind_ret_r; exact E1).
      fold b. rewrite (bind_ok _ _ _ _ _ E1'), (bind_ok _ _ _ _ _ E2).
      replace (2 ^ Z.of_nat m * 2) with (2 ^ Z.of_nat (S m))
        by (rewrite Nat2Z.inj_succ, Z.pow_succ_r by lia; ring).
      replace (S (n0 + m)) with (n0 + S m)%nat by lia. exact E3. }
    split; [eauto using grows_trans|]. split; [exact W3|]. split; [exact Wi3|].
    now rewrite En3, Nat.add_succ_r.
Qed.

(** C3: for n >= 1, ToBinary(a, n) returns n fresh internal wires
    b_0 .. b_(n-1), appends one boolean assertion R1C(b_i, 1 - b_i, 0) per
    bit, in order, and appends exactly one constraint, tagged
    binary-decomposition, whose L is the sum of 2^i * b_i, whose R is the
    one-wire and whose O is a.  The i-th returned bit carries the weight
    2^i: the result is little-endian. *)
Theorem ToBinary_spec (cs : ConstraintSystem) (a : variable) (n : nat)
  (Hn : (0 < n)%nat) (Hq : 1 < q) (Hodd : Z.odd q = true)
  (R : reserved cs)
  (Wa : wfLinExp cs (linExp (completeDanglingVariable a))) :
  let bits := map internalVariable (seq (nbInternal cs) n) in
  exists cs' asserts c,
    ToBinary a n cs = Ok (bits, cs') /\
    nbInternal cs' = (nbInternal cs + n)%nat /\
    assertions cs' = assertions cs ++ asserts /\
    Forall2 (fun b s => isBooleanAssertion cs' b (fst s)) bits asserts /\
    constraints cs' = constraints cs ++ [c] /\
    R1C_Solver c = BinaryDec /\
    entries cs' (R1C_L c) = binarySum (nbInternal cs) n /\
    entries cs' (R1C_R c) = [(1, (One, 0%nat))] /\
    R1C_O c = linExp (completeDanglingVariable a).
Proof.
  destruct n as [|n]; [lia|]. cbv zeta.
  destruct (toBinaryAlloc_ok (S n) cs R) as (cs1 & asserts & E1 & X1 & N1 & K1 & A1 & F1).
  pose proof (extends_reserved _ _ X1 R) as R1.
  set (res0 := internalVariable (nbInternal cs)).
  destruct (mulConstant_ok 1 res0 cs1 R1 (wf_internalVariable _ _ R1))
    as (v0 & cs2 & E2 & G2 & W2 & Wi2 & _ & En2).
  pose proof (grows_reserved _ _ G2 R1) as R2.
  assert (En0 : entries cs2 (linExp v0) = binarySum (nbInternal cs) 1).
  { rewrite En2. unfold res0. rewrite (entries_internalVariable _ _ R1).
    unfold binarySum. cbn [map seq scaleEntry fst snd Z.of_nat].
    rewrite Nat.add_0_r, Z.pow_0_r. unfold normalize.
    rewrite Z.mod_small by lia. reflexivity. }
  destruct (toBinarySum_ok (nbInternal cs) n 1 v0 cs2 Hq Hodd R2 W2 Wi2 En0)
    as (v & cs3 & E3 & G3 & W3 & Wi3 & En3).
  pose proof (grows_trans _ _ _ G2 G3) as G13.
  set (c := newR1C v getOneVariable (completeDanglingVariable a) (Some BinaryDec)).
  set (cs4 := mkCS (nbPublic cs3) (nbSecret cs3) (nbInternal cs3) (coeffs cs3)
                   (constraints cs3 ++ [c]) (assertions cs3) (logs cs3)).
  assert (X14 : extends cs1 cs4).
  { eapply extends_trans; [exact (grows_extends _ _ G13)|].
    apply same_coeffs_extends. reflexivity. }
  exists cs4, asserts, c.
  split.
  { unfold ToBinary. rewrite (bind_ok _ _ _ _ _ E1).
    cbn [seq map index nth_error]. unfold ret at 1. unfold bind at 1.
    fold res0.
    assert (E2' : Mul (Var res0) (Const 1) [] cs1 = Ok (v0, cs2))
      by (rewrite Mul_nil, bind_ret_r; exact E2).
    rewrite (bind_ok _ _ _ _ _ E2'). cbn [skipn].
    change 2 with (2 ^ Z.of_nat 1).
    replace (S (nbInternal cs)) with (nbInternal cs + 1)%nat by lia.
    rewrite (bind_ok _ _ _ _ _ E3). reflexivity. }
  cbn [cs4 nbInternal assertions constraints].
  split; [now rewrite (grows_internal _ _ G13)|].
  split; [now rewrite (grows_assertions _ _ G13)|].
  split.
  { clear - F1 X14 R1 X1. 
    induction F1 as [|b s bs ss Hb F IH]; constructor; [|exact IH].
    pose proof Hb as (HL & _ & _ & _ & HW).
    apply (isBooleanAssertion_extends cs1); [exact X14| |exact Hb].
    rewrite <- HL. apply HW. }
  split; [now rewrite (grows_constraints _ _ G13), K1|].
  unfold c, newR1C, Clone. cbn [R1C_L R1C_R R1C_O R1C_Solver].
  assert (C34 : coeffs cs4 = coeffs cs3) by reflexivity.
  split; [reflexivity|].
  split.
  { rewrite (same_coeffs_entries _ _ _ C34). exact En3. }
  split; [|reflexivity].
  apply entries_getOneVariable. apply (same_coeffs_reserved _ _ C34).
  exact (grows_reserved _ _ G3 R2).
Qed.

(** *** Select on a Variable branch *)

Lemma Select_Var_first b t1 i2 :
  Select b (Var t1) i2 =
  (AssertIsBoolean (completeDanglingVariable b) ;;;
   selectEmit (completeDanglingVariable b)
              (Var (completeDanglingVariable t1)) i2).
Proof. reflexivity. Qed.


Lemma extends_operandValue cs cs' w i :
  extends cs cs' -> wfOperand cs i -> operandValue cs' w i = operandValue cs w i.
Proof.
  intros X W. unfold operandValue. destruct i as [v|k]; [|reflexivity].
  cbn [operandEntries wfOperand] in *. now rewrite (extends_entries _ _ _ X W).
Qed.

Lemma extends_wfOperand cs cs' i : extends cs cs' -> wfOperand cs i -> wfOperand cs' i.
Proof. destruct i; simpl; [apply extends_wfLinExp|auto]. Qed.




Lemma operandValue_complete cs w t :
  operandValue cs w (Var (completeDanglingVariable t)) = operandValue cs w (Var t).
Proof. unfold operandValue. cbn [operandEntries]. now rewrite complete_idem. Qed.


(** *** Values of the linear operations *)

Lemma operandValue_Const cs w k :
  w (One, 0%nat) = 1 -> operandValue cs w (Const k) = normalize k.
Proof.
  intros H. unfold operandValue. cbn [operandEntries evalEntries fold_right fst snd].
  rewrite H. f_equal. lia.
Qed.

Lemma normalize_add a b :
  normalize (normalize a + normalize b) = normalize (a + b).
Proof. unfold normalize. now rewrite <- Zplus_mod. Qed.

Lemma normalize_add_r a b : normalize (a + normalize b) = normalize (a + b).
Proof. unfold normalize. now rewrite Zplus_mod_idemp_r. Qed.

Lemma normalize_mul a b :
  normalize (normalize a * normalize b) = normalize (a * b).
Proof. unfold normalize. now rewrite <- Zmult_mod. Qed.

Lemma normalize_mul_r a b : normalize (a * normalize b) = normalize (a * b).
Proof. unfold normalize. now rewrite Zmult_mod_idemp_r. Qed.

Lemma normalize_opp a : normalize (- normalize a) = normalize (- a).
Proof.
  unfold normalize. rewrite <- (Z.sub_0_l (a mod q)), <- (Z.sub_0_l a).
  now rewrite Zminus_mod_idemp_r.
Qed.

Lemma entries_nil_inv cs l : entries cs l = [] -> l = [].
Proof. destruct l; [reflexivity|discriminate]. Qed.

(** The operands of a variadic call are read one after the other. *)
Lemma foldM_add_ok rest : forall res cs,
  reserved cs -> Forall (wfOperand cs) rest -> wfLinExp cs (linExp res) ->
  exists res' cs',
    foldM add rest res cs = Ok (res', cs') /\ grows cs cs' /\
    wfLinExp cs' (linExp res') /\
    entries cs' (linExp res')
    = entries cs (linExp res) ++ List.concat (map (operandEntries cs) rest) /\
    wire res' = wire res /\ isBoolean res' = isBoolean res.
Proof.
  induction rest as [|i rest IH]; intros res cs R Wr Wres.
  - exists res, cs. split; [reflexivity|]. split; [apply grows_refl|].
    cbn [map List.concat]. rewrite app_nil_r. auto.
  - inversion Wr as [|? ? Wi Wrest]; subst.
    destruct (add_ok res i cs R Wi Wres)
      as (r1 & cs1 & E1 & G1 & W1 & En1 & Wi1 & B1 & _).
    assert (Wrest1 : Forall (wfOperand cs1) rest).
    { eapply Forall_impl; [|exact Wrest]. intros o. now apply grows_wfOperand. }
    destruct (IH r1 cs1 (grows_reserved _ _ G1 R) Wrest1 W1)
      as (r2 & cs2 & E2 & G2 & W2 & En2 & Wi2 & B2).
    exists r2, cs2. split.
    { cbn [foldM]. now rewrite (bind_ok _ _ _ _ _ E1). }
    split; [eauto using grows_trans|]. split; [exact W2|].
    split; [|split; congruence].
    rewrite En2, En1. cbn [map List.concat]. rewrite <- app_assoc. do 3 f_equal.
    apply map_ext_in. intros o Ho. apply grows_operandEntries; [exact G1|].
    rewrite Forall_forall in Wrest. auto.
Qed.

Lemma evalEntries_concat cs w l :
  normalize (evalEntries w (List.concat (map (operandEntries cs) l)))
  = normalize (sumValues cs w l).
Proof.
  induction l as [|i l IH]; [reflexivity|].
  cbn [map List.concat sumValues fold_right]. rewrite evalEntries_app.
  fold (sumValues cs w l).
  rewrite <- normalize_add, IH. fold (operandValue cs w i).
  apply normalize_add_r.
Qed.

(** X1: Add(i1, i2, in...) emits nothing: it leaves the wires, the
    constraints and the assertions as they are, and returns a variable,
    without a wire of its own, whose value is the sum of the values of
    all its operands, Variables and constants alike. *)
Theorem Add_sum (cs : ConstraintSystem) (i1 i2 : operand) (rest : list operand)
  (R : reserved cs)
  (W : Forall (wfOperand cs) (i1 :: i2 :: rest)) :
  exists r cs',
    Add i1 i2 rest cs = Ok (r, cs') /\ grows cs cs' /\
    wire r = None /\ wfLinExp cs' (linExp r) /\
    forall w,
      value cs' w (linExp r) = normalize (sumValues cs w (i1 :: i2 :: rest)).
Proof.
  destruct (foldM_add_ok (i1 :: i2 :: rest) zeroVariable cs R W (Forall_nil _))
    as (r1 & cs1 & E1 & G1 & W1 & En1 & Wi1 & _).
  destruct (reduce_ok (linExp r1) cs1 (grows_reserved _ _ G1 R) W1)
    as (l & cs2 & E2 & _ & G2 & W2 & En2).
  exists (setLinExp r1 l), cs2. split.
  { cbn [foldM] in E1. unfold Add.
    apply bind_inv in E1. destruct E1 as (a1 & c1 & Ea & E1).
    apply bind_inv in E1. destruct E1 as (a2 & c2 & Eb & E1).
    rewrite (bind_ok _ _ _ _ _ Ea), (bind_ok _ _ _ _ _ Eb), (bind_ok _ _ _ _ _ E1).
    now rewrite (bind_ok _ _ _ _ _ E2). }
  split; [eauto using grows_trans|]. cbn [setLinExp wire linExp].
  split; [exact Wi1|]. split; [exact W2|].
  intros w. unfold value. rewrite En2, evalEntries_reduced, En1.
  change (entries cs (linExp zeroVariable)) with (@nil (Z * Key)).
  cbn [app]. apply evalEntries_concat.
Qed.

(** *** Cancellation *)

Lemma mergeEntry_opposite c k l :
  Forall (fun e => fst e = 0) l ->
  Forall (fun e => fst e = 0) (mergeEntry (c, k) (mergeEntry (- c, k) l)).
Proof.
  induction 1 as [|[ch kh] l Hh Hl IH]; cbn [mergeEntry fst snd].
  - rewrite keyEqb_refl.
    destruct (keyLtb k k) eqn:E; [key_facts; lia|].
    constructor; [cbn; lia|constructor].
  - cbn [fst] in Hh. subst ch.
    destruct (keyLtb k kh) eqn:E1; cbn [mergeEntry fst snd].
    + rewrite keyEqb_refl.
      destruct (keyLtb k k) eqn:E; [key_facts; lia|].
      constructor; [cbn; lia|]. constructor; [reflexivity|exact Hl].
    + destruct (keyEqb k kh) eqn:E2; cbn [mergeEntry fst snd].
      * rewrite keyEqb_refl.
        destruct (keyLtb k k) eqn:E; [key_facts; lia|].
        constructor; [cbn; lia|exact Hl].
      * rewrite E1, E2. constructor; [reflexivity|exact IH].
Qed.

Lemma canonical_opposite l :
  Forall (fun e => fst e = 0)
         (canonical (flat_map (fun e => [e; scaleEntry Z.opp e]) l)).
Proof.
  induction l as [|[c k] l IH]; [constructor|].
  cbn [flat_map app canonical fold_right scaleEntry fst snd].
  now apply mergeEntry_opposite.
Qed.

Lemma opposite_perm (l : list (Z * Key)) :
  Permutation (l ++ map (scaleEntry Z.opp) l)
              (flat_map (fun e => [e; scaleEntry Z.opp e]) l).
Proof.
  induction l as [|e l IH]; [constructor|].
  cbn [map app flat_map]. constructor.
  rewrite <- Permutation_middle. now constructor.
Qed.

Lemma reduced_zero l : Forall (fun e => fst e = 0) l ->
  filter nonZero (map normalizeEntry l) = [].
Proof.
  induction 1 as [|[c k] l Hc Hl IH]; [reflexivity|].
  cbn [map filter]. unfold normalizeEntry at 1, nonZero at 1, normalize.
  cbn [fst snd] in *. subst c. rewrite Zmod_0_l. exact IH.
Qed.

(** An expression and its negation reduce to the empty expression. *)
Lemma reduced_cancel l : reduced (l ++ map (scaleEntry Z.opp) l) = [].
Proof.
  unfold reduced. rewrite (canonical_perm _ _ (opposite_perm l)).
  apply reduced_zero, canonical_opposite.
Qed.

(** X2: Sub(i1, i2) emits nothing and returns a variable whose value is
    the value of i1 minus the value of i2; subtracting an operand from
    itself gives the empty expression, the constant zero, also for a
    dangling variable. *)
Theorem Sub_difference (cs : ConstraintSystem) (a b : operand)
  (R : reserved cs) (Wa : wfOperand cs a) (Wb : wfOperand cs b) :
  (exists r cs',
     Sub a b cs = Ok (r, cs') /\ grows cs cs' /\ wire r = None /\
     forall w, value cs' w (linExp r)
               = normalize (operandValue cs w a - operandValue cs w b)) /\
  (exists r cs', Sub a a cs = Ok (r, cs') /\ linExp r = []).
Proof.
  split.
  - destruct (Sub_ok a b cs R Wa Wb) as (r & cs' & E & G & _ & En & Wi & _).
    exists r, cs'. split; [exact E|]. split; [exact G|]. split; [exact Wi|].
    intros w. unfold value, operandValue.
    rewrite En, evalEntries_reduced, evalEntries_app, evalEntries_opp.
    unfold normalize. rewrite <- Zminus_mod. f_equal; lia.
  - destruct (Sub_ok a a cs R Wa Wa) as (r & cs' & E & _ & _ & En & _).
    exists r, cs'. split; [exact E|].
    rewrite reduced_cancel in En. exact (entries_nil_inv _ _ En).
Qed.

Lemma Neg_Var_ok t cs :
  reserved cs -> wfLinExp cs (linExp t) ->
  exists r cs',
    Neg (Var t) cs = Ok (r, cs') /\ grows cs cs' /\ wire r = None /\
    wfLinExp cs' (linExp r) /\
    entries cs' (linExp r) = map (scaleEntry Z.opp) (entries cs (linExp t)).
Proof.
  intros R W.
  destruct (negateLinExp_ok (linExp t) cs R W) as (l & cs' & E & G & W' & En).
  exists (setLinExp zeroVariable l), cs'. split.
  { cbn [Neg]. now rewrite (bind_ok _ _ _ _ _ E). }
  auto.
Qed.

(** X3: Neg(i) emits nothing and returns the opposite: for a constant k
    a variable of value -k, for a Variable the negation of its linear
    expression as it stands.  The variable is not completed first, so the
    negation of a dangling variable (a wire, no expression yet) is the
    empty expression, of value 0, and not the opposite of its wire. *)
Theorem Neg_opposite (cs : ConstraintSystem) (t : variable) (k : Z)
  (R : reserved cs) (W : wfLinExp cs (linExp t)) :
  (exists r cs',
     Neg (Var t) cs = Ok (r, cs') /\ grows cs cs' /\
     (forall w, value cs' w (linExp r) = normalize (- value cs w (linExp t))) /\
     (linExp t = [] -> linExp r = [])) /\
  (exists r cs',
     Neg (Const k) cs = Ok (r, cs') /\ grows cs cs' /\
     forall w, w (One, 0%nat) = 1 -> value cs' w (linExp r) = normalize (- k)).
Proof.
  split.
  - destruct (Neg_Var_ok t cs R W) as (r & cs' & E & G & _ & _ & En).
    exists r, cs'. split; [exact E|]. split; [exact G|]. split.
    + intros w. unfold value. rewrite En, evalEntries_opp. symmetry. apply normalize_opp.
    + intros Ht. rewrite Ht in En. exact (entries_nil_inv _ _ En).
  - cbn [Neg]. unfold FromInterface.
    destruct (Z.eqb_spec (- k) 1) as [Hk|Hk].
    + exists getOneVariable, cs. split; [reflexivity|]. split; [apply grows_refl|].
      intros w Hw. rewrite (value_getOneVariable _ _ R Hw). now rewrite Hk.
    + destruct (Constant_ok (Const (- k)) cs R I) as (r & cs' & E & G & _ & En).
      exists r, cs'. split; [now rewrite (bind_ok _ _ _ _ _ E)|].
      split; [exact G|]. intros w Hw. unfold value. rewrite En.
      exact (operandValue_Const cs w (- k) Hw).
Qed.

(** X4: adding a variable to its negation.  For a variable that carries
    its expression, Add(v, Neg(v)) is the empty expression.  For a
    dangling variable Neg(v) is empty while Add completes v, so the sum is
    v itself: the singleton of its wire. *)
Theorem Add_Neg (cs : ConstraintSystem) (v : variable)
  (R : reserved cs)
  (W : wfLinExp cs (linExp (completeDanglingVariable v))) :
  exists n cs1 r cs2,
    Neg (Var v) cs = Ok (n, cs1) /\
    Add (Var v) (Var n) [] cs1 = Ok (r, cs2) /\
    constraints cs2 = constraints cs /\
    (completeDanglingVariable v = v -> linExp r = []) /\
    (linExp v = [] ->
     entries cs2 (linExp r)
     = reduced (entries cs (linExp (completeDanglingVariable v)))).
Proof.
  assert (Wraw : wfLinExp cs (linExp v)).
  { destruct v as [[wr|] [|t l] b]; first [exact W | constructor]. }
  destruct (Neg_Var_ok v cs R Wraw) as (n & cs1 & E1 & G1 & Wi1 & W1 & En1).
  pose proof (grows_reserved _ _ G1 R) as R1.
  assert (Wn : wfOperand cs1 (Var n))
    by (cbn [wfOperand]; now rewrite (complete_no_wire _ Wi1)).
  destruct (Add_ok (Var v) (Var n) cs1 R1 (grows_wfLinExp _ _ _ G1 W) Wn)
    as (r & _ & cs2 & E2 & _ & _ & G2 & _ & En2 & _).
  exists n, cs1, r, cs2. split; [exact E1|]. split; [exact E2|].
  split; [now rewrite (grows_constraints _ _ G2), (grows_constraints _ _ G1)|].
  cbn [operandEntries] in En2.
  rewrite (complete_no_wire _ Wi1), En1, (grows_entries _ _ _ G1 W) in En2.
  split.
  - intros ND. rewrite ND in En2. rewrite reduced_cancel in En2.
    exact (entries_nil_inv _ _ En2).
  - intros Hv. rewrite Hv in En2. cbn [entries map] in En2.
    now rewrite app_nil_r in En2.
Qed.

(** *** Steps: composition and transfer of solutions *)

Lemma step_refl cs : step cs cs [] [].
Proof.
  constructor; auto using extends_refl; now rewrite app_nil_r.
Qed.

Lemma grows_step cs cs' : grows cs cs' -> step cs cs' [] [].
Proof.
  intros G. pose proof (grows_extends _ _ G) as X.
  destruct G as [g1 g2 g3 g4 g5 g6 _].
  constructor; auto; try (rewrite app_nil_r; congruence); lia.
Qed.

Lemma step_trans cs cs1 cs2 c1 a1 c2 a2 :
  step cs cs1 c1 a1 -> step cs1 cs2 c2 a2 ->
  step cs cs2 (c1 ++ c2) (a1 ++ a2).
Proof.
  intros [x1 k1 b1 w1] [x2 k2 b2 w2].
  constructor.
  - eapply extends_trans; eauto.
  - now rewrite k2, k1, app_assoc.
  - now rewrite b2, b1, app_assoc.
  - rewrite Forall_app in w1, w2. destruct w1 as [wc1 wa1], w2 as [wc2 wa2].
    rewrite map_app, !Forall_app. repeat split; auto;
      eapply Forall_impl; [| exact wc1 | | exact wa1];
      intros c; apply extends_wfR1C; assumption.
Qed.

Lemma step_reserved cs cs' cN aN : step cs cs' cN aN -> reserved cs -> reserved cs'.
Proof. intros S. apply extends_reserved, S. Qed.

Lemma solves_app cs w l1 l2 :
  solves cs w (l1 ++ l2) <-> solves cs w l1 /\ solves cs w l2.
Proof. unfold solves. rewrite Forall_app. tauto. Qed.

Lemma solves_nil cs w : w (One, 0%nat) = 1 -> solves cs w [].
Proof. split; [assumption|constructor]. Qed.

Lemma solves_one cs w l : solves cs w l -> w (One, 0%nat) = 1.
Proof. now intros [H _]. Qed.

Lemma solves_cons cs w c l :
  solves cs w (c :: l) <-> satisfied cs w c /\ solves cs w l.
Proof.
  unfold solves. split.
  - intros [H F]. inversion F; subst. auto.
  - intros [S [H F]]. auto.
Qed.

Lemma solves_extends cs cs' w l :
  extends cs cs' -> Forall (wfR1C cs) l ->
  solves cs' w l -> solves cs w l.
Proof.
  intros X W [H F]. split; [exact H|].
  rewrite Forall_forall in *. intros c Hc.
  destruct (W c Hc) as (WL & WR & WO).
  apply (extends_satisfied cs cs' w c X WL WR WO). auto.
Qed.

(** *** Values of the primitive operations in any later system *)

Ltac ext :=
  eauto 8 using extends_refl, extends_trans, grows_extends, step_extends.

Lemma wfOperand_Var cs r :
  completeDanglingVariable r = r -> wfLinExp cs (linExp r) ->
  wfOperand cs (Var r).
Proof. intros C W. cbn [wfOperand]. now rewrite C. Qed.

Lemma operandValue_Var cs w r :
  completeDanglingVariable r = r ->
  operandValue cs w (Var r) = value cs w (linExp r).
Proof. intros C. unfold operandValue, value. cbn [operandEntries]. now rewrite C. Qed.


Lemma value_internalVariable cs w n :
  reserved cs ->
  value cs w (linExp (internalVariable n)) = normalize (w (Internal, n)).
Proof.
  intros R. unfold value. rewrite (entries_internalVariable _ _ R).
  cbn [evalEntries fold_right fst snd]. f_equal. lia.
Qed.

Lemma Constant_Const_val k cs :
  reserved cs ->
  exists r cs',
    Constant (Const k) cs = Ok (r, cs') /\ grows cs cs' /\
    wfLinExp cs' (linExp r) /\ completeDanglingVariable r = r /\
    forall csF w, extends cs' csF -> w (One, 0%nat) = 1 ->
      value csF w (linExp r) = normalize k.
Proof.
  intros R.
  destruct (Constant_ok (Const k) cs R I) as (r & cs' & E & G & W & En).
  exists r, cs'. split; [exact E|]. split; [exact G|]. split; [exact W|].
  split.
  - cbn [Constant] in E. unfold FromInterface in E.
    destruct (k =? 1).
    + inversion E; subst. reflexivity.
    + destruct (mulConstant_ok k getOneVariable cs R (wf_getOneVariable _ R))
        as (r0 & cs0 & E0 & _ & _ & Wi & _).
      rewrite E0 in E. inversion E; subst. now apply complete_no_wire.
  - intros csF w X Hw. rewrite (extends_value _ _ _ _ X W).
    unfold value. rewrite En. exact (operandValue_Const cs w k Hw).
Qed.

Lemma Sub_val a b cs :
  reserved cs -> wfOperand cs a -> wfOperand cs b ->
  exists r cs',
    Sub a b cs = Ok (r, cs') /\ grows cs cs' /\
    wfLinExp cs' (linExp r) /\ completeDanglingVariable r = r /\
    forall csF w, extends cs' csF ->
      value csF w (linExp r)
      = normalize (operandValue csF w a - operandValue csF w b).
Proof.
  intros R Wa Wb.
  destruct (Sub_ok a b cs R Wa Wb) as (r & cs' & E & G & W & En & Wi & _).
  exists r, cs'. split; [exact E|]. split; [exact G|]. split; [exact W|].
  split; [now apply complete_no_wire|].
  intros csF w X. rewrite (extends_value _ _ _ _ X W).
  assert (X0 : extends cs csF) by ext.
  rewrite (extends_operandValue _ _ w _ X0 Wa), (extends_operandValue _ _ w _ X0 Wb).
  unfold value, operandValue.
  rewrite En, evalEntries_reduced, evalEntries_app, evalEntries_opp.
  unfold normalize. rewrite <- Zminus_mod. f_equal; lia.
Qed.

Lemma Add_val a b cs :
  reserved cs -> wfOperand cs a -> wfOperand cs b ->
  exists r cs',
    Add a b [] cs = Ok (r, cs') /\ grows cs cs' /\
    wfLinExp cs' (linExp r) /\ completeDanglingVariable r = r /\
    forall csF w, extends cs' csF ->
      value csF w (linExp r)
      = normalize (operandValue csF w a + operandValue csF w b).
Proof.
  intros R Wa Wb.
  destruct (Add_ok a b cs R Wa Wb)
    as (r & _ & cs' & E & _ & _ & G & W & En & Wi & _).
  exists r, cs'. split; [exact E|]. split; [exact G|]. split; [exact W|].
  split; [now apply complete_no_wire|].
  intros csF w X. rewrite (extends_value _ _ _ _ X W).
  assert (X0 : extends cs csF) by ext.
  rewrite (extends_operandValue _ _ w _ X0 Wa), (extends_operandValue _ _ w _ X0 Wb).
  unfold value, operandValue.
  rewrite En, evalEntries_reduced, evalEntries_app.
  symmetry. apply normalize_add.
Qed.

Lemma mulConstant_val k v cs :
  reserved cs -> wfLinExp cs (linExp v) ->
  exists r cs',
    mulConstant k v cs = Ok (r, cs') /\ grows cs cs' /\
    wfLinExp cs' (linExp r) /\ completeDanglingVariable r = r /\
    forall csF w, extends cs' csF ->
      value csF w (linExp r) = normalize (k * value csF w (linExp v)).
Proof.
  intros R W.
  destruct (mulConstant_ok k v cs R W) as (r & cs' & E & G & W' & Wi & _ & En).
  exists r, cs'. split; [exact E|]. split; [exact G|]. split; [exact W'|].
  split; [now apply complete_no_wire|].
  intros csF w X. rewrite (extends_value _ _ _ _ X W').
  assert (X0 : extends cs csF) by ext.
  rewrite (extends_value _ _ w _ X0 W).
  unfold value. rewrite En, evalEntries_scale.
  symmetry. apply normalize_mul_r.
Qed.

(** The closure of Mul on two operands. *)
Lemma mul_val a b cs :
  reserved cs -> wfOperand cs a -> wfOperand cs b ->
  exists r cs' cN,
    mul a b cs = Ok (r, cs') /\ step cs cs' cN [] /\
    List.length cN = (if isVar a && isVar b then 1 else 0)%nat /\
    wfLinExp cs' (linExp r) /\ completeDanglingVariable r = r /\
    forall csF w, extends cs' csF -> solves csF w cN ->
      value csF w (linExp r)
      = normalize (operandValue csF w a * operandValue csF w b).
Proof.
  intros R Wa Wb. destruct a as [x|ka], b as [y|kb]; cbn [wfOperand] in *.
  - pose proof (Mul_Var_Var x y cs) as E. rewrite Mul_nil, bind_ret_r in E.
    eexists _, _, [_]. split; [exact E|].
    assert (X : extends cs
                  (mkCS (nbPublic cs) (nbSecret cs) (S (nbInternal cs)) (coeffs cs)
                     (constraints cs ++
                        [mkR1C (linExp (completeDanglingVariable x))
                           (linExp (completeDanglingVariable y))
                           (linExp (internalVariable (nbInternal cs)))
                           SingleOutput])
                     (assertions cs) (logs cs)))
      by (now apply same_coeffs_extends).
    split.
    { constructor; cbn; auto; [now rewrite app_nil_r|].
      constructor; [|constructor].
      repeat split; cbn; eapply extends_wfLinExp; eauto.
      now apply wf_internalVariable. }
    split; [reflexivity|].
    split; [eapply extends_wfLinExp; eauto; now apply wf_internalVariable|].
    split; [apply complete_internalVariable|].
    intros csF w XF S. apply solves_cons in S. destruct S as [S _].
    symmetry. exact S.
  - destruct (mulConstant_val kb _ cs R Wa) as (r & cs' & E & G & W & C & V).
    exists r, cs', []. split; [exact E|]. split; [now apply grows_step|].
    split; [reflexivity|]. split; [exact W|]. split; [exact C|].
    intros csF w X S. rewrite (V csF w X).
    rewrite (operandValue_Const csF w kb (solves_one _ _ _ S)).
    rewrite normalize_mul_r. f_equal.
    change (operandValue csF w (Var x))
      with (value csF w (linExp (completeDanglingVariable x))). lia.
  - destruct (mulConstant_val ka _ cs R Wb) as (r & cs' & E & G & W & C & V).
    exists r, cs', []. split; [exact E|]. split; [now apply grows_step|].
    split; [reflexivity|]. split; [exact W|]. split; [exact C|].
    intros csF w X S. rewrite (V csF w X).
    rewrite (operandValue_Const csF w ka (solves_one _ _ _ S)).
    rewrite (Z.mul_comm (normalize ka)), normalize_mul_r. f_equal.
    change (operandValue csF w (Var y))
      with (value csF w (linExp (completeDanglingVariable y))). lia.
  - destruct (Constant_Const_val (ka * kb) cs R) as (r & cs' & E & G & W & C & V).
    exists r, cs', []. split; [exact E|]. split; [now apply grows_step|].
    split; [reflexivity|]. split; [exact W|]. split; [exact C|].
    intros csF w X S. pose proof (solves_one _ _ _ S) as Hw.
    rewrite (V csF w X Hw), !(operandValue_Const csF w _ Hw).
    symmetry. apply normalize_mul.
Qed.

Lemma foldM_mul_val rest : forall res cs,
  reserved cs -> wfLinExp cs (linExp res) -> completeDanglingVariable res = res ->
  Forall (wfOperand cs) rest ->
  exists r cs' cN,
    foldM (fun res i => mul (Var res) i) rest res cs = Ok (r, cs') /\
    step cs cs' cN [] /\
    List.length cN = List.length (filter isVar rest) /\
    wfLinExp cs' (linExp r) /\ completeDanglingVariable r = r /\
    forall csF w, extends cs' csF -> solves csF w cN ->
      value csF w (linExp r)
      = normalize (value csF w (linExp res) * productValues csF w rest).
Proof.
  induction rest as [|i rest IH]; intros res cs R W C F.
  - exists res, cs, []. split; [reflexivity|]. split; [apply step_refl|].
    split; [reflexivity|]. split; [exact W|]. split; [exact C|].
    intros csF w _ _. cbn [productValues fold_right].
    rewrite Z.mul_1_r. symmetry. apply value_normalized.
  - inversion F as [|? ? Wi Wr]; subst.
    destruct (mul_val (Var res) i cs R (wfOperand_Var _ _ C W) Wi)
      as (r1 & cs1 & c1 & E1 & S1 & L1 & W1 & C1 & V1).
    pose proof (step_reserved _ _ _ _ S1 R) as R1.
    assert (F1 : Forall (wfOperand cs1) rest).
    { eapply Forall_impl; [|exact Wr]. intros o.
      apply extends_wfOperand. ext. }
    destruct (IH r1 cs1 R1 W1 C1 F1)
      as (r & cs' & c2 & E2 & S2 & L2 & W2 & C2 & V2).
    exists r, cs', (c1 ++ c2). split.
    { cbn [foldM]. now rewrite (bind_ok _ _ _ _ _ E1). }
    split; [exact (step_trans _ _ _ _ _ _ _ S1 S2)|].
    split.
    { rewrite length_app, L1, L2. cbn [filter isVar].
      destruct i; cbn; lia. }
    split; [exact W2|]. split; [exact C2|].
    intros csF w X S. apply solves_app in S. destruct S as [Sa Sb].
    rewrite (V2 csF w X Sb), (V1 csF w) by ext.
    rewrite (operandValue_Var _ _ _ C).
    cbn [productValues fold_right]. fold (productValues csF w rest).
    rewrite (Z.mul_comm (normalize _)), normalize_mul_r. f_equal. lia.
Qed.

(** X5: Mul(i1, i2, in...) multiplies from left to right.  It appends one
    constraint when i1 and i2 are both Variables and one more for every
    Variable among the further operands, adds no assertion, and under
    every witness that satisfies these constraints the result has the
    product of the values of all operands. *)
Theorem Mul_product (cs : ConstraintSystem) (i1 i2 : operand)
  (rest : list operand) (R : reserved cs)
  (W : Forall (wfOperand cs) (i1 :: i2 :: rest)) :
  exists r cs' cN,
    Mul i1 i2 rest cs = Ok (r, cs') /\
    constraints cs' = constraints cs ++ cN /\
    List.length cN = mulConstraints i1 i2 rest /\
    assertions cs' = assertions cs /\
    forall w, solves cs' w cN ->
      value cs' w (linExp r)
      = normalize (productValues cs w (i1 :: i2 :: rest)).
Proof.
  inversion W as [|? ? W1 W']; subst. inversion W' as [|? ? W2 Wr]; subst.
  destruct (mul_val i1 i2 cs R W1 W2)
    as (r1 & cs1 & c1 & E1 & S1 & L1 & Wf1 & C1 & V1).
  assert (F1 : Forall (wfOperand cs1) rest).
  { eapply Forall_impl; [|exact Wr]. intros o. apply extends_wfOperand. ext. }
  destruct (foldM_mul_val rest r1 cs1 (step_reserved _ _ _ _ S1 R) Wf1 C1 F1)
    as (r & cs' & c2 & E2 & S2 & L2 & Wf2 & C2 & V2).
  pose proof (step_trans _ _ _ _ _ _ _ S1 S2) as S.
  exists r, cs', (c1 ++ c2). split.
  { unfold Mul. now rewrite (bind_ok _ _ _ _ _ E1). }
  split; [apply S|]. split.
  { rewrite length_app, L1, L2. reflexivity. }
  split.
  { rewrite (step_assertions _ _ _ _ S). apply app_nil_r. }
  intros w Sv. apply solves_app in Sv. destruct Sv as [Sa Sb].
  rewrite (V2 cs' w (extends_refl _) Sb), (V1 cs' w) by ext.
  assert (X : extends cs cs') by ext.
  assert (P : forall l, Forall (wfOperand cs) l ->
                        productValues cs' w l = productValues cs w l).
  { induction 1 as [|o l Ho Hl IH]; [reflexivity|].
    cbn [productValues fold_right]. fold (productValues cs' w l).
    fold (productValues cs w l).
    now rewrite IH, (extends_operandValue _ _ w _ X Ho). }
  rewrite <- (P _ W). cbn [productValues fold_right].
  fold (productValues cs' w rest).
  rewrite (Z.mul_comm (normalize _)), normalize_mul_r. f_equal. lia.
Qed.

(** *** Inverse and Div *)

Lemma normalize_one : 1 < q -> normalize 1 = 1.
Proof. intros Hq. unfold normalize. apply Z.mod_small. lia. Qed.

Lemma normalize_zero : normalize 0 = 0.
Proof. unfold normalize. apply Zmod_0_l. Qed.

(** X6: Inverse(v) allocates one internal wire and appends the single
    constraint v * res = 1.  A witness satisfies it exactly when the
    wire holds an inverse of v in the field; when v is 0 no witness
    does: the division by zero shows as an unsatisfiable system, not as
    a panic of the builder. *)
Theorem Inverse_spec (cs : ConstraintSystem) (v : variable)
  (R : reserved cs)
  (W : wfLinExp cs (linExp (completeDanglingVariable v))) :
  exists cs' c,
    Inverse v cs = Ok (internalVariable (nbInternal cs), cs') /\
    nbInternal cs' = S (nbInternal cs) /\
    constraints cs' = constraints cs ++ [c] /\
    assertions cs' = assertions cs /\
    forall w, w (One, 0%nat) = 1 ->
      (satisfied cs' w c <->
       normalize (value cs w (linExp (completeDanglingVariable v))
                  * w (Internal, nbInternal cs)) = normalize 1) /\
      (1 < q -> value cs w (linExp (completeDanglingVariable v)) = 0 ->
       ~ satisfied cs' w c).
Proof.
  eexists _, _. split; [reflexivity|]. cbn [nbInternal constraints assertions].
  split; [reflexivity|]. split; [reflexivity|]. split; [reflexivity|].
  intros w Hw.
  set (cs' := mkCS _ _ _ _ _ _ _).
  assert (Ec : coeffs cs' = coeffs cs) by reflexivity.
  assert (S : satisfied cs' w
                (newR1C (completeDanglingVariable v)
                        (internalVariable (nbInternal cs)) getOneVariable None)
              <-> normalize (value cs w (linExp (completeDanglingVariable v))
                             * w (Internal, nbInternal cs)) = normalize 1).
  { unfold satisfied. unfold newR1C, Clone. cbn [R1C_L R1C_R R1C_O].
    rewrite !(same_coeffs_value _ _ w _ Ec).
    rewrite (value_internalVariable _ w _ R), (value_getOneVariable _ _ R Hw).
    now rewrite normalize_mul_r. }
  split; [exact S|].
  intros Hq Hv Hs. apply S in Hs. rewrite Hv, Z.mul_0_l in Hs.
  rewrite normalize_zero, (normalize_one Hq) in Hs. discriminate.
Qed.

Lemma Div_unfold i1 i2 cs :
  Div i1 i2 cs =
  (res <- newInternalVariable ;;
   a <- Constant i1 ;;
   b <- Constant i2 ;;
   appendConstraint (newR1C b res a None) ;;;
   ret res) cs.
Proof.
  destruct i1 as [t1|k1], i2 as [t2|k2]; unfold Div, bind;
    rewrite newInternalVariable_eq; cbv beta iota.
  - reflexivity.
  - change (Constant (Var t1)) with (ret (completeDanglingVariable t1)).
    unfold ret. cbv beta iota.
    destruct (Constant (Const k2) _) as [[? ?]|]; reflexivity.
  - change (Constant (Var t2)) with (ret (completeDanglingVariable t2)).
    unfold ret. cbv beta iota.
    destruct (Constant (Const k1) _) as [[? ?]|]; reflexivity.
  - destruct (Constant (Const k1) _) as [[? ?]|]; [|reflexivity].
    destruct (Constant (Const k2) _) as [[? ?]|]; reflexivity.
Qed.

(** X7: Div(i1, i2) allocates its result wire first and appends the
    single constraint i2 * res = i1, whatever the types of the operands:
    two constants are not folded.  A witness satisfies the constraint
    exactly when res times the value of i2 is the value of i1. *)
Theorem Div_spec (cs : ConstraintSystem) (i1 i2 : operand)
  (R : reserved cs) (W1 : wfOperand cs i1) (W2 : wfOperand cs i2) :
  exists cs' c,
    Div i1 i2 cs = Ok (internalVariable (nbInternal cs), cs') /\
    nbInternal cs' = S (nbInternal cs) /\
    constraints cs' = constraints cs ++ [c] /\
    assertions cs' = assertions cs /\
    forall w, w (One, 0%nat) = 1 ->
      (satisfied cs' w c <->
       normalize (operandValue cs w i2 * w (Internal, nbInternal cs))
       = operandValue cs w i1).
Proof.
  rewrite Div_unfold. unfold bind at 1. rewrite newInternalVariable_eq.
  cbv beta iota.
  set (cs0 := mkCS _ _ _ _ _ _ _).
  assert (Ec : coeffs cs0 = coeffs cs) by reflexivity.
  pose proof (same_coeffs_extends _ _ Ec) as X0.
  pose proof (same_coeffs_reserved _ _ Ec R) as R0.
  destruct (Constant_ok i1 cs0 R0 (extends_wfOperand _ _ _ X0 W1))
    as (a & cs1 & E1 & G1 & Wa & Ena).
  pose proof (grows_reserved _ _ G1 R0) as R1.
  assert (X1 : extends cs cs1) by ext.
  destruct (Constant_ok i2 cs1 R1 (extends_wfOperand _ _ _ X1 W2))
    as (b & cs2 & E2 & G2 & Wb & Enb).
  eexists _, _. split.
  { rewrite (bind_ok _ _ _ _ _ E1), (bind_ok _ _ _ _ _ E2). reflexivity. }
  cbn [nbInternal constraints assertions].
  split; [now rewrite (grows_internal _ _ G2), (grows_internal _ _ G1)|].
  split; [now rewrite (grows_constraints _ _ G2), (grows_constraints _ _ G1)|].
  split; [now rewrite (grows_assertions _ _ G2), (grows_assertions _ _ G1)|].
  intros w Hw.
  set (cs' := mkCS _ _ _ _ _ _ _).
  assert (Ec' : coeffs cs' = coeffs cs2) by reflexivity.
  unfold satisfied. unfold newR1C, Clone. cbn [R1C_L R1C_R R1C_O].
  rewrite !(same_coeffs_value _ _ w _ Ec').
  rewrite (value_internalVariable _ w _ (grows_reserved _ _ G2 R1)).
  rewrite (grows_value _ _ w _ G2 Wa).
  unfold value. rewrite Ena, Enb.
  fold (operandValue cs1 w i2). fold (operandValue cs0 w i1).
  rewrite (extends_operandValue _ _ w _ X1 W2), (extends_operandValue _ _ w _ X0 W1).
  now rewrite normalize_mul_r.
Qed.

(** *** Assertions: equality and booleans *)

Lemma buildLogEntryFromVariable_ok v cs :
  wfLinExp cs (linExp v) ->
  exists e, buildLogEntryFromVariable v cs = Ok (e, cs) /\
            toResolve e = linExp v.
Proof.
  intros W. unfold buildLogEntryFromVariable.
  assert (H : exists parts,
             mapM (fun t => c <- getCoeff (CoeffID t) ;;
                            ret ("(%s * " ++ bigIntString c ++ ")")%string)
                  (linExp v) cs = Ok (parts, cs)).
  { induction W as [|t l Wt Wl IH].
    - now exists [].
    - destruct IH as (parts & E).
      eexists. cbn [mapM].
      erewrite bind_ok; [|erewrite bind_ok; [reflexivity|now apply getCoeff_ok]].
      now rewrite (bind_ok _ _ _ _ _ E). }
  destruct H as (parts & E). eexists.
  rewrite (bind_ok _ _ _ _ _ E). split; reflexivity.
Qed.

Lemma AssertIsEqual_ok i1 i2 cs :
  reserved cs -> wfOperand cs i1 -> wfOperand cs i2 ->
  exists l cs1 o cs2 e,
    Constant i1 cs = Ok (l, cs1) /\ Constant i2 cs1 = Ok (o, cs2) /\
    grows cs cs1 /\ grows cs1 cs2 /\
    wfLinExp cs1 (linExp l) /\ wfLinExp cs2 (linExp o) /\
    entries cs1 (linExp l) = operandEntries cs i1 /\
    entries cs2 (linExp o) = operandEntries cs i2 /\
    toResolve e = linExp l ++ linExp o /\
    AssertIsEqual i1 i2 cs
    = Ok (tt, mkCS (nbPublic cs2) (nbSecret cs2) (nbInternal cs2) (coeffs cs2)
                   (constraints cs2)
                   (assertions cs2
                    ++ [(newR1C l getOneVariable o None, List.length (logs cs2))])
                   (logs cs2 ++ [e])).
Proof.
  intros R W1 W2.
  destruct (Constant_ok i1 cs R W1) as (l & cs1 & E1 & G1 & Wl & Enl).
  pose proof (grows_reserved _ _ G1 R) as R1.
  destruct (Constant_ok i2 cs1 R1 (grows_wfOperand _ _ _ G1 W2))
    as (o & cs2 & E2 & G2 & Wo & Eno).
  destruct (buildLogEntryFromVariable_ok l cs2 (grows_wfLinExp _ _ _ G2 Wl))
    as (lhs & EL & TL).
  destruct (buildLogEntryFromVariable_ok o cs2 Wo) as (rhs & ER & TR).
  exists l, cs1, o, cs2.
  eexists (mkLogEntry _ (toResolve lhs ++ toResolve rhs)).
  split; [exact E1|]. split; [exact E2|]. split; [exact G1|]. split; [exact G2|].
  split; [exact Wl|]. split; [exact Wo|]. split; [exact Enl|].
  split; [now rewrite Eno, (grows_operandEntries _ _ _ G1 W2)|].
  split; [cbn [toResolve]; now rewrite TL, TR|].
  unfold AssertIsEqual. rewrite (bind_ok _ _ _ _ _ E1).
  change (Constant (Const 1)) with (ret getOneVariable).
  unfold bind at 1, ret at 1. cbv beta iota.
  rewrite (bind_ok _ _ _ _ _ E2), (bind_ok _ _ _ _ _ EL), (bind_ok _ _ _ _ _ ER).
  reflexivity.
Qed.

Lemma equality_meaning cs cs' w l o :
  reserved cs -> coeffs cs' = coeffs cs -> w (One, 0%nat) = 1 ->
  (satisfied cs' w (newR1C l getOneVariable o None) <->
   value cs w (linExp l) = value cs w (linExp o)).
Proof.
  intros R Ec Hw. unfold satisfied, newR1C, Clone. cbn [R1C_L R1C_R R1C_O].
  rewrite !(same_coeffs_value _ _ w _ Ec), (value_getOneVariable _ _ R Hw).
  rewrite normalize_mul_r, Z.mul_1_r, value_normalized. tauto.
Qed.


(** X9: Define of the circuit without computation, which asserts A == B:
    the system gets no constraint, no wire and no coefficient, only one
    assertion, and a witness satisfies it exactly when A and B have the
    same value. *)
Theorem noComputationCircuit_no_constraint (cs : ConstraintSystem)
  (A B : variable) (R : reserved cs)
  (WA : wfLinExp cs (linExp (completeDanglingVariable A)))
  (WB : wfLinExp cs (linExp (completeDanglingVariable B))) :
  exists cs' c,
    noComputationCircuit_Define A B cs = Ok (tt, cs') /\
    constraints cs' = constraints cs /\
    nbInternal cs' = nbInternal cs /\
    coeffs cs' = coeffs cs /\
    assertions cs' = assertions cs ++ [(c, List.length (logs cs))] /\
    forall w, w (One, 0%nat) = 1 ->
      (satisfied cs' w c <->
       value cs w (linExp (completeDanglingVariable A))
       = value cs w (linExp (completeDanglingVariable B))).
Proof.
  destruct (AssertIsEqual_ok (Var A) (Var B) cs R WA WB)
    as (l & cs1 & o & cs2 & e & E1 & E2 & _ & _ & _ & _ & _ & _ & _ & E).
  cbn [Constant] in E1. inversion E1; subst l cs1.
  cbn [Constant] in E2. inversion E2; subst o cs2.
  eexists _, _. split; [exact E|]. cbn [constraints nbInternal assertions coeffs].
  split; [reflexivity|]. split; [reflexivity|]. split; [reflexivity|].
  split; [reflexivity|].
  intros w Hw. now apply equality_meaning.
Qed.

Lemma boolean_prime x :
  Z.prime q -> 0 <= x < q ->
  (normalize (x * (1 - x)) = 0 <-> x = 0 \/ x = 1).
Proof.
  intros P Hx. pose proof (Z.prime_ge_2 _ P) as Hq. unfold normalize. split.
  - intros H. apply Z.mod_divide in H; [|lia].
    apply (Z.divide_prime_mul _ _ _ P) in H. destruct H as [[k Hk]|[k Hk]].
    + left. assert (k = 0) by nia. subst k. lia.
    + right. assert (k = 0) by nia. subst k. lia.
  - intros [->| ->]; reflexivity.
Qed.

Lemma value_bounds cs w l : 0 < q -> 0 <= value cs w l < q.
Proof. intros Hq. unfold value, normalize. now apply Z.mod_pos_bound. Qed.

(** X10: over a prime field, AssertIsBoolean(v) on a variable that does not
    carry the boolean flag adds one assertion and no constraint, and a
    witness satisfies the assertion exactly when v is 0 or 1.  On a
    variable that carries the flag the call changes nothing. *)
Theorem AssertIsBoolean_sound (cs : ConstraintSystem) (v : variable)
  (P : Z.prime q) (R : reserved cs)
  (W : wfLinExp cs (linExp (completeDanglingVariable v))) :
  (isBoolean v = true -> AssertIsBoolean v cs = Ok (tt, cs)) /\
  (isBoolean v = false ->
   exists cs' c,
     AssertIsBoolean v cs = Ok (tt, cs') /\
     constraints cs' = constraints cs /\
     assertions cs' = assertions cs ++ [(c, List.length (logs cs))] /\
     forall w, w (One, 0%nat) = 1 ->
       (satisfied cs' w c <->
        value cs w (linExp (completeDanglingVariable v)) = 0 \/
        value cs w (linExp (completeDanglingVariable v)) = 1)).
Proof.
  split.
  - intros F. apply (AssertIsBoolean_of_body _ _ (completeDanglingVariable v)).
    now apply assertIsBooleanBody_flagged.
  - intros F.
    destruct (assertIsBooleanBody_ok v cs R W F)
      as (cs' & c & E & X & _ & _ & _ & Ec & Ea & _ & EL & ES & WR & WO & ER & EO).
    exists cs', c. split; [exact (AssertIsBoolean_of_body _ _ _ _ E)|].
    split; [exact Ec|]. split; [exact Ea|].
    intros w Hw.
    assert (B : isBooleanAssertion cs' (completeDanglingVariable v) c).
    { split; [exact EL|]. split.
      { now rewrite ER, (extends_entries _ _ _ X W). }
      split; [exact EO|]. split; [exact ES|].
      split; [|split]; try assumption.
      rewrite EL. eapply extends_wfLinExp; eauto. }
    rewrite (isBooleanAssertion_meaning _ _ _ w B Hw).
    rewrite (extends_value _ _ w _ X W).
    apply boolean_prime; [exact P|].
    apply value_bounds. pose proof (Z.prime_ge_2 _ P). lia.
Qed.


(** *** Boolean gadgets *)


Lemma normalize_sub_l a b : normalize (normalize a - b) = normalize (a - b).
Proof. unfold normalize. apply Zminus_mod_idemp_l. Qed.

Lemma normalize_mul_l a b : normalize (normalize a * b) = normalize (a * b).
Proof. unfold normalize. apply Zmult_mod_idemp_l. Qed.

Lemma normalize_add_l a b : normalize (normalize a + b) = normalize (a + b).
Proof. unfold normalize. apply Zplus_mod_idemp_l. Qed.


(** From [lhs = z - o] in the field, [z = lhs + o]. *)
Lemma normalize_solve_l lhs o z :
  normalize lhs = normalize (z - o) -> normalize z = normalize (lhs + o).
Proof.
  intros H. rewrite <- normalize_add_l, H, normalize_add_l. f_equal. lia.
Qed.

Lemma newInternalVariable_step cs :
  step cs (mkCS (nbPublic cs) (nbSecret cs) (S (nbInternal cs)) (coeffs cs)
                (constraints cs) (assertions cs) (logs cs)) [] [].
Proof.
  constructor; cbn; auto; try (now rewrite app_nil_r);
    now apply same_coeffs_extends.
Qed.

Lemma appendConstraint_step c cs :
  wfR1C cs c ->
  step cs (mkCS (nbPublic cs) (nbSecret cs) (nbInternal cs) (coeffs cs)
                (constraints cs ++ [c]) (assertions cs) (logs cs)) [c] [].
Proof.
  intros W. constructor; cbn; auto; try (now rewrite app_nil_r);
    try (now apply same_coeffs_extends);
    try (constructor; [|constructor]; eapply same_coeffs_wfR1C; [|exact W];
         reflexivity).
Qed.

Lemma addAssertion_step c e cs :
  wfR1C cs c ->
  step cs (mkCS (nbPublic cs) (nbSecret cs) (nbInternal cs) (coeffs cs)
                (constraints cs)
                (assertions cs ++ [(c, List.length (logs cs))])
                (logs cs ++ [e])) [] [(c, List.length (logs cs))].
Proof.
  intros W. constructor; cbn; auto; try (now rewrite app_nil_r);
    try (now apply same_coeffs_extends);
    try (constructor; [|constructor]; eapply same_coeffs_wfR1C; [|exact W];
         reflexivity).
Qed.

(** *** The boolean assertions a call adds *)

Lemma booleanAssertions_app cs l1 l2 a1 a2 :
  booleanAssertions cs l1 a1 -> booleanAssertions cs l2 a2 ->
  booleanAssertions cs (l1 ++ l2) (a1 ++ a2).
Proof.
  unfold booleanAssertions, unflagged. intros H1 H2.
  rewrite filter_app. now apply Forall2_app.
Qed.

Lemma booleanAssertions_extends cs cs' vars aN :
  extends cs cs' -> booleanAssertions cs vars aN -> booleanAssertions cs' vars aN.
Proof.
  unfold booleanAssertions. intros X F.
  induction F as [|v s vs ss Hv F IH]; constructor; [|exact IH].
  pose proof Hv as (HL & _ & _ & _ & HW).
  apply (isBooleanAssertion_extends cs); [exact X| |exact Hv].
  rewrite <- HL. apply HW.
Qed.

Lemma booleanAssertions_complete cs vars aN :
  booleanAssertions cs (map completeDanglingVariable vars) aN ->
  booleanAssertions cs vars aN.
Proof.
  unfold booleanAssertions, unflagged. revert aN.
  induction vars as [|v vars IH]; intros aN F; [inversion F; constructor|].
  cbn [map filter] in *. rewrite complete_isBoolean in F.
  destruct (isBoolean v); cbn [negb] in *; [now apply IH|].
  inversion F as [|? s ? ss Hv F']; subst. constructor; [|now apply IH].
  now rewrite complete_idem in Hv.
Qed.

Lemma booleanAssertions_bits cs (l : list nat) (aN : list (R1C * nat)) :
  Forall2 (fun b s => isBooleanAssertion cs b (fst s))
          (map internalVariable l) aN ->
  booleanAssertions cs (map internalVariable l) aN.
Proof.
  unfold booleanAssertions, unflagged. revert aN.
  induction l as [|k l IH]; intros aN F; [inversion F; constructor|].
  cbn [map filter isBoolean internalVariable negb] in *.
  inversion F as [|? s ? ss Hv F']; subst. constructor; [|now apply IH].
  now rewrite complete_internalVariable.
Qed.

Lemma AssertIsBoolean_step v cs :
  reserved cs -> wfLinExp cs (linExp (completeDanglingVariable v)) ->
  exists cs' aN,
    AssertIsBoolean v cs = Ok (tt, cs') /\ step cs cs' [] aN /\
    nbInternal cs' = nbInternal cs /\
    List.length aN = (if isBoolean v then 0 else 1)%nat /\
    (forall csF w, extends cs' csF -> solves csF w (map fst aN) ->
       isBoolean v = false ->
       normalize (value csF w (linExp (completeDanglingVariable v))
                  * (1 - value csF w (linExp (completeDanglingVariable v)))) = 0) /\
    booleanAssertions cs' [v] aN.
Proof.
  intros R W. unfold booleanAssertions, unflagged. cbn [filter].
  destruct (isBoolean v) eqn:F; cbn [negb].
  - exists cs, []. split.
    { apply (AssertIsBoolean_of_body _ _ (completeDanglingVariable v)).
      now apply assertIsBooleanBody_flagged. }
    split; [apply step_refl|]. split; [reflexivity|]. split; [reflexivity|].
    split; [discriminate|constructor].
  - destruct (assertIsBooleanBody_ok v cs R W F)
      as (cs' & c & E & X & Np & Ns & Ni & Ec & Ea & _ & EL & ES & WR & WO & ER & EO).
    assert (B : isBooleanAssertion cs' (completeDanglingVariable v) c).
    { split; [exact EL|]. split.
      { now rewrite ER, (extends_entries _ _ _ X W). }
      split; [exact EO|]. split; [exact ES|].
      split; [|split]; try assumption.
      rewrite EL. eapply extends_wfLinExp; eauto. }
    exists cs', [(c, List.length (logs cs))].
    split; [exact (AssertIsBoolean_of_body _ _ _ _ E)|].
    split.
    { constructor; auto; try lia; [now rewrite app_nil_r|].
      constructor; [|constructor]. apply B. }
    split; [exact Ni|]. split; [reflexivity|].
    split; [|constructor; [exact B|constructor]].
    intros csF w XF S _. cbn [map fst] in S.
    apply solves_cons in S. destruct S as [S [Hw _]].
    assert (B' : isBooleanAssertion csF (completeDanglingVariable v) c).
    { eapply isBooleanAssertion_extends; eauto.
      eapply extends_wfLinExp; eauto. }
    now apply (isBooleanAssertion_meaning _ _ _ w B' Hw).
Qed.





(** *** Binary decomposition and recomposition *)

Lemma binaryValue_snoc l x :
  binaryValue (l ++ [x]) = binaryValue l + 2 ^ Z.of_nat (List.length l) * x.
Proof.
  induction l as [|b l IH].
  - unfold binaryValue. cbn [app fold_right List.length Z.of_nat].
    rewrite Z.pow_0_r. lia.
  - cbn [app binaryValue fold_right List.length]. fold (binaryValue (l ++ [x])).
    fold (binaryValue l). rewrite IH, Nat2Z.inj_succ, Z.pow_succ_r by lia. lia.
Qed.

Lemma normalize_binaryValue l :
  normalize (binaryValue (map normalize l)) = normalize (binaryValue l).
Proof.
  induction l as [|b l IH]; [reflexivity|].
  cbn [map binaryValue fold_right]. fold (binaryValue (map normalize l)).
  fold (binaryValue l).
  rewrite normalize_add_l, <- normalize_add_r, <- normalize_mul_r, IH.
  now rewrite normalize_mul_r, normalize_add_r.
Qed.

Lemma evalEntries_binarySum w n0 n :
  normalize (evalEntries w (binarySum n0 n))
  = normalize (binaryValue (map (fun k => w (Internal, k)) (seq n0 n))).
Proof.
  induction n as [|n IH]; [reflexivity|].
  rewrite binarySum_S, seq_S, map_app, evalEntries_app. cbn [map].
  rewrite binaryValue_snoc, length_map, length_seq.
  rewrite <- normalize_add, IH, normalize_add.
  cbn [evalEntries fold_right fst snd].
  rewrite <- normalize_add_r, Z.add_0_r, normalize_mul_l.
  now rewrite normalize_add_r.
Qed.

Lemma ToBinary_step a n cs :
  (0 < n)%nat -> 1 < q -> Z.odd q = true ->
  reserved cs -> wfLinExp cs (linExp (completeDanglingVariable a)) ->
  exists cs' asserts c,
    ToBinary a n cs = Ok (map internalVariable (seq (nbInternal cs) n), cs') /\
    step cs cs' [c] asserts /\
    List.length asserts = n /\
    Forall2 (fun b s => isBooleanAssertion cs' b (fst s))
            (map internalVariable (seq (nbInternal cs) n)) asserts /\
    entries cs' (R1C_L c) = binarySum (nbInternal cs) n /\
    entries cs' (R1C_R c) = [(1, (One, 0%nat))] /\
    R1C_O c = linExp (completeDanglingVariable a) /\
    nbInternal cs' = (nbInternal cs + n)%nat.
Proof.
  intros Hn Hq Hodd R Wa.
  destruct n as [|n]; [lia|].
  destruct (toBinaryAlloc_ok (S n) cs R) as (cs1 & asserts & E1 & X1 & N1 & K1 & A1 & F1).
  pose proof (extends_reserved _ _ X1 R) as R1.
  set (res0 := internalVariable (nbInternal cs)).
  destruct (mulConstant_ok 1 res0 cs1 R1 (wf_internalVariable _ _ R1))
    as (v0 & cs2 & E2 & G2 & W2 & Wi2 & _ & En2).
  pose proof (grows_reserved _ _ G2 R1) as R2.
  assert (En0 : entries cs2 (linExp v0) = binarySum (nbInternal cs) 1).
  { rewrite En2. unfold res0. rewrite (entries_internalVariable _ _ R1).
    unfold binarySum. cbn [map seq scaleEntry fst snd Z.of_nat].
    rewrite Nat.add_0_r, Z.pow_0_r. unfold normalize.
    rewrite Z.mod_small by lia. reflexivity. }
  destruct (toBinarySum_ok (nbInternal cs) n 1 v0 cs2 Hq Hodd R2 W2 Wi2 En0)
    as (v & cs3 & E3 & G3 & W3 & Wi3 & En3).
  pose proof (grows_trans _ _ _ G2 G3) as G13.
  set (c := newR1C v getOneVariable (completeDanglingVariable a) (Some BinaryDec)).
  set (cs4 := mkCS (nbPublic cs3) (nbSecret cs3) (nbInternal cs3) (coeffs cs3)
                   (constraints cs3 ++ [c]) (assertions cs3) (logs cs3)).
  assert (C34 : coeffs cs4 = coeffs cs3) by reflexivity.
  assert (X14 : extends cs1 cs4).
  { eapply extends_trans; [exact (grows_extends _ _ G13)|].
    apply same_coeffs_extends. reflexivity. }
  assert (R4 : reserved cs4) by (eapply extends_reserved; eauto).
  assert (F4 : Forall2 (fun b s => isBooleanAssertion cs4 b (fst s))
                 (map internalVariable (seq (nbInternal cs) (S n))) asserts).
  { clear - F1 X14 R1 X1.
    induction F1 as [|b s bs ss Hb F IH]; constructor; [|exact IH].
    pose proof Hb as (HL & _ & _ & _ & HW).
    apply (isBooleanAssertion_extends cs1); [exact X14| |exact Hb].
    rewrite <- HL. apply HW. }
  exists cs4, asserts, c.
  split.
  { unfold ToBinary. rewrite (bind_ok _ _ _ _ _ E1).
    cbn [seq map index nth_error]. unfold ret at 1. unfold bind at 1.
    fold res0.
    assert (E2' : Mul (Var res0) (Const 1) [] cs1 = Ok (v0, cs2))
      by (rewrite Mul_nil, bind_ret_r; exact E2).
    rewrite (bind_ok _ _ _ _ _ E2'). cbn [skipn].
    change 2 with (2 ^ Z.of_nat 1).
    replace (S (nbInternal cs)) with (nbInternal cs + 1)%nat by lia.
    rewrite (bind_ok _ _ _ _ _ E3). reflexivity. }
  split.
  { constructor.
    - eapply extends_trans; eauto.
    - cbn [cs4 constraints]. now rewrite (grows_constraints _ _ G13), K1.
    - cbn [cs4 assertions]. now rewrite (grows_assertions _ _ G13).
    - cbn [app]. constructor.
      + unfold c, newR1C, Clone. split; [|split]; cbn [R1C_L R1C_R R1C_O].
        * apply (same_coeffs_wfLinExp _ _ _ C34). exact W3.
        * now apply wf_getOneVariable.
        * eapply extends_wfLinExp; [|exact Wa]. eapply extends_trans; eauto.
      + clear - F4. induction F4 as [|b s bs ss Hb F IH]; [constructor|].
        cbn [map]. constructor; [apply Hb|exact IH]. }
  split.
  { rewrite <- (Forall2_length F1), length_map, length_seq. reflexivity. }
  split; [exact F4|].
  unfold c, newR1C, Clone. cbn [R1C_L R1C_R R1C_O].
  split.
  { rewrite (same_coeffs_entries _ _ _ C34). exact En3. }
  split; [now apply entries_getOneVariable|].
  split; [reflexivity|].
  cbn [cs4 nbInternal]. rewrite (grows_internal _ _ G13). exact N1.
Qed.

Lemma fromBinaryLoop_ok b : forall i coeff res cs,
  reserved cs -> wfLinExp cs (linExp res) -> completeDanglingVariable res = res ->
  Forall (fun v => wfLinExp cs (linExp v) /\ completeDanglingVariable v = v) b ->
  ((2 <= i)%nat -> coeff = 2 ^ Z.of_nat (i - 1)) ->
  exists r cs' aN,
    fromBinaryLoop b i coeff res cs = Ok (r, cs') /\
    step cs cs' [] aN /\
    List.length aN = List.length (unflagged b) /\
    booleanAssertions cs' b aN /\
    wfLinExp cs' (linExp r) /\
    forall csF w, extends cs' csF -> w (One, 0%nat) = 1 ->
      value csF w (linExp r)
      = normalize (value csF w (linExp res)
                   + 2 ^ Z.of_nat i
                     * binaryValue (map (fun v => value csF w (linExp v)) b)).
Proof.
  induction b as [|bi b IH]; intros i coeff res cs R W C F Hc.
  - exists res, cs, []. split; [reflexivity|]. split; [apply step_refl|].
    split; [reflexivity|]. split; [constructor|]. split; [exact W|].
    intros csF w _ _. cbn [map binaryValue fold_right].
    rewrite Z.mul_0_r, Z.add_0_r. symmetry. apply value_normalized.
  - inversion F as [|? ? [Wbi Cbi] Fb]; subst.
    set (coeff' := if (i =? 0)%nat then 1
                   else if (i =? 1)%nat then 2 else coeff * 2).
    assert (Hc' : coeff' = 2 ^ Z.of_nat i).
    { unfold coeff'. destruct i as [|[|i]]; [reflexivity|reflexivity|].
      cbn [Nat.eqb]. rewrite Hc by lia.
      replace (S (S i) - 1)%nat with (S i) by lia.
      rewrite (Nat2Z.inj_succ (S i)), Z.pow_succ_r by lia. lia. }
    destruct (mul_val (Const coeff') (Var bi) cs R I (wfOperand_Var _ _ Cbi Wbi))
      as (v & cs1 & c1 & E1 & S1 & L1 & W1 & C1 & V1).
    destruct c1; [|discriminate].
    assert (E1' : Mul (Const coeff') (Var bi) [] cs = Ok (v, cs1))
      by (rewrite Mul_nil, bind_ret_r; exact E1).
    pose proof (step_reserved _ _ _ _ S1 R) as R1.
    assert (X1 : extends cs cs1) by ext.
    destruct (Add_val (Var v) (Var res) cs1 R1 (wfOperand_Var _ _ C1 W1)
                (extends_wfOperand _ _ _ X1 (wfOperand_Var _ _ C W)))
      as (res' & cs2 & E2 & G2 & W2 & C2 & V2).
    pose proof (grows_reserved _ _ G2 R1) as R2.
    assert (X2 : extends cs cs2) by ext.
    assert (Wbi2 : wfLinExp cs2 (linExp (completeDanglingVariable bi))).
    { rewrite Cbi. eapply extends_wfLinExp; eauto. }
    destruct (AssertIsBoolean_step bi cs2 R2 Wbi2)
      as (cs3 & a3 & E3 & S3 & _ & L3 & _ & B3).
    pose proof (step_reserved _ _ _ _ S3 R2) as R3.
    assert (X23 : extends cs2 cs3) by ext.
    assert (F3 : Forall (fun v => wfLinExp cs3 (linExp v)
                                  /\ completeDanglingVariable v = v) b).
    { eapply Forall_impl; [|exact Fb]. intros o [Wo Co]. split; [|exact Co].
      eapply extends_wfLinExp; [|exact Wo]. ext. }
    assert (Hc3 : (2 <= S i)%nat -> coeff' = 2 ^ Z.of_nat (S i - 1)).
    { intros _. rewrite Hc'. f_equal. lia. }
    destruct (IH (S i) coeff' res' cs3 R3 (extends_wfLinExp _ _ _ X23 W2) C2 F3 Hc3)
      as (r & cs' & aN & E4 & S4 & L4 & B4 & W4 & V4).
    exists r, cs', (a3 ++ aN). split.
    { cbn [fromBinaryLoop]. fold coeff'.
      rewrite (bind_ok _ _ _ _ _ E1'), (bind_ok _ _ _ _ _ E2).
      rewrite (bind_ok _ _ _ _ _ E3). exact E4. }
    split.
    { change (@nil R1C) with (@nil R1C ++ [] ++ [] ++ []).
      change (a3 ++ aN) with ([] ++ [] ++ a3 ++ aN).
      eapply step_trans; [exact S1|].
      eapply step_trans; [apply grows_step; exact G2|].
      eapply step_trans; eassumption. }
    split.
    { rewrite length_app, L3, L4. unfold unflagged. cbn [filter].
      destruct (isBoolean bi); reflexivity. }
    split.
    { apply (booleanAssertions_app cs' [bi] b); [|exact B4].
      apply (booleanAssertions_extends cs3); [|exact B3].
      exact (step_extends _ _ _ _ S4). }
    split; [exact W4|].
    intros csF w X Hw.
    rewrite (V4 csF w X Hw), (V2 csF w) by ext.
    rewrite (operandValue_Var _ _ _ C1), (operandValue_Var _ _ _ C).
    rewrite (V1 csF w) by (ext || now apply solves_nil).
    rewrite (operandValue_Const _ _ _ Hw), (operandValue_Var _ _ _ Cbi), Hc'.
    cbn [map binaryValue fold_right].
    fold (binaryValue (map (fun v0 => value csF w (linExp v0)) b)).
    rewrite normalize_add_l, normalize_mul_l.
    rewrite <- Z.add_assoc, normalize_add_l.
    f_equal. rewrite Nat2Z.inj_succ, Z.pow_succ_r by lia. lia.
Qed.

Lemma FromBinary_val b cs :
  reserved cs ->
  Forall (fun v => wfLinExp cs (linExp (completeDanglingVariable v))) b ->
  exists r cs' aN,
    FromBinary b cs = Ok (r, cs') /\ step cs cs' [] aN /\
    List.length aN = List.length (unflagged b) /\
    booleanAssertions cs' b aN /\
    wfLinExp cs' (linExp r) /\
    forall csF w, extends cs' csF -> w (One, 0%nat) = 1 ->
      value csF w (linExp r)
      = normalize
          (binaryValue
             (map (fun v => value csF w (linExp (completeDanglingVariable v))) b)).
Proof.
  intros R F.
  destruct (Constant_Const_val 0 cs R) as (res & cs0 & E0 & G0 & W0 & C0 & V0).
  pose proof (grows_reserved _ _ G0 R) as R0.
  assert (F0 : Forall (fun v => wfLinExp cs0 (linExp v)
                                /\ completeDanglingVariable v = v)
                 (map completeDanglingVariable b)).
  { rewrite Forall_map. eapply Forall_impl; [|exact F].
    intros o Wo. split; [|apply complete_idem].
    eapply grows_wfLinExp; eauto. }
  assert (H0 : (2 <= 0)%nat -> 0 = 2 ^ Z.of_nat (0 - 1)) by lia.
  destruct (fromBinaryLoop_ok _ 0%nat 0 res cs0 R0 W0 C0 F0 H0)
    as (r & cs' & aN & E & S & L & B & W & V).
  exists r, cs', aN. split.
  { unfold FromBinary. now rewrite (bind_ok _ _ _ _ _ E0). }
  split.
  { change (@nil R1C) with (@nil R1C ++ []). change aN with ([] ++ aN).
    eapply step_trans; [apply grows_step; exact G0|exact S]. }
  split.
  { rewrite L. unfold unflagged. clear. induction b as [|v b IH]; [reflexivity|].
    cbn [map filter]. rewrite complete_isBoolean.
    destruct (isBoolean v); cbn [negb List.length]; now rewrite IH. }
  split; [now apply booleanAssertions_complete|].
  split; [exact W|].
  intros csF w X Hw. rewrite (V csF w X Hw), (V0 csF w) by ext.
  rewrite map_map, normalize_add_l. f_equal. cbn [Z.of_nat]. lia.
Qed.

(** X15: FromBinary(b...) appends no constraint.  The assertions it adds
    are, in the order of the bits, the boolean assertion
    R1C(x, 1 - x, 0) of every bit x that does not carry the flag, and it
    returns a variable whose value is the little-endian sum of
    2^i * b[i]. *)
Theorem FromBinary_spec (cs : ConstraintSystem) (b : list variable)
  (R : reserved cs)
  (W : Forall (fun v => wfLinExp cs (linExp (completeDanglingVariable v))) b) :
  exists r cs' aN,
    FromBinary b cs = Ok (r, cs') /\
    constraints cs' = constraints cs /\
    assertions cs' = assertions cs ++ aN /\
    List.length aN = List.length (unflagged b) /\
    booleanAssertions cs' b aN /\
    forall w, w (One, 0%nat) = 1 ->
      value cs' w (linExp r)
      = normalize
          (binaryValue
             (map (fun v => value cs w (linExp (completeDanglingVariable v))) b)).
Proof.
  destruct (FromBinary_val b cs R W) as (r & cs' & aN & E & S & L & B & Wr & V).
  exists r, cs', aN. split; [exact E|].
  split; [now rewrite (step_constraints _ _ _ _ S), app_nil_r|].
  split; [apply S|]. split; [exact L|]. split; [exact B|].
  intros w Hw. rewrite (V cs' w (extends_refl _) Hw). do 2 f_equal.
  apply map_ext_in. intros v Hv. rewrite Forall_forall in W.
  apply extends_value; [apply S|auto].
Qed.

(** X16: packing the bits ToBinary returns.  FromBinary(ToBinary(a, n))
    appends the single constraint of the decomposition and 2n
    assertions: the boolean assertions R1C(x, 1 - x, 0) of the n bits,
    from ToBinary, and, because the bits come back without the boolean
    flag, the same n boolean assertions once more from FromBinary.
    Under every witness that satisfies the constraint the packed
    variable has the value of a. *)
Theorem FromBinary_ToBinary (cs : ConstraintSystem) (a : variable) (n : nat)
  (Hn : (0 < n)%nat) (Hq : 1 < q) (Hodd : Z.odd q = true)
  (R : reserved cs)
  (Wa : wfLinExp cs (linExp (completeDanglingVariable a))) :
  exists bits cs1 r cs2 c aN,
    ToBinary a n cs = Ok (bits, cs1) /\
    FromBinary bits cs1 = Ok (r, cs2) /\
    constraints cs2 = constraints cs ++ [c] /\
    assertions cs2 = assertions cs ++ aN /\
    List.length aN = (2 * n)%nat /\
    booleanAssertions cs2 (bits ++ bits) aN /\
    forall w, solves cs2 w [c] ->
      value cs2 w (linExp r)
      = value cs w (linExp (completeDanglingVariable a)).
Proof.
  destruct (ToBinary_step a n cs Hn Hq Hodd R Wa)
    as (cs1 & a1 & c & E1 & S1 & L1 & F1 & EL & ER & EO & _).
  pose proof (step_reserved _ _ _ _ S1 R) as R1.
  pose proof (booleanAssertions_bits _ _ _ F1) as B1.
  set (bits := map internalVariable (seq (nbInternal cs) n)) in *.
  assert (Fw : Forall (fun v => wfLinExp cs1 (linExp (completeDanglingVariable v)))
                 bits).
  { unfold bits. rewrite Forall_map, Forall_forall. intros k _.
    rewrite complete_internalVariable. now apply wf_internalVariable. }
  destruct (FromBinary_val bits cs1 R1 Fw)
    as (r & cs2 & a2 & E2 & S2 & L2 & B2 & Wr & V).
  pose proof (step_trans _ _ _ _ _ _ _ S1 S2) as S.
  exists bits, cs1, r, cs2, c, (a1 ++ a2).
  split; [exact E1|]. split; [exact E2|].
  split; [rewrite (step_constraints _ _ _ _ S); now rewrite app_nil_r|].
  split; [apply S|]. split.
  { rewrite length_app, L1, L2. unfold unflagged, bits.
    rewrite forallb_filter_id; [rewrite length_map, length_seq; lia|].
    apply forallb_forall. intros v Hv. apply in_map_iff in Hv.
    destruct Hv as (k & <- & _). reflexivity. }
  split.
  { apply booleanAssertions_app; [|exact B2].
    apply (booleanAssertions_extends cs1); [|exact B1].
    exact (step_extends _ _ _ _ S2). }
  intros w Sv. pose proof (solves_one _ _ _ Sv) as Hw.
  apply solves_cons in Sv. destruct Sv as [Sc _].
  assert (X12 : extends cs1 cs2) by ext.
  assert (X02 : extends cs cs2) by ext.
  pose proof (step_wf _ _ _ _ S1) as Wc. inversion Wc as [|? ? (WL & WR & WO) _]; subst.
  unfold satisfied in Sc.
  rewrite (extends_value _ _ w _ X12 WL), (extends_value _ _ w _ X12 WR) in Sc.
  rewrite EO, (extends_value _ _ w _ X02 Wa) in Sc. rewrite <- Sc.
  unfold value at 2 3. rewrite EL, ER.
  cbn [evalEntries fold_right fst snd]. rewrite Hw.
  rewrite normalize_mul_r, Z.mul_1_l, Z.add_0_r, Z.mul_1_r, normalize_idem.
  rewrite evalEntries_binarySum.
  rewrite (V cs2 w (extends_refl _) Hw). unfold bits. rewrite map_map.
  rewrite <- (normalize_binaryValue (map (fun k => w (Internal, k)) _)), map_map.
  do 2 f_equal.
  apply map_ext. intros k. rewrite complete_internalVariable.
  now rewrite (value_internalVariable _ w k (step_reserved _ _ _ _ S2 R1)).
Qed.

(** *** Slices *)

Lemma index_ok {A} (s : list A) i a cs :
  nth_error s i = Some a -> index s i cs = Ok (a, cs).
Proof. intros H. unfold index. now rewrite H. Qed.

Lemma store_ok {A} (s : list A) i a cs :
  (i < List.length s)%nat -> store s i a cs = Ok (update s i a, cs).
Proof.
  intros H. unfold store. destruct (Nat.ltb_spec i (List.length s)); [reflexivity|lia].
Qed.

Lemma update_cons {A} (x : A) s i a :
  update (x :: s) (S i) a = x :: update s i a.
Proof. reflexivity. Qed.

Lemma length_update {A} (s : list A) : forall i a,
  (i < List.length s)%nat -> List.length (update s i a) = List.length s.
Proof.
  induction s as [|x s IH]; intros i a Hi; [cbn in Hi; lia|].
  destruct i as [|i]; [reflexivity|].
  rewrite update_cons. cbn [List.length] in *. rewrite IH; lia.
Qed.

Lemma nth_error_update_eq {A} (s : list A) : forall i a,
  (i < List.length s)%nat -> nth_error (update s i a) i = Some a.
Proof.
  induction s as [|x s IH]; intros i a Hi; [cbn in Hi; lia|].
  destruct i as [|i]; [reflexivity|].
  rewrite update_cons. cbn [List.length nth_error] in *. apply IH. lia.
Qed.

Lemma nth_error_update_neq {A} (s : list A) : forall i m a,
  (i < List.length s)%nat -> m <> i ->
  nth_error (update s i a) m = nth_error s m.
Proof.
  induction s as [|x s IH]; intros i m a Hi Hm; [cbn in Hi; lia|].
  destruct i as [|i].
  - destruct m as [|m]; [lia|reflexivity].
  - rewrite update_cons. destruct m as [|m]; [reflexivity|].
    cbn [List.length nth_error] in *. apply IH; lia.
Qed.

Lemma nth_error_bits n0 m k :
  (k < m)%nat ->
  nth_error (map internalVariable (seq n0 m)) k = Some (internalVariable (n0 + k)).
Proof.
  intros H. rewrite nth_error_map.
  rewrite (nth_error_nth' _ 0%nat) by (now rewrite length_seq).
  now rewrite seq_nth.
Qed.

(** *** Arithmetic of bit lists *)

Lemma binaryValue_app l1 l2 :
  binaryValue (l1 ++ l2)
  = binaryValue l1 + 2 ^ Z.of_nat (List.length l1) * binaryValue l2.
Proof.
  induction l1 as [|b l IH].
  - unfold binaryValue at 2. cbn [app fold_right List.length Z.of_nat].
    rewrite Z.pow_0_r. lia.
  - cbn [app binaryValue fold_right List.length]. fold (binaryValue (l ++ l2)).
    fold (binaryValue l). rewrite IH, Nat2Z.inj_succ, Z.pow_succ_r by lia. lia.
Qed.

Lemma binaryValue_bounds l :
  Forall isBit l -> 0 <= binaryValue l < 2 ^ Z.of_nat (List.length l).
Proof.
  induction 1 as [|b l Hb Hl IH].
  - cbn. lia.
  - cbn [binaryValue fold_right List.length]. fold (binaryValue l).
    rewrite Nat2Z.inj_succ, Z.pow_succ_r by lia.
    destruct Hb as [-> | ->]; lia.
Qed.

Lemma Forall_isBit_range (f : nat -> Z) lo n :
  (forall k, (lo <= k < lo + n)%nat -> isBit (f k)) ->
  Forall isBit (map f (seq lo n)).
Proof.
  intros H. rewrite Forall_map, Forall_forall. intros k Hk.
  apply in_seq in Hk. auto.
Qed.

Lemma binaryValue_testbit a n :
  0 <= a ->
  binaryValue (map (fun k => Z.b2z (Z.testbit a (Z.of_nat k))) (seq 0 n))
  = a mod 2 ^ Z.of_nat n.
Proof.
  intros Ha. induction n as [|n IH].
  - cbn. now rewrite Z.mod_1_r.
  - rewrite seq_S, map_app. cbn [map Nat.add].
    rewrite binaryValue_snoc, length_map, length_seq, IH.
    rewrite Z.testbit_spec' by lia.
    rewrite Nat2Z.inj_succ, Z.pow_succ_r by lia.
    rewrite (Z.mul_comm 2), Z.rem_mul_r by lia. reflexivity.
Qed.

Lemma map_seq_shift {A} (f : nat -> A) n0 n :
  map f (seq n0 n) = map (fun k => f (n0 + k)%nat) (seq 0 n).
Proof.
  induction n as [|n IH]; [reflexivity|].
  now rewrite !seq_S, !map_app, IH.
Qed.

Lemma solves_split cs w (c1 c2 : list R1C) (a1 a2 : list (R1C * nat)) :
  solves cs w ((c1 ++ c2) ++ map fst (a1 ++ a2)) ->
  solves cs w (c1 ++ map fst a1) /\ solves cs w (c2 ++ map fst a2).
Proof.
  rewrite map_app. unfold solves. rewrite !Forall_app. tauto.
Qed.

(** Two consecutive ranges of the comparison compose. *)
Lemma compares_app n0 bv lo n1 n2 cur cur1 cur2 cs1 cs2 c1 a1 c2 a2 :
  compares n0 bv (lo + n1) n2 cur cur1 cs1 c1 a1 ->
  compares n0 bv lo n1 cur1 cur2 cs2 c2 a2 ->
  extends cs1 cs2 ->
  compares n0 bv lo (n1 + n2) cur cur2 cs2 (c1 ++ c2) (a1 ++ a2).
Proof.
  intros H1 H2 X csF w XF S Hb Hc.
  apply solves_split in S. destruct S as [S1 S2].
  assert (Hb1 : forall k, (lo + n1 <= k < lo + n1 + n2)%nat ->
                          isBit (bitOf n0 w k) /\ isBit (bv w k))
    by (intros k Hk; apply Hb; lia).
  assert (Hb2 : forall k, (lo <= k < lo + n1)%nat ->
                          isBit (bitOf n0 w k) /\ isBit (bv w k))
    by (intros k Hk; apply Hb; lia).
  specialize (H1 csF w (extends_trans _ _ _ X XF) S1 Hb1 Hc).
  specialize (H2 csF w XF S2 Hb2).
  cbv zeta in *. rewrite seq_app, !map_app, !binaryValue_app, !length_map, !length_seq.
  pose proof (binaryValue_bounds (map (bitOf n0 w) (seq lo n1))
                (Forall_isBit_range _ _ _ (fun k Hk => proj1 (Hb2 k Hk)))) as BV1.
  pose proof (binaryValue_bounds (map (bv w) (seq lo n1))
                (Forall_isBit_range _ _ _ (fun k Hk => proj2 (Hb2 k Hk)))) as BB1.
  rewrite length_map, length_seq in BV1, BB1.
  set (V1 := binaryValue (map (bitOf n0 w) (seq lo n1))) in *.
  set (B1 := binaryValue (map (bv w) (seq lo n1))) in *.
  set (V2 := binaryValue (map (bitOf n0 w) (seq (lo + n1) n2))) in *.
  set (B2 := binaryValue (map (bv w) (seq (lo + n1) n2))) in *.
  set (e := 2 ^ Z.of_nat n1) in *.
  clearbody V1 B1 V2 B2 e.
  destruct H1 as [Hlt | [Heq Hc1]].
  - left. assert (e * (V2 + 1) <= e * B2) by (apply Z.mul_le_mono_nonneg_l; lia).
    lia.
  - destruct (H2 Hc1) as [Hlt | [Heq2 Hc2]].
    + left. rewrite Heq. lia.
    + right. split; [now rewrite Heq, Heq2|exact Hc2].
Qed.

Lemma compares_nil n0 bv lo cur cs :
  compares n0 bv lo 0 cur cur cs [] [].
Proof. intros csF w _ _ _ Hc. right. split; [reflexivity|exact Hc]. Qed.

(** *** The bits of a constant bound *)

Lemma land_one x : Z.land x 1 = Z.b2z (Z.testbit x 0).
Proof.
  change 1 with (Z.ones 1) at 1. rewrite Z.land_ones by lia.
  rewrite Z.bit0_mod. reflexivity.
Qed.

Lemma length_Bits x :
  List.length (Bits x)
  = if x =? 0 then 0%nat else S (Z.to_nat (Z.log2 (Z.abs x)) / wordSize).
Proof. unfold Bits. now rewrite length_map, length_seq. Qed.

Lemma nth_error_Bits x i :
  (i < List.length (Bits x))%nat ->
  nth_error (Bits x) i
  = Some ((Z.abs x / 2 ^ Z.of_nat (wordSize * i)) mod 2 ^ Z.of_nat wordSize).
Proof.
  intros H. rewrite length_Bits in H. unfold Bits.
  rewrite nth_error_map.
  rewrite (nth_error_nth' _ 0%nat) by (now rewrite length_seq).
  now rewrite seq_nth.
Qed.

Lemma Bits_above x i s :
  (List.length (Bits x) <= i)%nat ->
  Z.testbit (Z.abs x) (Z.of_nat (wordSize * i + s)) = false.
Proof.
  rewrite length_Bits. intros H.
  destruct (Z.eqb_spec x 0) as [->|Hx]; [apply Z.bits_0|].
  apply Z.bits_above_log2; [lia|].
  pose proof (Z.log2_nonneg (Z.abs x)) as Hl.
  pose proof (Nat.mul_succ_div_gt (Z.to_nat (Z.log2 (Z.abs x))) wordSize) as Hd.
  assert (Hw : wordSize <> 0%nat) by discriminate.
  specialize (Hd Hw).
  assert (Hm : (wordSize * S (Z.to_nat (Z.log2 (Z.abs x)) / wordSize)
                <= wordSize * i)%nat) by (apply Nat.mul_le_mono_l; exact H).
  lia.
Qed.

(** Word [i] of the padded bound holds the bits 64i .. 64i+63 of its
    absolute value. *)
Lemma paddedBits_word bound i s :
  (i < nbWords)%nat -> (s < wordSize)%nat ->
  exists word,
    nth_error (paddedBits bound) i = Some word /\
    Z.land (Z.shiftr word (Z.of_nat s)) 1
    = Z.b2z (boundBit bound (wordSize * i + s)).
Proof.
  intros Hi Hs. unfold paddedBits, boundBit. cbv zeta.
  destruct (Nat.lt_ge_cases i (List.length (Bits bound))) as [Hl|Hl].
  - exists ((Z.abs bound / 2 ^ Z.of_nat (wordSize * i)) mod 2 ^ Z.of_nat wordSize).
    split.
    { destruct (List.length (Bits bound) <? nbWords)%nat.
      - rewrite nth_error_app1 by exact Hl. now apply nth_error_Bits.
      - now apply nth_error_Bits. }
    rewrite land_one, Z.shiftr_spec by lia.
    rewrite Z.mod_pow2_bits_low by lia.
    rewrite Z.div_pow2_bits by lia.
    do 2 f_equal. lia.
  - exists 0. split.
    { destruct (Nat.ltb_spec (List.length (Bits bound)) nbWords) as [Hn|Hn]; [|lia].
      rewrite nth_error_app2 by exact Hl.
      rewrite nth_error_repeat by lia. reflexivity. }
    rewrite Z.shiftr_0_l, (Bits_above bound i s Hl). reflexivity.
Qed.

(** *** Comparison with a constant bound *)

Lemma minus_one_nonzero : 1 < q -> normalize (- 1) <> 0.
Proof.
  intros Hq H. unfold normalize in H.
  apply Z.mod_divide in H; [|lia]. destruct H as [c Hc].
  assert (Hcases : c = 0 \/ 1 <= c \/ c <= -1) by lia.
  destruct Hcases as [->|[Hp|Hn]]; nia.
Qed.

Lemma value_bit csF w n0 k :
  reserved csF ->
  value csF w (linExp (internalVariable (n0 + k))) = bitOf n0 w k.
Proof. intros R. now rewrite value_internalVariable. Qed.

Lemma bitOf_normalized n0 w k : normalize (bitOf n0 w k) = bitOf n0 w k.
Proof. unfold bitOf. apply normalize_idem. Qed.

Lemma compares_one n0 bv k cur cur' cs cN aN :
  (forall csF w,
     extends cs csF -> solves csF w (cN ++ map fst aN) ->
     isBit (bitOf n0 w k) -> isBit (bv w k) ->
     value csF w (linExp cur) = 1 ->
     bitOf n0 w k < bv w k \/
     (bitOf n0 w k = bv w k /\ value csF w (linExp cur') = 1)) ->
  compares n0 bv k 1 cur cur' cs cN aN.
Proof.
  intros H csF w X S Hb Hc. cbv zeta. cbn [seq map binaryValue fold_right].
  destruct (Hb k ltac:(lia)) as [Hv Hbb].
  destruct (H csF w X S Hv Hbb Hc) as [Hlt|[Heq Hc']]; [left|right]; lia.
Qed.

(** One iteration on bit [k] of the bound. *)
Lemma lessOrEqCstStep_ok dbg bound n0 i j p cur cs :
  1 < q -> (i < nbWords)%nat -> (j < wordSize)%nat ->
  forall k, k = (wordSize * i + (wordSize - 1 - j))%nat ->
  List.length p = S nbBits ->
  nth_error p (S k) = Some cur ->
  reserved cs -> wfLinExp cs (linExp cur) -> completeDanglingVariable cur = cur ->
  exists cur' cs' cN aN,
    lessOrEqCstStep dbg (paddedBits bound)
      (map internalVariable (seq n0 nbBits)) i j p cs
    = Ok (update p k cur', cs') /\
    step cs cs' cN aN /\
    List.length cN = (if boundBit bound k then 1 else 0)%nat /\
    List.length aN = (if boundBit bound k then 0 else 1)%nat /\
    wfLinExp cs' (linExp cur') /\ completeDanglingVariable cur' = cur' /\
    compares n0 (cstBit bound) k 1 cur cur' cs' cN aN.
Proof.
  intros Hq Hi Hj k Ek Lp Hcur R Wc Cc.
  assert (Hk : (k < nbBits)%nat) by (unfold nbBits, nbWords, wordSize in *; lia).
  assert (K1 : ((i + 1) * wordSize - j = S k)%nat)
    by (unfold wordSize in *; lia).
  assert (K0 : ((i + 1) * wordSize - 1 - j = k)%nat)
    by (unfold wordSize in *; lia).
  destruct (paddedBits_word bound i (wordSize - 1 - j) Hi ltac:(lia))
    as (word & Hword & Hbit).
  rewrite <- Ek in Hbit. clear Ek.
  pose proof (nth_error_bits n0 nbBits k Hk) as Hvb.
  set (vb := internalVariable (n0 + k)) in *.
  assert (Wvb : forall cs0, reserved cs0 -> wfOperand cs0 (Var vb)).
  { intros cs0 R0. apply wfOperand_Var; [apply complete_internalVariable|].
    now apply wf_internalVariable. }
  assert (Lk : (k < List.length p)%nat) by lia.
  unfold lessOrEqCstStep. rewrite (bind_ok _ _ _ _ _ (index_ok _ _ _ cs Hword)).
  rewrite Hbit, K1, K0. destruct (boundBit bound k) eqn:Eb; cbn [Z.b2z Z.eqb].
  - (* the bit of the bound is 1: p[k] = p[k+1] * v[k] *)
    destruct (mul_val (Var cur) (Var vb) cs R (wfOperand_Var _ _ Cc Wc) (Wvb _ R))
      as (m & cs' & cN & E & S & L & Wm & Cm & V).
    assert (E' : Mul (Var cur) (Var vb) [] cs = Ok (m, cs'))
      by (rewrite Mul_nil, bind_ret_r; exact E).
    exists m, cs', cN, []. split.
    { rewrite (bind_ok _ _ _ _ _ (index_ok _ _ _ cs Hcur)).
      rewrite (bind_ok _ _ _ _ _ (index_ok _ _ _ cs Hvb)).
      rewrite (bind_ok _ _ _ _ _ E'). now apply store_ok. }
    split; [exact S|]. split; [exact L|]. split; [reflexivity|].
    split; [exact Wm|]. split; [exact Cm|].
    apply compares_one. intros csF w X Sv Hv _ Hc.
    unfold cstBit. rewrite Eb. cbn [Z.b2z].
    cbn [map] in Sv. rewrite app_nil_r in Sv.
    assert (RF : reserved csF).
    { eapply extends_reserved; [exact X|]. exact (step_reserved _ _ _ _ S R). }
    rewrite (V csF w X Sv), (operandValue_Var _ _ _ Cc), Hc.
    rewrite (operandValue_Var csF w vb (complete_internalVariable _)).
    unfold vb. rewrite (value_bit _ _ _ _ RF), Z.mul_1_l, bitOf_normalized.
    destruct Hv as [Hv|Hv]; rewrite Hv; [left; lia|right; split; reflexivity].
  - (* the bit of the bound is 0: p[k] = p[k+1], and v[k] must be 0 *)
    assert (Hcur' : nth_error (update p k cur) (S k) = Some cur)
      by (rewrite nth_error_update_neq by lia; exact Hcur).
    destruct (Sub_val (Var getOneVariable) (Var cur) cs R
                (wf_getOneVariable _ R) (wfOperand_Var _ _ Cc Wc))
      as (l1 & cs1 & E1 & G1 & W1 & C1 & V1).
    pose proof (grows_reserved _ _ G1 R) as R1.
    destruct (Sub_val (Var l1) (Var vb) cs1 R1 (wfOperand_Var _ _ C1 W1) (Wvb _ R1))
      as (l2 & cs2 & E2 & G2 & W2 & C2 & V2).
    pose proof (grows_reserved _ _ G2 R1) as R2.
    destruct (Constant_Const_val 0 cs2 R2) as (o & cs3 & E3 & G3 & W3 & C3 & V3).
    pose proof (grows_reserved _ _ G3 R2) as R3.
    assert (Wa : wfR1C cs3 (newR1C l2 vb o None)).
    { split; [|split]; unfold newR1C, Clone; cbn [R1C_L R1C_R R1C_O].
      - eapply grows_wfLinExp; eauto.
      - now apply wf_internalVariable.
      - exact W3. }
    pose proof (addAssertion_step _ dbg cs3 Wa) as S4.
    set (cs' := mkCS _ _ _ _ _ _ _) in S4.
    assert (S : step cs cs' ([] ++ [] ++ [] ++ [])
                  ([] ++ [] ++ [] ++ [(newR1C l2 vb o None, List.length (logs cs3))])).
    { eapply step_trans; [apply grows_step; exact G1|].
      eapply step_trans; [apply grows_step; exact G2|].
      eapply step_trans; [apply grows_step; exact G3|exact S4]. }
    cbn [app] in S.
    exists cur, cs', [], [(newR1C l2 vb o None, List.length (logs cs3))]. split.
    { rewrite (bind_ok _ _ _ _ _ (index_ok _ _ _ cs Hcur)).
      rewrite (bind_ok _ _ _ _ _ (store_ok _ _ _ cs Lk)).
      rewrite (bind_ok _ _ _ _ _ (index_ok _ _ _ cs Hcur')).
      rewrite (bind_ok _ _ _ _ _ E1).
      rewrite (bind_ok _ _ _ _ _ (index_ok _ _ _ cs1 Hvb)).
      rewrite (bind_ok _ _ _ _ _ E2).
      rewrite (bind_ok _ _ _ _ _ (index_ok _ _ _ cs2 Hvb)).
      rewrite (bind_ok _ _ _ _ _ E3). reflexivity. }
    split; [exact S|]. split; [reflexivity|]. split; [reflexivity|].
    assert (X' : extends cs cs') by exact (step_extends _ _ _ _ S).
    split; [eapply extends_wfLinExp; eauto|]. split; [exact Cc|].
    apply compares_one. intros csF w X Sv Hv _ Hc.
    unfold cstBit. rewrite Eb. cbn [Z.b2z].
    pose proof (solves_one _ _ _ Sv) as Hw.
    cbn [app map fst] in Sv. apply solves_cons in Sv. destruct Sv as [Sa _].
    assert (RF : reserved csF) by (eapply extends_reserved; [exact X|];
                                   exact (step_reserved _ _ _ _ S R)).
    unfold satisfied, newR1C, Clone in Sa. cbn [R1C_L R1C_R R1C_O] in Sa.
    assert (X3 : extends cs3 csF).
    { eapply extends_trans; [|exact X]. now apply same_coeffs_extends. }
    rewrite (V3 csF w X3 Hw), (V2 csF w) in Sa by ext.
    rewrite (operandValue_Var _ _ _ C1), (V1 csF w) in Sa by ext.
    rewrite (operandValue_Var _ _ _ Cc), Hc in Sa.
    rewrite (operandValue_Var csF w vb (complete_internalVariable _)) in Sa.
    change (operandValue csF w (Var getOneVariable))
      with (value csF w (linExp getOneVariable)) in Sa.
    rewrite (value_getOneVariable _ _ RF Hw) in Sa.
    unfold vb in Sa. rewrite (value_bit _ _ _ _ RF) in Sa.
    destruct Hv as [Hv|Hv]; rewrite Hv in *.
    + right. split; [reflexivity|exact Hc].
    + exfalso. rewrite (normalize_sub_l 1), Z.sub_diag, normalize_zero in Sa.
      rewrite Z.mul_1_r, normalize_idem in Sa.
      exact (minus_one_nonzero Hq Sa).
Qed.

Lemma filter_snoc {A} (f : A -> bool) l x :
  List.length (filter f (l ++ [x]))
  = (List.length (filter f l) + (if f x then 1 else 0))%nat.
Proof.
  rewrite filter_app, length_app. cbn [filter]. now destruct (f x).
Qed.

(** The inner loop: the [n] low iterations of word [i]. *)
Lemma lessOrEqCstWord_ok dbg bound n0 i : forall n p cur cs,
  1 < q -> (i < nbWords)%nat -> (n <= wordSize)%nat ->
  List.length p = S nbBits ->
  nth_error p (wordSize * i + n) = Some cur ->
  reserved cs -> wfLinExp cs (linExp cur) -> completeDanglingVariable cur = cur ->
  exists p' cur' cs' cN aN,
    lessOrEqCstWord dbg (paddedBits bound)
      (map internalVariable (seq n0 nbBits)) i n p cs = Ok (p', cs') /\
    step cs cs' cN aN /\
    List.length p' = S nbBits /\
    nth_error p' (wordSize * i) = Some cur' /\
    wfLinExp cs' (linExp cur') /\ completeDanglingVariable cur' = cur' /\
    List.length cN
    = List.length (filter (boundBit bound) (seq (wordSize * i) n)) /\
    List.length aN
    = List.length (filter (fun k => negb (boundBit bound k))
                          (seq (wordSize * i) n)) /\
    compares n0 (cstBit bound) (wordSize * i) n cur cur' cs' cN aN.
Proof.
  induction n as [|n IH]; intros p cur cs Hq Hi Hn Lp Hcur R W C.
  - rewrite Nat.add_0_r in Hcur.
    exists p, cur, cs, [], []. split; [reflexivity|]. split; [apply step_refl|].
    split; [exact Lp|]. split; [exact Hcur|]. split; [exact W|]. split; [exact C|].
    split; [reflexivity|]. split; [reflexivity|]. apply compares_nil.
  - set (k := (wordSize * i + n)%nat).
    assert (Ek : k = (wordSize * i + (wordSize - 1 - (wordSize - S n)))%nat)
      by (unfold k; lia).
    assert (Hj : (wordSize - S n < wordSize)%nat) by (unfold wordSize; lia).
    assert (Hcur0 : nth_error p (S k) = Some cur).
    { unfold k. rewrite <- Hcur. f_equal. lia. }
    destruct (lessOrEqCstStep_ok dbg bound n0 i (wordSize - S n) p cur cs
                Hq Hi Hj k Ek Lp Hcur0 R W C)
      as (cur1 & cs1 & c1 & a1 & E1 & S1 & Lc1 & La1 & W1 & C1 & K1).
    assert (Lk : (k < List.length p)%nat)
      by (unfold k, nbBits, nbWords, wordSize in *; lia).
    assert (Lp1 : List.length (update p k cur1) = S nbBits)
      by (now rewrite length_update).
    assert (Hcur1 : nth_error (update p k cur1) (wordSize * i + n) = Some cur1)
      by (now apply nth_error_update_eq).
    destruct (IH (update p k cur1) cur1 cs1 Hq Hi ltac:(lia) Lp1 Hcur1
                (step_reserved _ _ _ _ S1 R) W1 C1)
      as (p' & cur' & cs' & c2 & a2 & E2 & S2 & Lp' & Hcur' & W' & C' & Lc2 & La2 & K2).
    exists p', cur', cs', (c1 ++ c2), (a1 ++ a2). split.
    { cbn [lessOrEqCstWord]. now rewrite (bind_ok _ _ _ _ _ E1). }
    split; [exact (step_trans _ _ _ _ _ _ _ S1 S2)|].
    split; [exact Lp'|]. split; [exact Hcur'|]. split; [exact W'|].
    split; [exact C'|].
    rewrite seq_S, !filter_snoc, !length_app, Lc1, La1, Lc2, La2. fold k.
    split; [destruct (boundBit bound k); cbn; lia|].
    split; [destruct (boundBit bound k); cbn; lia|].
    rewrite <- Nat.add_1_r.
    exact (compares_app n0 (cstBit bound) (wordSize * i) n 1
             _ _ _ _ _ _ _ _ _ K1 K2 (step_extends _ _ _ _ S2)).
Qed.

(** The outer loop: the [n] low words. *)
Lemma lessOrEqCstLoop_ok dbg bound n0 : forall n p cur cs,
  1 < q -> (n <= nbWords)%nat ->
  List.length p = S nbBits ->
  nth_error p (wordSize * n) = Some cur ->
  reserved cs -> wfLinExp cs (linExp cur) -> completeDanglingVariable cur = cur ->
  exists p' cur' cs' cN aN,
    lessOrEqCstLoop dbg (paddedBits bound)
      (map internalVariable (seq n0 nbBits)) n p cs = Ok (p', cs') /\
    step cs cs' cN aN /\
    List.length p' = S nbBits /\
    List.length cN
    = List.length (filter (boundBit bound) (seq 0 (wordSize * n))) /\
    List.length aN
    = List.length (filter (fun k => negb (boundBit bound k))
                          (seq 0 (wordSize * n))) /\
    compares n0 (cstBit bound) 0 (wordSize * n) cur cur' cs' cN aN.
Proof.
  induction n as [|i IH]; intros p cur cs Hq Hn Lp Hcur R W C.
  - rewrite Nat.mul_0_r.
    exists p, cur, cs, [], []. split; [reflexivity|]. split; [apply step_refl|].
    split; [exact Lp|]. split; [reflexivity|]. split; [reflexivity|].
    apply compares_nil.
  - rewrite Nat.mul_succ_r in Hcur.
    destruct (lessOrEqCstWord_ok dbg bound n0 i wordSize p cur cs Hq
                ltac:(lia) (Nat.le_refl _) Lp Hcur R W C)
      as (p1 & cur1 & cs1 & c1 & a1 & E1 & S1 & Lp1 & Hcur1 & W1 & C1 & Lc1 & La1 & K1).
    destruct (IH p1 cur1 cs1 Hq ltac:(lia) Lp1 Hcur1
                (step_reserved _ _ _ _ S1 R) W1 C1)
      as (p' & cur' & cs' & c2 & a2 & E2 & S2 & Lp' & Lc2 & La2 & K2).
    exists p', cur', cs', (c1 ++ c2), (a1 ++ a2). split.
    { cbn [lessOrEqCstLoop]. now rewrite (bind_ok _ _ _ _ _ E1). }
    split; [exact (step_trans _ _ _ _ _ _ _ S1 S2)|].
    split; [exact Lp'|].
    rewrite Nat.mul_succ_r, seq_app, !filter_app, !length_app.
    rewrite Lc1, La1, Lc2, La2.
    change (0 + wordSize * i)%nat with (wordSize * i)%nat.
    split; [lia|]. split; [lia|].
    exact (compares_app n0 (cstBit bound) 0 (wordSize * i) wordSize
             _ _ _ _ _ _ _ _ _ K1 K2 (step_extends _ _ _ _ S2)).
Qed.

(** *** Meaning of a binary decomposition *)

Lemma Forall2_nth_error {A B} (P : A -> B -> Prop) l1 l2 :
  Forall2 P l1 l2 -> forall k x, nth_error l1 k = Some x ->
  exists y, nth_error l2 k = Some y /\ P x y.
Proof.
  induction 1 as [|a b l1 l2 Hab F IH]; intros k x Hk.
  - destruct k; discriminate.
  - destruct k as [|k].
    + inversion Hk; subst. now exists b.
    + now apply IH.
Qed.

(** Under the boolean assertions of ToBinary every bit is 0 or 1. *)
Lemma bits_boolean n0 n cs1 (asserts : list (R1C * nat)) csF w :
  Z.prime q -> reserved cs1 -> extends cs1 csF ->
  Forall2 (fun b s => isBooleanAssertion cs1 b (fst s))
          (map internalVariable (seq n0 n)) asserts ->
  solves csF w (map fst asserts) ->
  forall k, (k < n)%nat -> isBit (bitOf n0 w k).
Proof.
  intros P R1 X F [Hw S] k Hk.
  destruct (Forall2_nth_error _ _ _ F k _ (nth_error_bits n0 n k Hk))
    as (s & Hs & B).
  assert (Sat : satisfied csF w (fst s)).
  { rewrite Forall_forall in S. apply S. apply in_map.
    eapply nth_error_In; eauto. }
  assert (B' : isBooleanAssertion csF (internalVariable (n0 + k)) (fst s)).
  { eapply isBooleanAssertion_extends; eauto. now apply wf_internalVariable. }
  apply (isBooleanAssertion_meaning _ _ _ w B' Hw) in Sat.
  rewrite (value_bit _ _ _ _ (extends_reserved _ _ X R1)) in Sat.
  apply boolean_prime in Sat; [exact Sat|exact P|].
  unfold bitOf, normalize. apply Z.mod_pos_bound.
  pose proof (Z.prime_ge_2 _ P). lia.
Qed.

(** The constraint of ToBinary says that the bits pack to the value. *)
Lemma binaryDec_meaning n0 n cs1 c csF w :
  wfR1C cs1 c ->
  entries cs1 (R1C_L c) = binarySum n0 n ->
  entries cs1 (R1C_R c) = [(1, (One, 0%nat))] ->
  extends cs1 csF -> w (One, 0%nat) = 1 -> satisfied csF w c ->
  value csF w (R1C_O c)
  = normalize (binaryValue (map (bitOf n0 w) (seq 0 n))).
Proof.
  intros (WL & WR & WO) EL ER X Hw S. unfold satisfied in S. rewrite <- S.
  rewrite (extends_value _ _ w _ X WL), (extends_value _ _ w _ X WR).
  unfold value. rewrite EL, ER. cbn [evalEntries fold_right fst snd].
  rewrite Hw, normalize_mul_r, Z.mul_1_l, Z.add_0_r, Z.mul_1_r, normalize_idem.
  rewrite evalEntries_binarySum, map_seq_shift.
  rewrite <- normalize_binaryValue, map_map. reflexivity.
Qed.

Lemma length_bit_partition bound :
  (List.length (oneBits bound) + List.length (zeroBits bound) = nbBits)%nat.
Proof.
  unfold oneBits, zeroBits.
  assert (H : forall l : list nat,
             (List.length (filter (boundBit bound) l)
              + List.length (filter (fun k => negb (boundBit bound k)) l)
              = List.length l)%nat).
  { induction l as [|k l IH]; [reflexivity|].
    cbn [filter]. destruct (boundBit bound k); cbn [negb List.length]; lia. }
  now rewrite H, length_seq.
Qed.

Lemma mustBeLessOrEqCst_ok v bound cs :
  Z.prime q -> Z.odd q = true ->
  reserved cs -> wfLinExp cs (linExp v) -> completeDanglingVariable v = v ->
  exists cs' cN aN,
    mustBeLessOrEqCst v bound cs = Ok (tt, cs') /\
    step cs cs' cN aN /\
    List.length cN = S (List.length (oneBits bound)) /\
    List.length aN = (nbBits + List.length (zeroBits bound))%nat /\
    forall w, solves cs' w (cN ++ map fst aN) ->
      exists V, 0 <= V <= Z.abs bound mod 2 ^ 256 /\
                value cs w (linExp v) = normalize V.
Proof.
  intros P Hodd R W C. pose proof (Z.prime_ge_2 _ P) as Hq2.
  assert (Hq : 1 < q) by lia.
  destruct (buildLogEntryFromVariable_ok v cs W) as (dbgW & E0 & _).
  assert (Wc : wfLinExp cs (linExp (completeDanglingVariable v)))
    by now rewrite C.
  destruct (ToBinary_step v nbBits cs ltac:(unfold nbBits; lia) Hq Hodd R Wc)
    as (cs1 & a1 & c & E1 & S1 & L1 & F1 & EL & ER & EO & _).
  pose proof (step_reserved _ _ _ _ S1 R) as R1.
  set (n0 := nbInternal cs) in *.
  set (p0 := update (repeat zeroVariable (nbBits + 1)) nbBits getOneVariable).
  assert (Lr : (nbBits < List.length (repeat zeroVariable (nbBits + 1)))%nat)
    by (rewrite repeat_length; lia).
  assert (Lp0 : List.length p0 = S nbBits).
  { unfold p0. rewrite length_update by exact Lr. rewrite repeat_length. lia. }
  assert (Hcur : nth_error p0 (wordSize * nbWords) = Some getOneVariable).
  { change (wordSize * nbWords)%nat with nbBits.
    now apply nth_error_update_eq. }
  set (dbg := mkLogEntry
                (withCallStack
                   (format dbgW ++ " <= " ++ bigIntString bound)%string)
                (toResolve dbgW)).
  destruct (lessOrEqCstLoop_ok dbg bound n0 nbWords p0 getOneVariable cs1 Hq
              (Nat.le_refl _) Lp0 Hcur R1 (wf_getOneVariable _ R1) eq_refl)
    as (p' & cur' & cs2 & c2 & a2 & E2 & S2 & _ & Lc2 & La2 & K).
  change (wordSize * nbWords)%nat with nbBits in Lc2, La2, K.
  pose proof (step_trans _ _ _ _ _ _ _ S1 S2) as S.
  exists cs2, ([c] ++ c2), (a1 ++ a2). split.
  { unfold mustBeLessOrEqCst. rewrite (bind_ok _ _ _ _ _ E0).
    cbv zeta. rewrite (bind_ok _ _ _ _ _ E1).
    change (Constant (Const 1)) with (ret getOneVariable).
    unfold bind at 1, ret at 1. cbv beta iota.
    rewrite (bind_ok _ _ _ _ _ (store_ok _ _ _ cs1 Lr)).
    fold p0. fold (paddedBits bound). fold dbg.
    rewrite (bind_ok _ _ _ _ _ E2). reflexivity. }
  split; [exact S|].
  split; [unfold oneBits; cbn [app List.length]; rewrite Lc2; reflexivity|].
  split; [unfold zeroBits; rewrite length_app, L1, La2; reflexivity|].
  intros w Sv. pose proof (solves_one _ _ _ Sv) as Hw.
  apply solves_split in Sv. destruct Sv as [Sv1 Sv2].
  apply solves_cons in Sv1. destruct Sv1 as [Sc Sa1].
  assert (X12 : extends cs1 cs2) by ext.
  assert (X02 : extends cs cs2) by ext.
  pose proof (step_wf _ _ _ _ S1) as Wf1.
  inversion Wf1 as [|? ? Wfc _]; subst.
  pose proof (bits_boolean n0 nbBits cs1 a1 cs2 w P R1 X12 F1 Sa1) as Hbits.
  assert (Hb : forall k, (0 <= k < 0 + nbBits)%nat ->
                         isBit (bitOf n0 w k) /\ isBit (cstBit bound w k)).
  { intros k Hk. split; [apply Hbits; lia|].
    unfold cstBit. destruct (boundBit bound k); [right|left]; reflexivity. }
  assert (Hone : value cs2 w (linExp getOneVariable) = 1).
  { rewrite (value_getOneVariable _ _ (step_reserved _ _ _ _ S2 R1) Hw).
    now apply normalize_one. }
  pose proof (K cs2 w (extends_refl _) Sv2 Hb Hone) as Hle. cbv zeta in Hle.
  exists (binaryValue (map (bitOf n0 w) (seq 0 nbBits))). split.
  - pose proof (binaryValue_bounds (map (bitOf n0 w) (seq 0 nbBits))
                  (Forall_isBit_range _ _ _ (fun k Hk => proj1 (Hb k Hk)))) as BV.
    assert (EB : binaryValue (map (cstBit bound w) (seq 0 nbBits))
                 = Z.abs bound mod 2 ^ 256).
    { unfold cstBit, boundBit.
      rewrite (binaryValue_testbit (Z.abs bound) nbBits (Z.abs_nonneg _)).
      reflexivity. }
    rewrite EB in Hle. lia.
  - rewrite <- (extends_value _ _ w _ X02 W).
    rewrite <- C at 1. rewrite <- EO.
    exact (binaryDec_meaning n0 nbBits cs1 c cs2 w Wfc EL ER X12 Hw Sc).
Qed.

(** X17: AssertIsLessOrEqual(v, bound) with a constant bound decomposes v
    into 256 bits and walks the 256 low bits of the absolute value of
    the bound.  It appends the constraint of the decomposition and one
    constraint for every bit of the bound that is 1, and adds the 256
    boolean assertions of the decomposition and one assertion for every
    bit of the bound that is 0: 513 constraints and assertions in all. *)
Theorem AssertIsLessOrEqual_constant_size (cs : ConstraintSystem)
  (v : variable) (bound : Z)
  (P : Z.prime q) (Hodd : Z.odd q = true) (R : reserved cs)
  (W : wfLinExp cs (linExp (completeDanglingVariable v))) :
  exists cs' cN aN,
    AssertIsLessOrEqual v (Const bound) cs = Ok (tt, cs') /\
    constraints cs' = constraints cs ++ cN /\
    assertions cs' = assertions cs ++ aN /\
    List.length cN = S (List.length (oneBits bound)) /\
    List.length aN = (256 + List.length (zeroBits bound))%nat /\
    (List.length cN + List.length aN = 513)%nat.
Proof.
  destruct (mustBeLessOrEqCst_ok _ bound cs P Hodd R W (complete_idem v))
    as (cs' & cN & aN & E & S & Lc & La & _).
  exists cs', cN, aN. split; [exact E|].
  split; [apply S|]. split; [apply S|]. split; [exact Lc|].
  split; [exact La|].
  rewrite Lc, La. pose proof (length_bit_partition bound) as Hp.
  change nbBits with 256%nat in *. lia.
Qed.

(** X18: soundness of AssertIsLessOrEqual(v, bound) with a constant bound
    over a prime field.  Under every witness that satisfies what the
    call appends, v is the class of an integer between 0 and the 256 low
    bits of the absolute value of the bound.  So for a bound between 0
    and the modulus (and below 2^256) the value of v, taken in [0, q),
    is at most the bound. *)
Theorem AssertIsLessOrEqual_constant_sound (cs : ConstraintSystem)
  (v : variable) (bound : Z)
  (P : Z.prime q) (Hodd : Z.odd q = true) (R : reserved cs)
  (W : wfLinExp cs (linExp (completeDanglingVariable v))) :
  exists cs' cN aN,
    AssertIsLessOrEqual v (Const bound) cs = Ok (tt, cs') /\
    constraints cs' = constraints cs ++ cN /\
    assertions cs' = assertions cs ++ aN /\
    forall w, solves cs' w (cN ++ map fst aN) ->
      (exists V, 0 <= V <= Z.abs bound mod 2 ^ 256 /\
                 value cs w (linExp (completeDanglingVariable v)) = normalize V) /\
      (0 <= bound < q -> bound < 2 ^ 256 ->
       value cs w (linExp (completeDanglingVariable v)) <= bound).
Proof.
  destruct (mustBeLessOrEqCst_ok _ bound cs P Hodd R W (complete_idem v))
    as (cs' & cN & aN & E & S & _ & _ & Sound).
  exists cs', cN, aN. split; [exact E|].
  split; [apply S|]. split; [apply S|].
  intros w Sv. destruct (Sound w Sv) as (V & HV & EV).
  split; [now exists V|].
  intros Hb Hb256. rewrite EV.
  rewrite Z.abs_eq, Z.mod_small in HV by lia.
  unfold normalize. rewrite Z.mod_small by lia. lia.
Qed.

(** *** Comparison with a variable bound *)

Lemma solves_incl cs w l l' :
  incl l' l -> solves cs w l -> solves cs w l'.
Proof.
  intros I [Hw F]. split; [exact Hw|].
  rewrite Forall_forall in *. auto.
Qed.

Ltac solve_incl :=
  let x := fresh "x" in
  intros x; rewrite ?map_app, ?in_app_iff; cbn [In map]; tauto.

Lemma selectEmit_val b i1 i2 cs :
  reserved cs -> wfLinExp cs (linExp b) -> wfOperand cs i1 -> wfOperand cs i2 ->
  exists cs' c,
    selectEmit b i1 i2 cs = Ok (internalVariable (nbInternal cs), cs') /\
    step cs cs' [c] [] /\
    forall csF w, extends cs' csF -> solves csF w [c] ->
      value csF w (linExp (internalVariable (nbInternal cs)))
      = normalize (value csF w (linExp b)
                   * (operandValue csF w i1 - operandValue csF w i2)
                   + operandValue csF w i2).
Proof.
  intros R Wb W1 W2.
  pose proof (newInternalVariable_step cs) as S0.
  pose proof (newInternalVariable_eq cs) as E0.
  set (cs0 := mkCS _ _ _ _ _ _ _) in *.
  set (res := internalVariable (nbInternal cs)) in *.
  pose proof (step_reserved _ _ _ _ S0 R) as R0.
  assert (X0 : extends cs cs0) by ext.
  destruct (Sub_val i1 i2 cs0 R0 (extends_wfOperand _ _ _ X0 W1)
              (extends_wfOperand _ _ _ X0 W2))
    as (v & cs1 & E1 & G1 & Wv & Cv & V1).
  pose proof (grows_reserved _ _ G1 R0) as R1.
  assert (X1 : extends cs cs1) by ext.
  assert (Wr : wfOperand cs1 (Var res)).
  { apply wfOperand_Var; [apply complete_internalVariable|].
    now apply wf_internalVariable. }
  destruct (Sub_val (Var res) i2 cs1 R1 Wr (extends_wfOperand _ _ _ X1 W2))
    as (u & cs2 & E2 & G2 & Wu & Cu & V2).
  assert (X2 : extends cs cs2) by ext.
  assert (Wc : wfR1C cs2 (newR1C b v u None)).
  { split; [|split]; unfold newR1C, Clone; cbn [R1C_L R1C_R R1C_O]; auto.
    - eapply extends_wfLinExp; eauto.
    - eapply grows_wfLinExp; eauto. }
  pose proof (appendConstraint_step _ cs2 Wc) as S3.
  set (cs' := mkCS _ _ _ _ _ _ _) in S3.
  exists cs', (newR1C b v u None). split.
  { unfold selectEmit. rewrite (bind_ok _ _ _ _ _ E0).
    rewrite (bind_ok _ _ _ _ _ E1), (bind_ok _ _ _ _ _ E2). reflexivity. }
  split.
  { change [newR1C b v u None] with ([] ++ [] ++ [] ++ [newR1C b v u None]).
    change (@nil (R1C * nat)) with (@nil (R1C * nat) ++ [] ++ [] ++ []).
    eapply step_trans; [exact S0|].
    eapply step_trans; [apply grows_step; exact G1|].
    eapply step_trans; [apply grows_step; exact G2|exact S3]. }
  intros csF w X Sv. apply solves_cons in Sv. destruct Sv as [Sc _].
  assert (X' : extends cs2 csF).
  { eapply extends_trans; [|exact X]. now apply same_coeffs_extends. }
  unfold satisfied, newR1C, Clone in Sc. cbn [R1C_L R1C_R R1C_O] in Sc.
  rewrite (V1 csF w), (V2 csF w) in Sc by ext.
  rewrite (operandValue_Var csF w res (complete_internalVariable _)) in Sc.
  rewrite normalize_mul_r in Sc. apply normalize_solve_l in Sc.
  rewrite <- (value_normalized csF w (linExp res)). exact Sc.
Qed.

Lemma Select_val b x y cs :
  reserved cs -> wfLinExp cs (linExp (completeDanglingVariable b)) ->
  wfOperand cs (Var x) -> wfOperand cs (Var y) ->
  exists cs' c aN,
    Select b (Var x) (Var y) cs = Ok (internalVariable (nbInternal cs), cs') /\
    step cs cs' [c] aN /\
    List.length aN = (if isBoolean b then 0 else 1)%nat /\
    forall csF w, extends cs' csF -> solves csF w [c] ->
      value csF w (linExp (internalVariable (nbInternal cs)))
      = normalize (value csF w (linExp (completeDanglingVariable b))
                   * (operandValue csF w (Var x) - operandValue csF w (Var y))
                   + operandValue csF w (Var y)).
Proof.
  intros R Wb Wx Wy.
  assert (Wb' : wfLinExp cs (linExp (completeDanglingVariable
                                        (completeDanglingVariable b))))
    by now rewrite complete_idem.
  destruct (AssertIsBoolean_step _ cs R Wb') as (cs1 & aN & E1 & S1 & N1 & L1 & _).
  pose proof (step_reserved _ _ _ _ S1 R) as R1.
  assert (X1 : extends cs cs1) by ext.
  assert (Wx1 : wfOperand cs1 (Var (completeDanglingVariable x))).
  { apply wfOperand_Var; [apply complete_idem|].
    eapply extends_wfLinExp; [exact X1|exact Wx]. }
  destruct (selectEmit_val (completeDanglingVariable b)
              (Var (completeDanglingVariable x)) (Var y) cs1 R1
              (extends_wfLinExp _ _ _ X1 Wb) Wx1 (extends_wfOperand _ _ _ X1 Wy))
    as (cs' & c & E2 & S2 & V).
  rewrite N1 in *.
  exists cs', c, aN. split.
  { rewrite Select_Var_first, (bind_ok _ _ _ _ _ E1). exact E2. }
  split.
  { change [c] with ([] ++ [c]). rewrite <- (app_nil_r aN).
    exact (step_trans _ _ _ _ _ _ _ S1 S2). }
  split; [now rewrite L1, complete_isBoolean|].
  intros csF w X Sv. rewrite (V csF w X Sv).
  now rewrite operandValue_complete.
Qed.

(** One iteration on bit [k]: the bits of the value are the internal wires
    from [nw] on, those of the bound from [nb] on. *)
Lemma lessOrEqVarStep_ok dbg nw nb zero k p cur cs :
  1 < q -> (k < nbBits)%nat ->
  List.length p = S nbBits -> nth_error p (S k) = Some cur ->
  reserved cs -> wfLinExp cs (linExp cur) -> completeDanglingVariable cur = cur ->
  wfLinExp cs (linExp zero) -> completeDanglingVariable zero = zero ->
  (forall csF w, extends cs csF -> w (One, 0%nat) = 1 ->
                 value csF w (linExp zero) = 0) ->
  exists cur' cs' cN aN,
    lessOrEqVarStep dbg (map internalVariable (seq nw nbBits))
      (map internalVariable (seq nb nbBits)) zero k p cs
    = Ok (update p k cur', cs') /\
    step cs cs' cN aN /\
    List.length cN = 3%nat /\ List.length aN = 3%nat /\
    wfLinExp cs' (linExp cur') /\ completeDanglingVariable cur' = cur' /\
    compares nw (bitOf nb) k 1 cur cur' cs' cN aN.
Proof.
  intros Hq Hk Lp Hcur R Wc Cc Wz Cz Vz.
  pose proof (nth_error_bits nw nbBits k Hk) as Hwi.
  pose proof (nth_error_bits nb nbBits k Hk) as Hbi.
  set (wi := internalVariable (nw + k)) in *.
  set (bi := internalVariable (nb + k)) in *.
  assert (Wbit : forall m cs0, reserved cs0 ->
                               wfOperand cs0 (Var (internalVariable m))).
  { intros m cs0 R0. apply wfOperand_Var; [apply complete_internalVariable|].
    now apply wf_internalVariable. }
  assert (Lk : (k < List.length p)%nat) by lia.
  (* p1 := p[k+1] * w[k] *)
  destruct (mul_val (Var cur) (Var wi) cs R (wfOperand_Var _ _ Cc Wc) (Wbit _ _ R))
    as (p1 & cs1 & cm & E1 & S1 & L1 & W1 & C1 & V1).
  assert (E1' : Mul (Var cur) (Var wi) [] cs = Ok (p1, cs1))
    by (rewrite Mul_nil, bind_ret_r; exact E1).
  pose proof (step_reserved _ _ _ _ S1 R) as R1.
  assert (X1 : extends cs cs1) by ext.
  (* p[k] := Select(bound[k], p1, p[k+1]) *)
  assert (Wcur1 : wfOperand cs1 (Var cur)).
  { apply wfOperand_Var; [exact Cc|]. eapply extends_wfLinExp; eauto. }
  destruct (Select_val bi p1 cur cs1 R1 (Wbit _ _ R1) (wfOperand_Var _ _ C1 W1) Wcur1)
    as (cs2 & c2 & a2 & E2 & S2 & L2 & V2).
  set (pk := internalVariable (nbInternal cs1)) in *.
  pose proof (step_reserved _ _ _ _ S2 R1) as R2.
  assert (X2 : extends cs cs2) by ext.
  assert (Hcur' : nth_error (update p k pk) (S k) = Some cur)
    by (rewrite nth_error_update_neq by lia; exact Hcur).
  (* t := Select(bound[k], zero, p[k+1]) *)
  assert (Wz2 : wfOperand cs2 (Var zero)).
  { apply wfOperand_Var; [exact Cz|]. eapply extends_wfLinExp; eauto. }
  assert (Wcur2 : wfOperand cs2 (Var cur)).
  { apply wfOperand_Var; [exact Cc|]. eapply extends_wfLinExp; eauto. }
  destruct (Select_val bi zero cur cs2 R2 (Wbit _ _ R2) Wz2 Wcur2)
    as (cs3 & c3 & a3 & E3 & S3 & L3 & V3).
  set (t := internalVariable (nbInternal cs2)) in *.
  pose proof (step_reserved _ _ _ _ S3 R2) as R3.
  (* l := 1 - t - w[k] *)
  destruct (Sub_val (Var getOneVariable) (Var t) cs3 R3
              (wf_getOneVariable _ R3) (Wbit _ _ R3))
    as (l1 & cs4 & E4 & G4 & W4 & C4 & V4).
  pose proof (grows_reserved _ _ G4 R3) as R4.
  destruct (Sub_val (Var l1) (Var wi) cs4 R4 (wfOperand_Var _ _ C4 W4) (Wbit _ _ R4))
    as (l2 & cs5 & E5 & G5 & W5 & C5 & V5).
  pose proof (grows_reserved _ _ G5 R4) as R5.
  destruct (Constant_Const_val 0 cs5 R5) as (o & cs6 & E6 & G6 & W6 & C6 & V6).
  pose proof (grows_reserved _ _ G6 R5) as R6.
  assert (Wa : wfR1C cs6 (newR1C l2 wi o None)).
  { split; [|split]; unfold newR1C, Clone; cbn [R1C_L R1C_R R1C_O].
    - eapply grows_wfLinExp; eauto.
    - now apply wf_internalVariable.
    - exact W6. }
  pose proof (addAssertion_step _ dbg cs6 Wa) as S7.
  set (cs' := mkCS _ _ _ _ _ _ _) in S7.
  set (af := (newR1C l2 wi o None, List.length (logs cs6))) in *.
  assert (S : step cs cs' (cm ++ [c2] ++ [c3] ++ [] ++ [] ++ [] ++ [])
                (([] ++ a2 ++ a3 ++ [] ++ [] ++ [] ++ [af]))).
  { eapply step_trans; [exact S1|]. eapply step_trans; [exact S2|].
    eapply step_trans; [exact S3|].
    eapply step_trans; [apply grows_step; exact G4|].
    eapply step_trans; [apply grows_step; exact G5|].
    eapply step_trans; [apply grows_step; exact G6|exact S7]. }
  exists pk, cs', (cm ++ [c2] ++ [c3] ++ [] ++ [] ++ [] ++ []),
    ([] ++ a2 ++ a3 ++ [] ++ [] ++ [] ++ [af]).
  split.
  { unfold lessOrEqVarStep. rewrite Nat.add_1_r.
    rewrite (bind_ok _ _ _ _ _ (index_ok _ _ _ cs Hcur)).
    rewrite (bind_ok _ _ _ _ _ (index_ok _ _ _ cs Hwi)).
    rewrite (bind_ok _ _ _ _ _ E1').
    rewrite (bind_ok _ _ _ _ _ (index_ok _ _ _ cs1 Hbi)).
    rewrite (bind_ok _ _ _ _ _ (index_ok _ _ _ cs1 Hcur)).
    rewrite (bind_ok _ _ _ _ _ E2).
    rewrite (bind_ok _ _ _ _ _ (store_ok _ _ _ cs2 Lk)).
    rewrite (bind_ok _ _ _ _ _ (index_ok _ _ _ cs2 Hbi)).
    rewrite (bind_ok _ _ _ _ _ (index_ok _ _ _ cs2 Hcur')).
    rewrite (bind_ok _ _ _ _ _ E3).
    rewrite (bind_ok _ _ _ _ _ E4).
    rewrite (bind_ok _ _ _ _ _ (index_ok _ _ _ cs4 Hwi)).
    rewrite (bind_ok _ _ _ _ _ E5).
    rewrite (bind_ok _ _ _ _ _ (index_ok _ _ _ cs5 Hwi)).
    rewrite (bind_ok _ _ _ _ _ E6). reflexivity. }
  split; [exact S|].
  split; [rewrite !length_app, L1; reflexivity|].
  split; [rewrite !length_app, L2, L3; reflexivity|].
  split; [apply wf_internalVariable; exact (step_reserved _ _ _ _ S R)|].
  split; [apply complete_internalVariable|].
  apply compares_one. intros csF w X Sv Hv Hb Hc.
  pose proof (solves_one _ _ _ Sv) as Hw.
  assert (RF : reserved csF).
  { eapply extends_reserved; [exact X|]. exact (step_reserved _ _ _ _ S R). }
  assert (Sm : solves csF w cm) by (revert Sv; apply solves_incl; solve_incl).
  assert (S2c : solves csF w [c2]) by (revert Sv; apply solves_incl; solve_incl).
  assert (S3c : solves csF w [c3]) by (revert Sv; apply solves_incl; solve_incl).
  assert (Sf : solves csF w [fst af]) by (revert Sv; apply solves_incl; solve_incl).
  apply solves_cons in Sf. destruct Sf as [Sf _].
  assert (X6 : extends cs6 csF).
  { eapply extends_trans; [|exact X]. now apply same_coeffs_extends. }
  pose proof (extends_trans _ _ _ (grows_extends _ _ G6) X6) as X5F.
  pose proof (extends_trans _ _ _ (grows_extends _ _ G5) X5F) as X4F.
  pose proof (extends_trans _ _ _ (grows_extends _ _ G4) X4F) as X3F.
  pose proof (extends_trans _ _ _ (step_extends _ _ _ _ S3) X3F) as X2F.
  pose proof (extends_trans _ _ _ (step_extends _ _ _ _ S2) X2F) as X1F.
  pose proof (extends_trans _ _ _ (step_extends _ _ _ _ S1) X1F) as X0F.
  (* the values of the intermediate variables *)
  pose proof (V1 csF w X1F Sm) as Ep1.
  rewrite (operandValue_Var _ _ _ Cc), Hc in Ep1.
  rewrite (operandValue_Var csF w wi (complete_internalVariable _)) in Ep1.
  unfold wi in Ep1. rewrite (value_bit _ _ _ _ RF), Z.mul_1_l in Ep1.
  rewrite bitOf_normalized in Ep1.
  pose proof (V2 csF w X2F S2c) as Epk.
  rewrite (operandValue_Var _ _ _ C1), Ep1 in Epk.
  rewrite (operandValue_Var _ _ _ Cc), Hc in Epk.
  unfold bi in Epk.
  rewrite complete_internalVariable, (value_bit _ _ _ _ RF) in Epk.
  pose proof (V3 csF w X3F S3c) as Et.
  rewrite (operandValue_Var _ _ _ Cz), (Vz csF w X0F Hw) in Et.
  rewrite (operandValue_Var _ _ _ Cc), Hc in Et.
  unfold bi in Et.
  rewrite complete_internalVariable, (value_bit _ _ _ _ RF) in Et.
  unfold satisfied, af, newR1C, Clone in Sf. cbn [fst R1C_L R1C_R R1C_O] in Sf.
  rewrite (V6 csF w X6 Hw), (V5 csF w X5F) in Sf.
  rewrite (operandValue_Var _ _ _ C4), (V4 csF w X4F) in Sf.
  rewrite (operandValue_Var csF w t (complete_internalVariable _)), Et in Sf.
  rewrite (operandValue_Var csF w wi (complete_internalVariable _)) in Sf.
  change (operandValue csF w (Var getOneVariable))
    with (value csF w (linExp getOneVariable)) in Sf.
  rewrite (value_getOneVariable _ _ RF Hw), (normalize_one Hq) in Sf.
  unfold wi in Sf. rewrite (value_bit _ _ _ _ RF) in Sf.
  rewrite normalize_zero in Sf.
  fold pk. destruct Hb as [Hb|Hb]; destruct Hv as [Hv|Hv];
    rewrite Hb, Hv in *.
  - right. split; [reflexivity|]. rewrite Epk.
    replace (0 * (0 - 1) + 1) with 1 by lia. now apply normalize_one.
  - exfalso.
    replace (0 * (0 - 1) + 1) with 1 in Sf by lia.
    rewrite (normalize_one Hq), Z.sub_diag, normalize_zero in Sf.
    rewrite Z.mul_1_r, normalize_idem in Sf.
    exact (minus_one_nonzero Hq Sf).
  - left. lia.
  - right. split; [reflexivity|]. rewrite Epk.
    replace (1 * (1 - 1) + 1) with 1 by lia. now apply normalize_one.
Qed.

(** The loop of [mustBeLessOrEqVar]: the [n] low bits. *)
Lemma lessOrEqVarLoop_ok dbg nw nb zero : forall n p cur cs,
  1 < q -> (n <= nbBits)%nat ->
  List.length p = S nbBits -> nth_error p n = Some cur ->
  reserved cs -> wfLinExp cs (linExp cur) -> completeDanglingVariable cur = cur ->
  wfLinExp cs (linExp zero) -> completeDanglingVariable zero = zero ->
  (forall csF w, extends cs csF -> w (One, 0%nat) = 1 ->
                 value csF w (linExp zero) = 0) ->
  exists p' cur' cs' cN aN,
    lessOrEqVarLoop dbg (map internalVariable (seq nw nbBits))
      (map internalVariable (seq nb nbBits)) zero n p cs = Ok (p', cs') /\
    step cs cs' cN aN /\
    List.length cN = (3 * n)%nat /\ List.length aN = (3 * n)%nat /\
    compares nw (bitOf nb) 0 n cur cur' cs' cN aN.
Proof.
  induction n as [|n IH]; intros p cur cs Hq Hn Lp Hcur R W C Wz Cz Vz.
  - exists p, cur, cs, [], []. split; [reflexivity|]. split; [apply step_refl|].
    split; [reflexivity|]. split; [reflexivity|]. apply compares_nil.
  - destruct (lessOrEqVarStep_ok dbg nw nb zero n p cur cs Hq ltac:(lia)
                Lp Hcur R W C Wz Cz Vz)
      as (cur1 & cs1 & c1 & a1 & E1 & S1 & Lc1 & La1 & W1 & C1 & K1).
    assert (Lk : (n < List.length p)%nat) by lia.
    assert (X1 : extends cs cs1) by exact (step_extends _ _ _ _ S1).
    assert (Vz1 : forall csF w, extends cs1 csF -> w (One, 0%nat) = 1 ->
                                value csF w (linExp zero) = 0).
    { intros csF w X Hw. apply Vz; [|exact Hw]. eapply extends_trans; eauto. }
    destruct (IH (update p n cur1) cur1 cs1 Hq ltac:(lia)
                ltac:(now rewrite length_update)
                (nth_error_update_eq _ _ _ Lk)
                (step_reserved _ _ _ _ S1 R) W1 C1
                (extends_wfLinExp _ _ _ X1 Wz) Cz Vz1)
      as (p' & cur' & cs' & c2 & a2 & E2 & S2 & Lc2 & La2 & K2).
    exists p', cur', cs', (c1 ++ c2), (a1 ++ a2). split.
    { cbn [lessOrEqVarLoop]. now rewrite (bind_ok _ _ _ _ _ E1). }
    split; [exact (step_trans _ _ _ _ _ _ _ S1 S2)|].
    split; [rewrite length_app, Lc1, Lc2; lia|].
    split; [rewrite length_app, La1, La2; lia|].
    rewrite <- Nat.add_1_r.
    exact (compares_app nw (bitOf nb) 0 n 1
             _ _ _ _ _ _ _ _ _ K1 K2 (step_extends _ _ _ _ S2)).
Qed.

Lemma mustBeLessOrEqVar_ok v bound cs :
  Z.prime q -> Z.odd q = true -> reserved cs ->
  wfLinExp cs (linExp v) -> completeDanglingVariable v = v ->
  wfLinExp cs (linExp bound) -> completeDanglingVariable bound = bound ->
  exists cs' cN aN,
    mustBeLessOrEqVar v bound cs = Ok (tt, cs') /\
    step cs cs' cN aN /\
    List.length cN = (2 + 3 * nbBits)%nat /\
    List.length aN = (2 * nbBits + 3 * nbBits)%nat /\
    forall w, solves cs' w (cN ++ map fst aN) ->
      let vBits := map (bitOf (nbInternal cs) w) (seq 0 nbBits) in
      let bBits := map (bitOf (nbInternal cs + nbBits) w) (seq 0 nbBits) in
      Forall isBit vBits /\ Forall isBit bBits /\
      0 <= binaryValue vBits <= binaryValue bBits /\
      binaryValue bBits < 2 ^ 256 /\
      value cs w (linExp v) = normalize (binaryValue vBits) /\
      value cs w (linExp bound) = normalize (binaryValue bBits).
Proof.
  intros P Hodd R Wv Cv Wb Cb. pose proof (Z.prime_ge_2 _ P) as Hq2.
  assert (Hq : 1 < q) by lia.
  destruct (buildLogEntryFromVariable_ok v cs Wv) as (dbgW & E0 & _).
  destruct (buildLogEntryFromVariable_ok bound cs Wb) as (dbgB & E0' & _).
  assert (Hbits : (0 < nbBits)%nat) by (unfold nbBits; lia).
  assert (Wvc : wfLinExp cs (linExp (completeDanglingVariable v)))
    by now rewrite Cv.
  destruct (ToBinary_step v nbBits cs Hbits Hq Hodd R Wvc)
    as (cs1 & a1 & c1 & E1 & S1 & L1 & F1 & EL1 & ER1 & EO1 & NI1).
  pose proof (step_reserved _ _ _ _ S1 R) as R1.
  assert (X01 : extends cs cs1) by exact (step_extends _ _ _ _ S1).
  assert (Wbc : wfLinExp cs1 (linExp (completeDanglingVariable bound))).
  { rewrite Cb. eapply extends_wfLinExp; eauto. }
  destruct (ToBinary_step bound nbBits cs1 Hbits Hq Hodd R1 Wbc)
    as (cs2 & a2 & c2 & E2 & S2 & L2 & F2 & EL2 & ER2 & EO2 & _).
  pose proof (step_reserved _ _ _ _ S2 R1) as R2.
  set (nw := nbInternal cs) in *. set (nb := nbInternal cs1) in *.
  set (p0 := update (repeat zeroVariable (nbBits + 1)) nbBits getOneVariable).
  assert (Lr : (nbBits < List.length (repeat zeroVariable (nbBits + 1)))%nat)
    by (rewrite repeat_length; lia).
  assert (Lp0 : List.length p0 = S nbBits).
  { unfold p0. rewrite length_update by exact Lr. rewrite repeat_length. lia. }
  assert (Hcur : nth_error p0 nbBits = Some getOneVariable)
    by (now apply nth_error_update_eq).
  destruct (Constant_Const_val 0 cs2 R2) as (zero & cs3 & E3 & G3 & Wz & Cz & Vz).
  pose proof (grows_reserved _ _ G3 R2) as R3.
  assert (Vz' : forall csF w, extends cs3 csF -> w (One, 0%nat) = 1 ->
                              value csF w (linExp zero) = 0).
  { intros csF w X Hw. rewrite (Vz csF w X Hw). apply normalize_zero. }
  set (dbg := mkLogEntry
                (withCallStack
                   (format dbgW ++ " <= " ++ format dbgB)%string)
                (toResolve dbgW ++ toResolve dbgB)).
  destruct (lessOrEqVarLoop_ok dbg nw nb zero nbBits p0 getOneVariable cs3 Hq
              (Nat.le_refl _) Lp0 Hcur R3 (wf_getOneVariable _ R3) eq_refl
              Wz Cz Vz')
    as (p' & cur' & cs4 & cL & aL & E4 & S4 & LcL & LaL & K).
  assert (S : step cs cs4 ([c1] ++ [c2] ++ [] ++ cL) (a1 ++ a2 ++ [] ++ aL)).
  { eapply step_trans; [exact S1|]. eapply step_trans; [exact S2|].
    eapply step_trans; [apply grows_step; exact G3|exact S4]. }
  exists cs4, ([c1] ++ [c2] ++ [] ++ cL), (a1 ++ a2 ++ [] ++ aL). split.
  { unfold mustBeLessOrEqVar. rewrite (bind_ok _ _ _ _ _ E0).
    rewrite (bind_ok _ _ _ _ _ E0'). cbv zeta.
    rewrite (bind_ok _ _ _ _ _ E1), (bind_ok _ _ _ _ _ E2).
    change (Constant (Const 1)) with (ret getOneVariable).
    unfold bind at 1, ret at 1. cbv beta iota.
    rewrite (bind_ok _ _ _ _ _ (store_ok _ _ _ cs2 Lr)).
    fold p0. rewrite (bind_ok _ _ _ _ _ E3). fold dbg.
    rewrite (bind_ok _ _ _ _ _ E4). reflexivity. }
  split; [exact S|].
  split; [rewrite !length_app, LcL; reflexivity|].
  split; [rewrite !length_app, L1, L2, LaL; cbn [List.length]; lia|].
  intros w Sv. pose proof (solves_one _ _ _ Sv) as Hw.
  assert (Sc1 : solves cs4 w [c1]) by (revert Sv; apply solves_incl; solve_incl).
  assert (Sc2 : solves cs4 w [c2]) by (revert Sv; apply solves_incl; solve_incl).
  assert (Sa1 : solves cs4 w (map fst a1))
    by (revert Sv; apply solves_incl; solve_incl).
  assert (Sa2 : solves cs4 w (map fst a2))
    by (revert Sv; apply solves_incl; solve_incl).
  assert (SL : solves cs4 w (cL ++ map fst aL))
    by (revert Sv; apply solves_incl; solve_incl).
  apply solves_cons in Sc1. destruct Sc1 as [Sc1 _].
  apply solves_cons in Sc2. destruct Sc2 as [Sc2 _].
  assert (X34 : extends cs3 cs4) by exact (step_extends _ _ _ _ S4).
  assert (X24 : extends cs2 cs4).
  { eapply extends_trans; [exact (grows_extends _ _ G3)|exact X34]. }
  assert (X14 : extends cs1 cs4).
  { eapply extends_trans; [exact (step_extends _ _ _ _ S2)|exact X24]. }
  assert (X04 : extends cs cs4) by (eapply extends_trans; eauto).
  pose proof (step_wf _ _ _ _ S1) as Wf1. inversion Wf1 as [|? ? Wfc1 _]; subst.
  pose proof (step_wf _ _ _ _ S2) as Wf2. inversion Wf2 as [|? ? Wfc2 _]; subst.
  pose proof (bits_boolean nw nbBits cs1 a1 cs4 w P R1 X14 F1 Sa1) as Hbw.
  pose proof (bits_boolean nb nbBits cs2 a2 cs4 w P R2 X24 F2 Sa2) as Hbb.
  assert (Hb : forall k, (0 <= k < 0 + nbBits)%nat ->
                         isBit (bitOf nw w k) /\ isBit (bitOf nb w k)).
  { intros k Hk. split; [apply Hbw|apply Hbb]; lia. }
  assert (Hone : value cs4 w (linExp getOneVariable) = 1).
  { rewrite (value_getOneVariable _ _ (step_reserved _ _ _ _ S4 R3) Hw).
    now apply normalize_one. }
  pose proof (K cs4 w (extends_refl _) SL Hb Hone) as Hle. cbv zeta in Hle.
  pose proof (binaryValue_bounds (map (bitOf nw w) (seq 0 nbBits))
                (Forall_isBit_range _ _ _ (fun k Hk => proj1 (Hb k Hk)))) as BV.
  pose proof (binaryValue_bounds (map (bitOf nb w) (seq 0 nbBits))
                (Forall_isBit_range _ _ _ (fun k Hk => proj2 (Hb k Hk)))) as BB.
  rewrite length_map, length_seq in BB.
  cbv zeta. rewrite <- NI1.
  split; [exact (Forall_isBit_range _ _ _ (fun k Hk => proj1 (Hb k Hk)))|].
  split; [exact (Forall_isBit_range _ _ _ (fun k Hk => proj2 (Hb k Hk)))|].
  split; [lia|]. split; [exact (proj2 BB)|]. split.
  - rewrite <- (extends_value _ _ w _ X04 Wv).
    rewrite <- Cv at 1. rewrite <- EO1.
    exact (binaryDec_meaning nw nbBits cs1 c1 cs4 w Wfc1 EL1 ER1 X14 Hw Sc1).
  - rewrite <- (extends_value _ _ w _ X04 Wb).
    rewrite <- Cb at 1. rewrite <- EO2.
    exact (binaryDec_meaning nb nbBits cs2 c2 cs4 w Wfc2 EL2 ER2 X24 Hw Sc2).
Qed.

(** X19: AssertIsLessOrEqual(v, bound) with a bound of type Variable over
    a prime field.  Both operands are decomposed into 256 bits, on the
    512 internal wires the call allocates: the first 256 for v, the next
    256 for the bound.  The call appends 2 + 3*256 constraints and adds
    2*256 + 3*256 assertions.  Under every witness that satisfies them
    the 512 wires hold bits, v and the bound are the classes of the
    integers V and B the two groups of wires pack to, little endian, and
    V <= B: the comparison holds between the decompositions.  So the
    value of v is at most the value of the bound whenever the
    decomposition of the bound is its value in [0, q), and always when
    2^256 does not exceed the modulus. *)
Theorem AssertIsLessOrEqual_variable (cs : ConstraintSystem)
  (v bound : variable)
  (P : Z.prime q) (Hodd : Z.odd q = true) (R : reserved cs)
  (Wv : wfLinExp cs (linExp (completeDanglingVariable v)))
  (Wb : wfLinExp cs (linExp (completeDanglingVariable bound))) :
  exists cs' cN aN,
    AssertIsLessOrEqual v (Var bound) cs = Ok (tt, cs') /\
    constraints cs' = constraints cs ++ cN /\
    assertions cs' = assertions cs ++ aN /\
    List.length cN = 770%nat /\ List.length aN = 1280%nat /\
    forall w, solves cs' w (cN ++ map fst aN) ->
      let vBits := map (bitOf (nbInternal cs) w) (seq 0 256) in
      let bBits := map (bitOf (nbInternal cs + 256) w) (seq 0 256) in
      let x := value cs w (linExp (completeDanglingVariable v)) in
      let y := value cs w (linExp (completeDanglingVariable bound)) in
      Forall isBit vBits /\ Forall isBit bBits /\
      binaryValue vBits <= binaryValue bBits /\
      x = normalize (binaryValue vBits) /\
      y = normalize (binaryValue bBits) /\
      (binaryValue bBits < q -> x <= y) /\
      (2 ^ 256 <= q -> x <= y).
Proof.
  destruct (mustBeLessOrEqVar_ok _ _ cs P Hodd R Wv (complete_idem v)
              Wb (complete_idem bound))
    as (cs' & cN & aN & E & S & Lc & La & Sound).
  exists cs', cN, aN. split; [exact E|].
  split; [apply S|]. split; [apply S|].
  split; [rewrite Lc; reflexivity|]. split; [rewrite La; reflexivity|].
  intros w Sv. destruct (Sound w Sv) as (Fv & Fb & HV & HB & EV & EB).
  cbv zeta in *. change 256%nat with nbBits.
  set (V := binaryValue (map (bitOf (nbInternal cs) w) (seq 0 nbBits))) in *.
  set (B := binaryValue (map (bitOf (nbInternal cs + nbBits) w)
                           (seq 0 nbBits))) in *.
  set (x := value cs w (linExp (completeDanglingVariable v))) in *.
  set (y := value cs w (linExp (completeDanglingVariable bound))) in *.
  clearbody V B x y.
  assert (Small : B < q -> x <= y).
  { intros HBq. rewrite EV, EB. unfold normalize.
    rewrite !Z.mod_small by lia. lia. }
  split; [exact Fv|]. split; [exact Fb|]. split; [lia|].
  split; [exact EV|]. split; [exact EB|]. split; [exact Small|].
  intros Hq. apply Small. lia.
Qed.

(** X20: soundness of ToBinary over a prime field.  Under every witness
    that satisfies the constraint and the assertions the call appends,
    every returned bit is 0 or 1 and the bits pack, little endian, to the
    value of a in the field; when 2^n does not exceed the modulus the
    bits are the binary digits of the value itself. *)
Theorem ToBinary_sound (cs : ConstraintSystem) (a : variable) (n : nat)
  (Hn : (0 < n)%nat) (P : Z.prime q) (Hodd : Z.odd q = true)
  (R : reserved cs)
  (Wa : wfLinExp cs (linExp (completeDanglingVariable a))) :
  exists bits cs' cN aN,
    ToBinary a n cs = Ok (bits, cs') /\
    List.length bits = n /\
    constraints cs' = constraints cs ++ cN /\
    assertions cs' = assertions cs ++ aN /\
    forall w, solves cs' w (cN ++ map fst aN) ->
      let vals := map (fun b => value cs' w (linExp b)) bits in
      Forall isBit vals /\
      value cs w (linExp (completeDanglingVariable a))
      = normalize (binaryValue vals) /\
      (2 ^ Z.of_nat n <= q ->
       value cs w (linExp (completeDanglingVariable a)) = binaryValue vals).
Proof.
  pose proof (Z.prime_ge_2 _ P) as Hq2. assert (Hq : 1 < q) by lia.
  destruct (ToBinary_step a n cs Hn Hq Hodd R Wa)
    as (cs' & aN & c & E & S & L & F & EL & ER & EO & _).
  pose proof (step_reserved _ _ _ _ S R) as R'.
  exists (map internalVariable (seq (nbInternal cs) n)), cs', [c], aN.
  split; [exact E|]. split; [now rewrite length_map, length_seq|].
  split; [apply S|]. split; [apply S|].
  intros w Sv. pose proof (solves_one _ _ _ Sv) as Hw.
  apply solves_app in Sv. destruct Sv as [Sc Sa].
  apply solves_cons in Sc. destruct Sc as [Sc _].
  pose proof (Forall_inv (step_wf _ _ _ _ S)) as Wfc.
  assert (EV : map (fun b => value cs' w (linExp b))
                 (map internalVariable (seq (nbInternal cs) n))
               = map (bitOf (nbInternal cs) w) (seq 0 n)).
  { rewrite map_map, map_seq_shift. apply map_ext. intros k.
    now apply value_bit. }
  cbv zeta. rewrite EV.
  pose proof (bits_boolean (nbInternal cs) n cs' aN cs' w P R' (extends_refl _)
                F Sa) as Hb.
  assert (FB : Forall isBit (map (bitOf (nbInternal cs) w) (seq 0 n))).
  { apply Forall_isBit_range. intros k Hk. apply Hb. lia. }
  assert (V : value cs w (linExp (completeDanglingVariable a))
              = normalize (binaryValue (map (bitOf (nbInternal cs) w) (seq 0 n)))).
  { rewrite <- (extends_value _ _ w _ (step_extends _ _ _ _ S) Wa), <- EO.
    exact (binaryDec_meaning _ n cs' c cs' w Wfc EL ER (extends_refl _) Hw Sc). }
  split; [exact FB|]. split; [exact V|].
  intros Hn2. rewrite V. pose proof (binaryValue_bounds _ FB) as B.
  rewrite length_map, length_seq in B.
  unfold normalize. apply Z.mod_small. lia.
Qed.

End Builder.

(** *** The builder on concrete inputs, over the field of order 13 *)

Example Constant_of_one :
  Constant (Const 1) newConstraintSystem = Ok (getOneVariable, newConstraintSystem).
Proof. reflexivity. Qed.

Example Mul_constant_by_one_wire :
  Mul (Const 3) (Var getOneVariable) [] newConstraintSystem
  = Ok (mkVariable None [Pack 0 4 One] false,
        mkCS 0 0 0 [0; 1; -1; 2; 3] [] [] []).
Proof. reflexivity. Qed.

Example Mul_of_two_variables :
  Mul (Var getOneVariable) (Var getOneVariable) [] newConstraintSystem
  = Ok (internalVariable 0,
        mkCS 0 0 1 [0; 1; -1; 2]
             [mkR1C [Pack 0 1 One] [Pack 0 1 One] [Pack 0 1 Internal] SingleOutput]
             [] []).
Proof. reflexivity. Qed.

(** Add merges the terms of one wire and interns the sum: 5 + 7 = 12. *)
Example Add_of_two_constants :
  Add 13 (Const 5) (Const 7) [] newConstraintSystem
  = Ok (mkVariable None [Pack 0 6 One] false,
        mkCS 0 0 0 [0; 1; -1; 2; 5; 7; 12] [] [] []).
Proof. reflexivity. Qed.

(** The selector is the one-wire, worth 1: the result is the constant
    -1 = 12 of the field, where 7 was to be selected. *)
Example Select_one_7_3 :
  exists cs',
    Select 13 [] getOneVariable (Const 7) (Const 3) newConstraintSystem
    = Ok (mkVariable None [Pack 0 6 One] false, cs') /\
    coeffs cs' = [0; 1; -1; 2; -4; 3; 12] /\
    constraints cs' = [].
Proof. eexists. split; [cbv; reflexivity|]. split; reflexivity. Qed.

(** The selector is the constant 0: the result is 3, the second branch. *)
Example Select_zero_7_3 :
  exists r cs',
    (b <- Constant (Const 0) ;; Select 13 [] b (Const 7) (Const 3))
      newConstraintSystem = Ok (r, cs') /\
    value 13 cs' (fun _ => 1) (linExp r) = 3.
Proof. eexists _, _. split; [cbv; reflexivity|reflexivity]. Qed.

(** *** Instances of the theorems on concrete inputs *)

Lemma Mul_spec_witness :
  reserved newConstraintSystem /\
  wfLinExp newConstraintSystem
           (linExp (completeDanglingVariable getOneVariable)) /\
  exists r cs',
    Mul (Const 3) (Var getOneVariable) [] newConstraintSystem = Ok (r, cs') /\
    constraints cs' = [].
Proof.
  assert (R : reserved newConstraintSystem) by reflexivity.
  assert (W : wfLinExp newConstraintSystem
                (linExp (completeDanglingVariable getOneVariable)))
    by (repeat constructor).
  split; [exact R|]. split; [exact W|].
  destruct (Mul_spec 13 newConstraintSystem getOneVariable
              (internalVariable 0) 3 2 5 R W)
    as (_ & (r & cs' & E & _ & _ & C & _) & _).
  exists r, cs'. split; [exact E|exact C].
Defined.

Lemma Mul_dispatch_on_type_witness :
  reserved newConstraintSystem /\
  exists cs',
    Mul (Var getOneVariable) (Var (internalVariable 0)) [] newConstraintSystem
    = Ok (internalVariable 0, cs') /\
    nbInternal cs' = 1%nat.
Proof.
  assert (R : reserved newConstraintSystem) by reflexivity.
  split; [exact R|].
  destruct (Mul_dispatch_on_type newConstraintSystem R) as (H & _).
  destruct (H getOneVariable (internalVariable 0)) as (cs' & E & N & _).
  exists cs'. split; [exact E|exact N].
Defined.

Lemma Add_comm_witness :
  reserved newConstraintSystem /\
  wfOperand newConstraintSystem (Const 5) /\
  wfOperand newConstraintSystem (Var getOneVariable) /\
  exists r cs1 cs2,
    Add 13 (Const 5) (Var getOneVariable) [] newConstraintSystem = Ok (r, cs1) /\
    Add 13 (Var getOneVariable) (Const 5) [] newConstraintSystem = Ok (r, cs2).
Proof.
  assert (R : reserved newConstraintSystem) by reflexivity.
  assert (W : wfOperand newConstraintSystem (Var getOneVariable))
    by (repeat constructor).
  split; [exact R|]. split; [exact I|]. split; [exact W|].
  destruct (Add_comm 13 newConstraintSystem (Const 5) (Var getOneVariable) R I W)
    as (r & cs1 & cs2 & E1 & E2 & _).
  now exists r, cs1, cs2.
Defined.

Lemma Select_constants_witness :
  reserved newConstraintSystem /\
  wfLinExp newConstraintSystem
           (linExp (completeDanglingVariable getOneVariable)) /\
  exists r cs',
    Select 13 [] getOneVariable (Const 7) (Const 3) newConstraintSystem
    = Ok (r, cs') /\
    constraints cs' = [] /\
    value 13 cs' (fun _ => 1) (linExp r) = 12.
Proof.
  assert (R : reserved newConstraintSystem) by reflexivity.
  assert (W : wfLinExp newConstraintSystem
                (linExp (completeDanglingVariable getOneVariable)))
    by (repeat constructor).
  split; [exact R|]. split; [exact W|].
  destruct (Select_constants 13 [] newConstraintSystem getOneVariable 7 3
              (fun _ => 1) R W eq_refl)
    as (r & cs' & E & C & _ & V).
  exists r, cs'. split; [exact E|]. split; [exact C|].
  rewrite V. reflexivity.
Defined.

Lemma ToBinary_spec_witness :
  (0 < 4)%nat /\ 1 < 13 /\ Z.odd 13 = true /\
  reserved newConstraintSystem /\
  wfLinExp newConstraintSystem
           (linExp (completeDanglingVariable getOneVariable)) /\
  exists cs' asserts c,
    ToBinary 13 [] getOneVariable 4 newConstraintSystem
    = Ok (map internalVariable [0; 1; 2; 3]%nat, cs') /\
    assertions cs' = asserts /\
    List.length asserts = 4%nat /\
    constraints cs' = [c] /\
    entries cs' (R1C_L c)
    = [(1, (Internal, 0%nat)); (2, (Internal, 1%nat));
       (4, (Internal, 2%nat)); (8, (Internal, 3%nat))].
Proof.
  assert (Hn : (0 < 4)%nat) by (repeat constructor).
  assert (R : reserved newConstraintSystem) by reflexivity.
  assert (W : wfLinExp newConstraintSystem
                (linExp (completeDanglingVariable getOneVariable)))
    by (repeat constructor).
  split; [exact Hn|]. split; [reflexivity|]. split; [reflexivity|].
  split; [exact R|]. split; [exact W|].
  destruct (ToBinary_spec 13 [] newConstraintSystem getOneVariable 4
              Hn eq_refl eq_refl R W)
    as (cs' & asserts & c & E & _ & A & F & K & _ & L & _).
  exists cs', asserts, c. split; [exact E|]. split; [exact A|].
  split; [exact (eq_sym (Forall2_length F))|]. split; [exact K|exact L].
Defined.

(** 13 is prime: the small field the instances below are read in. *)
Lemma prime_13 : Z.prime 13.
Proof.
  split; [lia|]. intros n Hn [k Hk].
  assert (C : n = 2 \/ n = 3 \/ n = 4 \/ n = 5 \/ n = 6 \/ n = 7 \/ n = 8
              \/ n = 9 \/ n = 10 \/ n = 11 \/ n = 12) by lia.
  repeat (destruct C as [C|C]); subst n; lia.
Qed.

Lemma IsZero_spec_witness :
  let cs := mkCS 0 1 0 [0; 1; -1; 2] [] [] [] in
  let a := mkVariable (Some (mkWire Secret 0)) [] false in
  ecc.supported ecc.BN254 = true /\ Z.prime 13 /\ Z.odd 13 = true /\
  reserved cs /\
  wfLinExp cs (linExp (completeDanglingVariable a)) /\
  exists r cs' new,
    IsZero 13 (fun _ => 13) a ecc.BN254 cs = Ok (r, cs') /\
    constraints cs' = new /\
    List.length new = 10%nat /\
    nbInternal cs' = 10%nat /\
    (forall w, w (One, 0%nat) = 1 -> Forall (satisfied 13 cs' w) new ->
       (w (Secret, 0%nat) mod 13 = 0 -> value 13 cs' w (linExp r) = 1) /\
       (w (Secret, 0%nat) mod 13 <> 0 -> value 13 cs' w (linExp r) = 0)) /\
    (forall w, w (One, 0%nat) = 1 ->
       exists w',
         agree 0 w w' /\
         Forall (satisfied 13 cs' w') new /\
         value 13 cs' w' (linExp r)
         = if w (Secret, 0%nat) mod 13 =? 0 then 1 else 0).
Proof.
  intros cs a.
  assert (R : reserved cs) by reflexivity.
  assert (W : wfLinExp cs (linExp (completeDanglingVariable a)))
    by (repeat constructor).
  assert (Sa : scoped (nbInternal cs) (linExp (completeDanglingVariable a))).
  { repeat constructor. intros H. discriminate H. }
  assert (Hv : forall w, value 13 cs w (linExp (completeDanglingVariable a))
                         = w (Secret, 0%nat) mod 13).
  { intros w.
    change (value 13 cs w (linExp (completeDanglingVariable a)))
      with ((1 * w (Secret, 0%nat) + 0) mod 13).
    f_equal. lia. }
  split; [reflexivity|]. split; [exact prime_13|]. split; [reflexivity|].
  split; [exact R|]. split; [exact W|].
  destruct (IsZero_spec 13 (fun _ => 13) cs a ecc.BN254 eq_refl eq_refl
              prime_13 eq_refl R W)
    as (r & cs' & new & E & K & L & N & V & Sat).
  exists r, cs', new. split; [exact E|]. split; [exact K|].
  split; [exact L|]. split; [rewrite N, L; reflexivity|].
  split.
  - intros w Hone F. destruct (V w Hone F) as (_ & V0 & V1).
    rewrite Hv in V0, V1. split; assumption.
  - intros w Hone. destruct (Sat Sa w Hone) as (w' & A & F & Vr).
    rewrite Hv in Vr. exists w'. split; [exact A|]. split; [exact F|exact Vr].
Defined.

Lemma AssertIsBoolean_flag_on_copy_witness :
  let cs := mkCS 0 0 1 [0; 1; -1; 2] [] [] [] in
  reserved cs /\
  wfLinExp cs (linExp (completeDanglingVariable (internalVariable 0))) /\
  isBoolean (internalVariable 0) = false /\
  exists cs1 cs2,
    AssertIsBoolean 13 [] (internalVariable 0) cs = Ok (tt, cs1) /\
    AssertIsBoolean 13 [] (internalVariable 0) cs1 = Ok (tt, cs2) /\
    List.length (assertions cs2) = 2%nat.
Proof.
  cbv zeta.
  assert (R : reserved (mkCS 0 0 1 [0; 1; -1; 2] [] [] [])) by reflexivity.
  assert (W : wfLinExp (mkCS 0 0 1 [0; 1; -1; 2] [] [] [])
                (linExp (completeDanglingVariable (internalVariable 0))))
    by (repeat constructor).
  split; [exact R|]. split; [exact W|]. split; [reflexivity|].
  destruct (AssertIsBoolean_flag_on_copy 13 [] _ (internalVariable 0) R W eq_refl)
    as (_ & cs1 & c1 & _ & E1 & _ & _ & _ & _ & _ & cs2 & c2 & E2 & A2 & _).
  exists cs1, cs2. split; [exact E1|]. split; [exact E2|].
  rewrite A2. reflexivity.
Defined.

(** *** Instances of the further theorems *)

Lemma Add_sum_witness :
  reserved newConstraintSystem /\
  Forall (wfOperand newConstraintSystem)
         [Const 5; Var getOneVariable; Const 7] /\
  exists r cs',
    Add 13 (Const 5) (Var getOneVariable) [Const 7] newConstraintSystem
    = Ok (r, cs') /\
    value 13 cs' (fun _ => 1) (linExp r) = 0.
Proof.
  assert (R : reserved newConstraintSystem) by reflexivity.
  assert (W : Forall (wfOperand newConstraintSystem)
                [Const 5; Var getOneVariable; Const 7])
    by (repeat constructor).
  split; [exact R|]. split; [exact W|].
  destruct (Add_sum 13 newConstraintSystem (Const 5) (Var getOneVariable)
              [Const 7] R W)
    as (r & cs' & E & _ & _ & _ & V).
  exists r, cs'. split; [exact E|]. rewrite V. reflexivity.
Defined.

Lemma Sub_difference_witness :
  reserved newConstraintSystem /\
  wfOperand newConstraintSystem (Var getOneVariable) /\
  wfOperand newConstraintSystem (Const 5) /\
  exists r cs',
    Sub 13 (Var getOneVariable) (Var getOneVariable) newConstraintSystem
    = Ok (r, cs') /\
    linExp r = [].
Proof.
  assert (R : reserved newConstraintSystem) by reflexivity.
  assert (W : wfOperand newConstraintSystem (Var getOneVariable))
    by (repeat constructor).
  split; [exact R|]. split; [exact W|]. split; [exact I|].
  destruct (Sub_difference 13 newConstraintSystem (Var getOneVariable) (Const 5)
              R W I)
    as (_ & r & cs' & E & L).
  exists r, cs'. split; [exact E|exact L].
Defined.

Lemma Neg_opposite_witness :
  let t := mkVariable (Some (mkWire Secret 0)) [] false in
  reserved newConstraintSystem /\
  wfLinExp newConstraintSystem (linExp t) /\
  exists r cs',
    Neg (Var t) newConstraintSystem = Ok (r, cs') /\ linExp r = [].
Proof.
  cbv zeta.
  assert (R : reserved newConstraintSystem) by reflexivity.
  assert (W : wfLinExp newConstraintSystem
                (linExp (mkVariable (Some (mkWire Secret 0)) [] false)))
    by constructor.
  split; [exact R|]. split; [exact W|].
  destruct (Neg_opposite 13 newConstraintSystem
              (mkVariable (Some (mkWire Secret 0)) [] false) 1 R W)
    as ((r & cs' & E & _ & _ & L) & _).
  exists r, cs'. split; [exact E|exact (L eq_refl)].
Defined.

Lemma Add_Neg_witness :
  reserved newConstraintSystem /\
  wfLinExp newConstraintSystem
           (linExp (completeDanglingVariable getOneVariable)) /\
  exists n cs1 r cs2,
    Neg (Var getOneVariable) newConstraintSystem = Ok (n, cs1) /\
    Add 13 (Var getOneVariable) (Var n) [] cs1 = Ok (r, cs2) /\
    linExp r = [].
Proof.
  assert (R : reserved newConstraintSystem) by reflexivity.
  assert (W : wfLinExp newConstraintSystem
                (linExp (completeDanglingVariable getOneVariable)))
    by (repeat constructor).
  split; [exact R|]. split; [exact W|].
  destruct (Add_Neg 13 newConstraintSystem getOneVariable R W)
    as (n & cs1 & r & cs2 & E1 & E2 & _ & L & _).
  exists n, cs1, r, cs2. split; [exact E1|]. split; [exact E2|exact (L eq_refl)].
Defined.

Lemma Mul_product_witness :
  reserved newConstraintSystem /\
  Forall (wfOperand newConstraintSystem)
         [Var getOneVariable; Var getOneVariable; Const 3; Var getOneVariable] /\
  exists r cs' cN,
    Mul (Var getOneVariable) (Var getOneVariable)
        [Const 3; Var getOneVariable] newConstraintSystem = Ok (r, cs') /\
    constraints cs' = cN /\ List.length cN = 2%nat.
Proof.
  assert (R : reserved newConstraintSystem) by reflexivity.
  assert (W : Forall (wfOperand newConstraintSystem)
                [Var getOneVariable; Var getOneVariable; Const 3;
                 Var getOneVariable])
    by (repeat constructor).
  split; [exact R|]. split; [exact W|].
  destruct (Mul_product 13 newConstraintSystem (Var getOneVariable)
              (Var getOneVariable) [Const 3; Var getOneVariable] R W)
    as (r & cs' & cN & E & C & L & _).
  exists r, cs', cN. split; [exact E|]. split; [exact C|exact L].
Defined.

Lemma Inverse_spec_witness :
  reserved newConstraintSystem /\
  wfLinExp newConstraintSystem
           (linExp (completeDanglingVariable getOneVariable)) /\
  exists cs' c,
    Inverse getOneVariable newConstraintSystem = Ok (internalVariable 0, cs') /\
    constraints cs' = [c].
Proof.
  assert (R : reserved newConstraintSystem) by reflexivity.
  assert (W : wfLinExp newConstraintSystem
                (linExp (completeDanglingVariable getOneVariable)))
    by (repeat constructor).
  split; [exact R|]. split; [exact W|].
  destruct (Inverse_spec 13 newConstraintSystem getOneVariable R W)
    as (cs' & c & E & _ & C & _).
  exists cs', c. split; [exact E|exact C].
Defined.

Lemma Div_spec_witness :
  reserved newConstraintSystem /\
  wfOperand newConstraintSystem (Const 6) /\
  wfOperand newConstraintSystem (Const 3) /\
  exists cs' c,
    Div (Const 6) (Const 3) newConstraintSystem = Ok (internalVariable 0, cs') /\
    constraints cs' = [c].
Proof.
  assert (R : reserved newConstraintSystem) by reflexivity.
  split; [exact R|]. split; [exact I|]. split; [exact I|].
  destruct (Div_spec 13 newConstraintSystem (Const 6) (Const 3) R I I)
    as (cs' & c & E & _ & C & _).
  exists cs', c. split; [exact E|exact C].
Defined.


Lemma noComputationCircuit_no_constraint_witness :
  let cs := mkCS 1 1 0 [0; 1; -1; 2] [] [] [] in
  let A := mkVariable (Some (mkWire Secret 0)) [] false in
  let B := mkVariable (Some (mkWire Public 0)) [] false in
  reserved cs /\
  wfLinExp cs (linExp (completeDanglingVariable A)) /\
  wfLinExp cs (linExp (completeDanglingVariable B)) /\
  exists cs' c,
    noComputationCircuit_Define A B cs = Ok (tt, cs') /\
    constraints cs' = [] /\ assertions cs' = [(c, 0%nat)].
Proof.
  cbv zeta.
  assert (R : reserved (mkCS 1 1 0 [0; 1; -1; 2] [] [] [])) by reflexivity.
  assert (WA : wfLinExp (mkCS 1 1 0 [0; 1; -1; 2] [] [] [])
                 (linExp (completeDanglingVariable
                            (mkVariable (Some (mkWire Secret 0)) [] false))))
    by (repeat constructor).
  assert (WB : wfLinExp (mkCS 1 1 0 [0; 1; -1; 2] [] [] [])
                 (linExp (completeDanglingVariable
                            (mkVariable (Some (mkWire Public 0)) [] false))))
    by (repeat constructor).
  split; [exact R|]. split; [exact WA|]. split; [exact WB|].
  destruct (noComputationCircuit_no_constraint 13 _ _ _ R WA WB)
    as (cs' & c & E & C & _ & _ & A & _).
  exists cs', c. split; [exact E|]. split; [exact C|exact A].
Defined.

Lemma AssertIsBoolean_sound_witness :
  let cs := mkCS 0 0 1 [0; 1; -1; 2] [] [] [] in
  Z.prime 3 /\ reserved cs /\
  wfLinExp cs (linExp (completeDanglingVariable (internalVariable 0))) /\
  exists cs' c,
    AssertIsBoolean 3 [] (internalVariable 0) cs = Ok (tt, cs') /\
    assertions cs' = [(c, 0%nat)].
Proof.
  cbv zeta.
  assert (R : reserved (mkCS 0 0 1 [0; 1; -1; 2] [] [] [])) by reflexivity.
  assert (W : wfLinExp (mkCS 0 0 1 [0; 1; -1; 2] [] [] [])
                (linExp (completeDanglingVariable (internalVariable 0))))
    by (repeat constructor).
  split; [exact Z.prime_3|]. split; [exact R|]. split; [exact W|].
  destruct (AssertIsBoolean_sound 3 [] _ (internalVariable 0) Z.prime_3 R W)
    as (_ & H).
  destruct (H eq_refl) as (cs' & c & E & _ & A & _).
  exists cs', c. split; [exact E|exact A].
Defined.





Lemma FromBinary_spec_witness :
  reserved newConstraintSystem /\
  Forall (fun v => wfLinExp newConstraintSystem
                     (linExp (completeDanglingVariable v)))
         [getOneVariable; getOneVariable] /\
  exists r cs' aN,
    FromBinary 13 [] [getOneVariable; getOneVariable] newConstraintSystem
    = Ok (r, cs') /\
    constraints cs' = [] /\
    assertions cs' = aN /\
    List.length aN = 2%nat /\
    booleanAssertions 13 cs' [getOneVariable; getOneVariable] aN /\
    value 13 cs' (fun _ => 1) (linExp r) = 3.
Proof.
  assert (R : reserved newConstraintSystem) by reflexivity.
  assert (W : Forall (fun v => wfLinExp newConstraintSystem
                                 (linExp (completeDanglingVariable v)))
                [getOneVariable; getOneVariable])
    by (repeat constructor).
  split; [exact R|]. split; [exact W|].
  destruct (FromBinary_spec 13 [] newConstraintSystem
              [getOneVariable; getOneVariable] R W)
    as (r & cs' & aN & E & C & A & L & B & V).
  exists r, cs', aN. split; [exact E|]. split; [exact C|].
  split; [exact A|]. split; [exact L|]. split; [exact B|].
  etransitivity; [exact (V (fun _ => 1) eq_refl)|reflexivity].
Defined.

Lemma FromBinary_ToBinary_witness :
  (0 < 2)%nat /\ 1 < 13 /\ Z.odd 13 = true /\
  reserved newConstraintSystem /\
  wfLinExp newConstraintSystem
           (linExp (completeDanglingVariable getOneVariable)) /\
  exists bits cs1 r cs2 c aN,
    ToBinary 13 [] getOneVariable 2 newConstraintSystem = Ok (bits, cs1) /\
    FromBinary 13 [] bits cs1 = Ok (r, cs2) /\
    constraints cs2 = [c] /\ assertions cs2 = aN /\ List.length aN = 4%nat /\
    booleanAssertions 13 cs2 (bits ++ bits) aN.
Proof.
  assert (Hn : (0 < 2)%nat) by (repeat constructor).
  assert (R : reserved newConstraintSystem) by reflexivity.
  assert (W : wfLinExp newConstraintSystem
                (linExp (completeDanglingVariable getOneVariable)))
    by (repeat constructor).
  split; [exact Hn|]. split; [reflexivity|]. split; [reflexivity|].
  split; [exact R|]. split; [exact W|].
  destruct (FromBinary_ToBinary 13 [] newConstraintSystem getOneVariable 2
              Hn eq_refl eq_refl R W)
    as (bits & cs1 & r & cs2 & c & aN & E1 & E2 & C & A & L & B & _).
  exists bits, cs1, r, cs2, c, aN.
  split; [exact E1|]. split; [exact E2|]. split; [exact C|].
  split; [exact A|]. split; [exact L|exact B].
Defined.

Lemma AssertIsLessOrEqual_constant_size_witness :
  Z.prime 3 /\ Z.odd 3 = true /\
  reserved newConstraintSystem /\
  wfLinExp newConstraintSystem
           (linExp (completeDanglingVariable getOneVariable)) /\
  exists cs' cN aN,
    AssertIsLessOrEqual 3 [] getOneVariable (Const 2) newConstraintSystem
    = Ok (tt, cs') /\
    constraints cs' = cN /\ assertions cs' = aN /\
    (List.length cN + List.length aN = 513)%nat.
Proof.
  assert (R : reserved newConstraintSystem) by reflexivity.
  assert (W : wfLinExp newConstraintSystem
                (linExp (completeDanglingVariable getOneVariable)))
    by (repeat constructor).
  split; [exact Z.prime_3|]. split; [reflexivity|].
  split; [exact R|]. split; [exact W|].
  destruct (AssertIsLessOrEqual_constant_size 3 [] newConstraintSystem
              getOneVariable 2 Z.prime_3 eq_refl R W)
    as (cs' & cN & aN & E & C & A & _ & _ & L).
  exists cs', cN, aN. split; [exact E|]. split; [exact C|].
  split; [exact A|exact L].
Defined.

Lemma AssertIsLessOrEqual_constant_sound_witness :
  let cs := mkCS 0 1 0 [0; 1; -1; 2] [] [] [] in
  let v := mkVariable (Some (mkWire Secret 0)) [] false in
  Z.prime 13 /\ Z.odd 13 = true /\
  reserved cs /\
  wfLinExp cs (linExp (completeDanglingVariable v)) /\
  exists cs' cN aN,
    AssertIsLessOrEqual 13 [] v (Const 5) cs = Ok (tt, cs') /\
    constraints cs' = cN /\
    assertions cs' = aN /\
    forall w, solves 13 cs' w (cN ++ map fst aN) ->
      0 <= w (Secret, 0%nat) mod 13 <= 5.
Proof.
  intros cs v.
  assert (R : reserved cs) by reflexivity.
  assert (W : wfLinExp cs (linExp (completeDanglingVariable v)))
    by (repeat constructor).
  assert (Hv : forall w, value 13 cs w (linExp (completeDanglingVariable v))
                         = w (Secret, 0%nat) mod 13).
  { intros w.
    change (value 13 cs w (linExp (completeDanglingVariable v)))
      with ((1 * w (Secret, 0%nat) + 0) mod 13).
    f_equal. lia. }
  split; [exact prime_13|]. split; [reflexivity|].
  split; [exact R|]. split; [exact W|].
  destruct (AssertIsLessOrEqual_constant_sound 13 [] cs v 5 prime_13 eq_refl R W)
    as (cs' & cN & aN & E & C & A & Sound).
  exists cs', cN, aN. split; [exact E|].
  split; [exact C|]. split; [exact A|].
  intros w Sv. destruct (Sound w Sv) as (_ & H).
  rewrite Hv in H. split.
  - apply Z.mod_pos_bound. lia.
  - apply H; [split; [discriminate|reflexivity]|reflexivity].
Defined.

Lemma AssertIsLessOrEqual_variable_witness :
  let cs := mkCS 1 1 0 [0; 1; -1; 2] [] [] [] in
  let v := mkVariable (Some (mkWire Secret 0)) [] false in
  let bound := mkVariable (Some (mkWire Public 0)) [] false in
  Z.prime 13 /\ Z.odd 13 = true /\
  reserved cs /\
  wfLinExp cs (linExp (completeDanglingVariable v)) /\
  wfLinExp cs (linExp (completeDanglingVariable bound)) /\
  exists cs' cN aN,
    AssertIsLessOrEqual 13 [] v (Var bound) cs = Ok (tt, cs') /\
    constraints cs' = cN /\ assertions cs' = aN /\
    List.length cN = 770%nat /\ List.length aN = 1280%nat /\
    forall w, solves 13 cs' w (cN ++ map fst aN) ->
      let V := binaryValue (map (bitOf 13 0 w) (seq 0 256)) in
      let B := binaryValue (map (bitOf 13 256 w) (seq 0 256)) in
      V <= B /\
      w (Secret, 0%nat) mod 13 = V mod 13 /\
      w (Public, 0%nat) mod 13 = B mod 13 /\
      (B < 13 -> w (Secret, 0%nat) mod 13 <= w (Public, 0%nat) mod 13).
Proof.
  intros cs v bound.
  assert (R : reserved cs) by reflexivity.
  assert (Wv : wfLinExp cs (linExp (completeDanglingVariable v)))
    by (repeat constructor).
  assert (Wb : wfLinExp cs (linExp (completeDanglingVariable bound)))
    by (repeat constructor).
  assert (Hv : forall w, value 13 cs w (linExp (completeDanglingVariable v))
                         = w (Secret, 0%nat) mod 13).
  { intros w.
    change (value 13 cs w (linExp (completeDanglingVariable v)))
      with ((1 * w (Secret, 0%nat) + 0) mod 13).
    f_equal. lia. }
  assert (Hb : forall w, value 13 cs w (linExp (completeDanglingVariable bound))
                         = w (Public, 0%nat) mod 13).
  { intros w.
    change (value 13 cs w (linExp (completeDanglingVariable bound)))
      with ((1 * w (Public, 0%nat) + 0) mod 13).
    f_equal. lia. }
  split; [exact prime_13|]. split; [reflexivity|].
  split; [exact R|]. split; [exact Wv|]. split; [exact Wb|].
  destruct (AssertIsLessOrEqual_variable 13 [] cs v bound prime_13 eq_refl
              R Wv Wb)
    as (cs' & cN & aN & E & C & A & Lc & La & Sound).
  exists cs', cN, aN. split; [exact E|]. split; [exact C|].
  split; [exact A|]. split; [exact Lc|]. split; [exact La|].
  intros w Sv. destruct (Sound w Sv) as (_ & _ & HVB & EV & EB & Small & _).
  rewrite Hv in EV, Small. rewrite Hb in EB, Small.
  split; [exact HVB|]. split; [exact EV|]. split; [exact EB|exact Small].
Defined.

Lemma ToBinary_sound_witness :
  (0 < 1)%nat /\ Z.prime 3 /\ Z.odd 3 = true /\
  reserved newConstraintSystem /\
  wfLinExp newConstraintSystem
           (linExp (completeDanglingVariable getOneVariable)) /\
  exists bits cs',
    ToBinary 3 [] getOneVariable 1 newConstraintSystem = Ok (bits, cs') /\
    List.length bits = 1%nat.
Proof.
  assert (Hn : (0 < 1)%nat) by (repeat constructor).
  assert (R : reserved newConstraintSystem) by reflexivity.
  assert (W : wfLinExp newConstraintSystem
                (linExp (completeDanglingVariable getOneVariable)))
    by (repeat constructor).
  split; [exact Hn|]. split; [exact Z.prime_3|]. split; [reflexivity|].
  split; [exact R|]. split; [exact W|].
  destruct (ToBinary_sound 3 [] newConstraintSystem getOneVariable 1
              Hn Z.prime_3 eq_refl R W)
    as (bits & cs' & cN & aN & E & L & _).
  exists bits, cs'. split; [exact E|exact L].
Defined.

End frontend.

(** *** The parameter registry *)

(** C8: NewEdCurve returns the parameter record built by the registered
    constructor, without an error, for each of the six registered
    identities, and the empty record with the unknown-curve error for
    every other identity; the error is returned exactly when the identity
    is not registered. *)
Theorem NewEdCurve_spec
  (GetEdwardsCurve : ecc.ID -> twistededwards.CurveParams)
  (frModulus : ecc.ID -> Z) (i : ecc.ID) :
  let ed := GetEdwardsCurve i in
  let res := twistededwards.NewEdCurve GetEdwardsCurve frModulus i in
  (ecc.supported i = true ->
     res = (twistededwards.mkEdCurve
              (twistededwards.cpA ed) (twistededwards.cpD ed)
              (twistededwards.cpCofactor ed) (twistededwards.cpOrder ed)
              (twistededwards.cpBaseX ed) (twistededwards.cpBaseY ed)
              (frModulus i) i, None)) /\
  (ecc.supported i = false ->
     res = (twistededwards.emptyEdCurve, Some "unknown curve id"%string)) /\
  (snd res <> None <-> ecc.supported i = false).
Proof.
  destruct i; cbv; repeat split; intros; try discriminate; try reflexivity;
    try congruence.
Qed.

